(** * Mobile UI test scaffold: configuration, driver lifecycle, discovery

    A shallow embedding of the Python sources
      - config/config_manager.py  (ConfigManager)
      - core/driver_manager.py    (DriverManager)
      - core/device_manager.py    (DeviceManager)
      - pages/base_page.py        (BasePage)
      - run_tests.py              (run_tests, main)
    together with the properties their specification states.

    Python objects are embedded as a small universe of YAML/JSON values,
    exceptions as an enumeration ordered by the class hierarchy that the
    [except] clauses of the sources discriminate on, and methods that touch
    the logger, the driver or a sub-process as computations in a
    state-and-exception monad. *)

From Stdlib Require Import ZArith Ascii String List Bool Lia.
From stdpp Require Import base option list strings gmap pretty.

Set Warnings "-register-all".
Local Open Scope string_scope.
Local Open Scope Z_scope.

(* ===================================================================== *)
(** ** Python values, exceptions and outcomes *)
(* ===================================================================== *)

Module Py.

(** Exception classes that the sources raise, catch or let through; a
    constructor is the class of the object raised.  The [except] clauses
    of the sources name [Exception] or classes without subclasses among
    these, so a clause catches by [Exception] or by the class itself.
    [KeyboardInterrupt] and [SystemExit] derive from [BaseException]
    only, so an [except Exception] clause does not catch them. *)
Inductive exn : Type :=
| TypeError
| KeyError
| AttributeError
| ValueError
| FileNotFoundError
| CalledProcessError
| TimeoutException
| NoSuchElementException
| StaleElementReferenceException
| WebDriverException
| OSError
| RuntimeError
| KeyboardInterrupt
| SystemExit.

#[global] Instance exn_eq_dec : EqDecision exn.
Proof. solve_decision. Defined.

(** [isinstance(e, Exception)]. *)
Definition is_Exception (e : exn) : bool :=
  match e with
  | KeyboardInterrupt | SystemExit => false
  | _ => true
  end.

(** The result of evaluating an expression: a value or a raised exception. *)
Inductive outcome (A : Type) : Type :=
| Ret (a : A)
| Raise (e : exn).
Arguments Ret {A} a.
Arguments Raise {A} e.

Definition obind {A B} (m : outcome A) (k : A -> outcome B) : outcome B :=
  match m with
  | Ret a => k a
  | Raise e => Raise e
  end.

#[global] Instance outcome_ret : MRet outcome := fun A a => Ret a.
#[global] Instance outcome_bind : MBind outcome :=
  fun A B k m => obind m k.

(** [try: m  except <classes>: h]. *)
Definition otry {A} (m : outcome A) (catches : exn -> bool)
    (h : exn -> outcome A) : outcome A :=
  match m with
  | Ret a => Ret a
  | Raise e => if catches e then h e else Raise e
  end.

(** Documents produced by [yaml.safe_load] / [json.loads]: scalars, lists
    and string-keyed mappings.  A mapping keeps its items in insertion
    order, as a Python [dict] does; [items()] iterates in that order.
    A document is a tree: no two positions of it hold the same object (it
    is written without YAML aliases). *)
Inductive value : Type :=
| VNone
| VBool (b : bool)
| VInt (n : Z)
| VStr (s : string)
| VList (l : list value)
| VDict (d : list (string * value)).

Abbreviation dict := (list (string * value)).

(** Induction principle that reaches the values stored in containers. *)
Section value_induction.
Variable P : value -> Prop.
Hypothesis HNone : P VNone.
Hypothesis HBool : forall b, P (VBool b).
Hypothesis HInt : forall n, P (VInt n).
Hypothesis HStr : forall s, P (VStr s).
Hypothesis HList : forall l, Forall P l -> P (VList l).
Hypothesis HDict : forall d, Forall (fun kv => P (snd kv)) d -> P (VDict d).

Fixpoint value_ind' (v : value) : P v :=
  match v with
  | VNone => HNone
  | VBool b => HBool b
  | VInt n => HInt n
  | VStr s => HStr s
  | VList l =>
      HList l
        ((fix go (l : list value) : Forall P l :=
            match l with
            | [] => List.Forall_nil P
            | x :: l' => List.Forall_cons P x l' (value_ind' x) (go l')
            end) l)
  | VDict d =>
      HDict d
        ((fix go (d : dict) : Forall (fun kv => P (snd kv)) d :=
            match d with
            | [] => List.Forall_nil _
            | kv :: d' =>
                List.Forall_cons (fun kv => P (snd kv)) kv d'
                  (value_ind' (snd kv)) (go d')
            end) d)
  end.
End value_induction.

Definition is_dict (v : value) : bool :=
  match v with VDict _ => true | _ => false end.

(** Truth value of an object in a condition ([if x:]). *)
Definition truthy (v : value) : bool :=
  match v with
  | VNone => false
  | VBool b => b
  | VInt n => negb (n =? 0)
  | VStr s => negb (String.eqb s "")
  | VList l => match l with [] => false | _ => true end
  | VDict d => match d with [] => false | _ => true end
  end.

(** *** Dictionaries *)

(** [d.get(k)] as an option: the item stored under [k]. *)
Fixpoint dict_get (d : dict) (k : string) : option value :=
  match d with
  | [] => None
  | (k', v) :: d' => if String.eqb k' k then Some v else dict_get d' k
  end.

(** [k in d]. *)
Definition dict_mem (d : dict) (k : string) : bool :=
  match dict_get d k with Some _ => true | None => false end.

(** [d[k] = v]: an existing key keeps its position, a new key goes last. *)
Fixpoint dict_set (d : dict) (k : string) (v : value) : dict :=
  match d with
  | [] => [(k, v)]
  | (k', v') :: d' =>
      if String.eqb k' k then (k', v) :: d' else (k', v') :: dict_set d' k v
  end.

Definition keys (d : dict) : list string := map fst d.

(** A Python dict never holds a key twice; this is the invariant of the
    representation, checked through nested containers. *)
Fixpoint nodupb (l : list string) : bool :=
  match l with
  | [] => true
  | k :: l' => negb (existsb (String.eqb k) l') && nodupb l'
  end.

Fixpoint wf (v : value) : bool :=
  match v with
  | VList l => forallb wf l
  | VDict d => nodupb (map fst d) && forallb (fun kv => wf (snd kv)) d
  | _ => true
  end.

(** *** Operators on arbitrary objects, with the exceptions they raise *)

(** [needle in hay] for two strings: substring test. *)
Fixpoint is_substring (needle hay : string) : bool :=
  String.prefix needle hay ||
  match hay with
  | EmptyString => false
  | String _ hay' => is_substring needle hay'
  end.

(** [k in obj] for a string [k]. *)
Definition contains (obj : value) (k : string) : outcome bool :=
  match obj with
  | VDict d => Ret (dict_mem d k)
  | VStr s => Ret (is_substring k s)
  | VList l =>
      Ret (existsb (fun x => match x with
                             | VStr s => String.eqb s k
                             | _ => false
                             end) l)
  | VNone | VBool _ | VInt _ => Raise TypeError
  end.

(** [obj[k]] for a string [k]. *)
Definition getitem (obj : value) (k : string) : outcome value :=
  match obj with
  | VDict d =>
      match dict_get d k with
      | Some v => Ret v
      | None => Raise KeyError
      end
  | _ => Raise TypeError
  end.

(** [obj[k] = v] for a string [k]; yields the object after the store. *)
Definition setitem (obj : value) (k : string) (v : value) : outcome value :=
  match obj with
  | VDict d => Ret (VDict (dict_set d k v))
  | _ => Raise TypeError
  end.

(** [obj.get(k, default)]: only mappings have the method. *)
Definition get_method (obj : value) (k : string) (default : value)
    : outcome value :=
  match obj with
  | VDict d =>
      match dict_get d k with
      | Some v => Ret v
      | None => Ret default
      end
  | _ => Raise AttributeError
  end.

End Py.

(* ===================================================================== *)
(** ** config/config_manager.py *)
(* ===================================================================== *)

Module Config.
Import Py.

(** [_merge_config(base_config, env_config)].  The Python method updates
    [base_config] in place and returns nothing; the embedding returns the
    object [base_config] denotes afterwards, or the exception raised.

    [[
      for key, value in env_config.items():
          if isinstance(value, dict) and key in base_config:
              self._merge_config(base_config[key], value)
          else:
              base_config[key] = value
    ]]

    The recursive call mutates the object stored under [key]; the slot of
    [base_config] still refers to it, which is the [dict_set] below. *)
Definition merge_items (rec : value -> value -> outcome value)
    : value -> dict -> outcome value :=
  fix go (base_config : value) (items : dict) {struct items} :=
    match items with
    | [] => Ret base_config
    | (key, value) :: rest =>
        base' ←
          (if is_dict value then
             present ← contains base_config key;
             if (present : bool) then
               sub ← getitem base_config key;
               sub' ← rec sub value;
               setitem base_config key sub'
             else setitem base_config key value
           else setitem base_config key value);
        go base' rest
    end.

Fixpoint _merge_config (base_config env_config : value) {struct env_config}
    : outcome value :=
  match env_config with
  | VDict items => merge_items _merge_config base_config items
  | _ => Raise AttributeError              (* no [items] attribute *)
  end.

(** [str.split(sep)] for a one-character separator. *)
Fixpoint split (sep : ascii) (s : string) : list string :=
  match s with
  | EmptyString => [EmptyString]
  | String c s' =>
      if Ascii.eqb c sep then EmptyString :: split sep s'
      else match split sep s' with
           | h :: t => String c h :: t
           | [] => [String c EmptyString]
           end
  end.

(** The loop of [get]: [for key in keys: value = value[key]]. *)
Fixpoint walk (value : value) (keys : list string) : outcome Py.value :=
  match keys with
  | [] => Ret value
  | key :: keys' => value' ← getitem value key; walk value' keys'
  end.

(** [ConfigManager.get(key_path, default)]; [config] is [self.config]. *)
Definition get (config : value) (key_path : string) (default : value)
    : outcome value :=
  let keys := split "." key_path in
  otry (walk config keys)
       (fun e => match e with KeyError | TypeError => true | _ => false end)
       (fun _ => Ret default).

(** [_load_config]: the two [open]/[yaml.safe_load] steps are inputs,
    [main_doc] for [config.yaml] and [env_doc] for [env_config.yaml],
    the latter [None] when [os.path.exists] says the file is absent.
    The result is the new [self.config]. *)
Definition _load_config (env : string) (main_doc : outcome value)
    (env_doc : option (outcome value)) : outcome value :=
  otry
    (config ← main_doc;
     match env_doc with
     | None => Ret config
     | Some loaded =>
         env_config ← loaded;
         present ← contains env_config env;
         if (present : bool) then
           overlay ← getitem env_config env;
           _merge_config config overlay
         else Ret config
     end)
    is_Exception
    (fun _ => Ret (VDict [])).

End Config.

(* ===================================================================== *)
(** ** Effects: state, exceptions and the log *)
(* ===================================================================== *)

Module Eff.
Import Py.

(** A method body: it reads and writes a state [S] (attributes of [self],
    the log, whatever lies outside the process) and returns or raises. *)
Definition M (S A : Type) : Type := S -> outcome A * S.

Definition ret {S A} (a : A) : M S A := fun s => (Ret a, s).
Definition raise {S A} (e : exn) : M S A := fun s => (Raise e, s).

Definition bind {S A B} (m : M S A) (k : A -> M S B) : M S B :=
  fun s =>
    match m s with
    | (Ret a, s') => k a s'
    | (Raise e, s') => (Raise e, s')
    end.

(** An expression without side effects evaluated inside a method. *)
Definition lift {S A} (o : outcome A) : M S A := fun s => (o, s).

Definition gets {S A} (f : S -> A) : M S A := fun s => (Ret (f s), s).
Definition modify {S} (f : S -> S) : M S unit := fun s => (Ret tt, f s).

(** [try: m  except <classes> as e: h e]. *)
Definition try_except {S A} (m : M S A) (catches : exn -> bool)
    (h : exn -> M S A) : M S A :=
  fun s =>
    match m s with
    | (Ret a, s') => (Ret a, s')
    | (Raise e, s') => if catches e then h e s' else (Raise e, s')
    end.

(** [try: m  finally: fin]: [fin] runs on every exit from [m]; what [m]
    returned or raised stands unless [fin] itself raises. *)
Definition try_finally {S A} (m : M S A) (fin : M S unit) : M S A :=
  fun s =>
    match m s with
    | (r, s') =>
        match fin s' with
        | (Ret _, s'') => (r, s'')
        | (Raise e, s'') => (Raise e, s'')
        end
    end.

Inductive level : Type := DEBUG | INFO | WARNING | ERROR.

(** A record handed to the logger: level, the message of the source with
    its placeholders left in, and the exception interpolated, if any. *)
Record log_entry : Type := LogEntry {
  entry_level : level;
  entry_text : string;
  entry_exn : option exn
}.

(** [c], run from [s], ends in a result and a state related by [Q]. *)
Definition ensures {S A} (c : M S A) (s : S) (Q : outcome A -> S -> Prop)
    : Prop :=
  Q (fst (c s)) (snd (c s)).

(** [except (A, B, ...)]: the exception is one of the classes named; the
    first matching clause of several is chosen by the handler. *)
Definition catches_only (classes : list exn) (e : exn) : bool :=
  bool_decide (e ∈ classes).

End Eff.

Declare Scope eff_scope.
Delimit Scope eff_scope with eff.
Notation "x <- m ;; k" := (Eff.bind m (fun x => k))
  (at level 100, m at next level, right associativity) : eff_scope.
Notation "m ;;; k" := (Eff.bind m (fun _ => k))
  (at level 100, right associativity) : eff_scope.

(* ===================================================================== *)
(** ** core/driver_manager.py *)
(* ===================================================================== *)

Module Driver.
Import Py Eff.
Local Open Scope eff_scope.

(** A [webdriver.Remote] object, known by the session it stands for. *)
Record session : Type := Session { session_id : nat }.

(** A [WebDriverWait(driver, timeout)] object. *)
Record waiter : Type := WebDriverWait {
  wait_driver : session;
  wait_timeout : value
}.

(** The f-string [http://{host}:{port}], kept as the two objects that are
    interpolated into it. *)
Record server_url : Type := ServerUrl { url_host : value; url_port : value }.

(** A capability set: a flat mapping from names to values. *)
Abbreviation caps := (gmap string value).

(** What lies outside the class: the file system, the Appium client
    library and the server behind it.  Each call may return or raise and
    may change the outside world [W]. *)
Record appium (W : Type) : Type := Appium {
  path_exists : value -> W -> outcome bool * W;          (* os.path.exists *)
  Remote : server_url -> caps -> W -> outcome session * W;
  implicitly_wait : session -> value -> W -> outcome unit * W;
  new_wait : session -> value -> W -> outcome waiter * W;
  page_source : session -> W -> outcome string * W;
  quit : session -> W -> outcome unit * W;
  sleep : Z -> W -> outcome unit * W                     (* time.sleep *)
}.
Arguments path_exists {W}. Arguments Remote {W}.
Arguments implicitly_wait {W}. Arguments new_wait {W}.
Arguments page_source {W}. Arguments quit {W}. Arguments sleep {W}.

(** The attributes of a [DriverManager] that change, with the log and the
    outside world. *)
Record manager (W : Type) : Type := Manager {
  world : W;
  driver : option session;
  wait : option waiter;
  log : list log_entry
}.
Arguments Manager {W}. Arguments world {W}. Arguments driver {W}.
Arguments wait {W}. Arguments log {W}.

(** [DriverManager.__init__]: no session, no wait object. *)
Definition init {W} (w : W) : manager W :=
  {| world := w; driver := None; wait := None; log := [] |}.

Section methods.
Context {W : Type}.
Variable env : appium W.
(** [config_manager.config], the merged configuration document. *)
Variable config : value.

Definition call {A} (f : W -> outcome A * W) : M (manager W) A :=
  fun m =>
    let (r, w') := f (world m) in
    (r, {| world := w'; driver := driver m; wait := wait m;
           log := log m |}).

Definition set_driver (d : option session) : M (manager W) unit :=
  modify (fun m => {| world := world m; driver := d; wait := wait m;
                      log := log m |}).

Definition set_wait (w : option waiter) : M (manager W) unit :=
  modify (fun m => {| world := world m; driver := driver m; wait := w;
                      log := log m |}).

(** [self.logger.<level>(text)]; entries are kept oldest first. *)
Definition logger (l : level) (text : string) (e : option exn)
    : M (manager W) unit :=
  modify (fun m => {| world := world m; driver := driver m;
                      wait := wait m;
                      log := log m ++ [LogEntry l text e] |}).

Definition get_appium_config : outcome value :=
  Config.get config "appium" (VDict []).
Definition get_android_config : outcome value :=
  Config.get config "android" (VDict []).
Definition get_ios_config : outcome value :=
  Config.get config "ios" (VDict []).
Definition get_test_config : outcome value :=
  Config.get config "test" (VDict []).

(** A dict display [{name: obj.get(key, default), ...}], its entries
    evaluated from left to right. *)
Fixpoint dict_display (entries : list (string * (value * string * value)))
    : outcome caps :=
  match entries with
  | [] => Ret ∅
  | (name, (obj, key, default)) :: rest =>
      match get_method obj key default with
      | Ret v =>
          match dict_display rest with
          | Ret c => Ret (<[name := v]> c)
          | Raise e => Raise e
          end
      | Raise e => Raise e
      end
  end.

(** [if app_path and os.path.exists(app_path): default_caps['app'] =
    app_path]. *)
Definition add_app (app_path : value) (default_caps : caps)
    : M (manager W) caps :=
  if truthy app_path then
    found <- call (path_exists env app_path) ;;
    if (found : bool) then ret (<["app" := app_path]> default_caps)
    else ret default_caps
  else ret default_caps.

(** [if capabilities: default_caps.update(capabilities)]. *)
Definition update_caps (default_caps : caps) (capabilities : option caps)
    : caps :=
  match capabilities with
  | Some overrides =>
      if bool_decide (size overrides = 0%nat) then default_caps
      else overrides ∪ default_caps
  | None => default_caps
  end.

(** Lines 44-65 of [start_android_driver]: the capability set handed to
    [webdriver.Remote]. *)
Definition android_capabilities (appium_config android_config : value)
    (capabilities : option caps) : M (manager W) caps :=
  default_caps <- lift (dict_display
    [ ("platformName", (android_config, "platform_name", VStr "Android"));
      ("platformVersion", (android_config, "platform_version", VStr "13"));
      ("deviceName",
         (android_config, "device_name", VStr "Android Device"));
      ("automationName",
         (android_config, "automation_name", VStr "UiAutomator2"));
      ("appPackage", (android_config, "app_package", VStr ""));
      ("appActivity", (android_config, "app_activity", VStr ""));
      ("noReset", (android_config, "no_reset", VBool true));
      ("fullReset", (android_config, "full_reset", VBool false));
      ("unicodeKeyboard",
         (android_config, "unicode_keyboard", VBool true));
      ("resetKeyboard", (android_config, "reset_keyboard", VBool true));
      ("newCommandTimeout",
         (appium_config, "new_command_timeout", VInt 300)) ]) ;;
  app_path <- lift (get_method android_config "app_path" VNone) ;;
  default_caps <- add_app app_path default_caps ;;
  ret (update_caps default_caps capabilities).

(** Lines 108-131 of [start_ios_driver]. *)
Definition ios_capabilities (appium_config ios_config : value)
    (capabilities : option caps) : M (manager W) caps :=
  default_caps <- lift (dict_display
    [ ("platformName", (ios_config, "platform_name", VStr "iOS"));
      ("platformVersion", (ios_config, "platform_version", VStr "16.0"));
      ("deviceName", (ios_config, "device_name", VStr "iPhone"));
      ("automationName",
         (ios_config, "automation_name", VStr "XCUITest"));
      ("bundleId", (ios_config, "bundle_id", VStr ""));
      ("noReset", (ios_config, "no_reset", VBool true));
      ("fullReset", (ios_config, "full_reset", VBool false));
      ("newCommandTimeout",
         (appium_config, "new_command_timeout", VInt 300)) ]) ;;
  udid <- lift (get_method ios_config "udid" VNone) ;;
  let default_caps :=
    if truthy udid then <["udid" := udid]> default_caps
    else default_caps in
  app_path <- lift (get_method ios_config "app_path" VNone) ;;
  default_caps <- add_app app_path default_caps ;;
  ret (update_caps default_caps capabilities).

(** The part the two start methods share, from the server URL on. *)
Definition open_session (appium_config test_config : value)
    (default_caps : caps) (starting started : string)
    : M (manager W) session :=
  host <- lift (get_method appium_config "host" (VStr "127.0.0.1")) ;;
  port <- lift (get_method appium_config "port" (VInt 4723)) ;;
  logger INFO starting None ;;;
  logger INFO "Capabilities: {default_caps}" None ;;;
  d <- call (Remote env (ServerUrl host port) default_caps) ;;
  set_driver (Some d) ;;;
  implicit_wait <-
    lift (get_method test_config "implicit_wait" (VInt 10)) ;;
  call (implicitly_wait env d implicit_wait) ;;;
  explicit_wait <-
    lift (get_method test_config "explicit_wait" (VInt 30)) ;;
  w <- call (new_wait env d explicit_wait) ;;
  set_wait (Some w) ;;;
  logger INFO started None ;;;
  ret d.

Definition start_android_driver (capabilities : option caps)
    : M (manager W) session :=
  try_except
    (appium_config <- lift get_appium_config ;;
     android_config <- lift get_android_config ;;
     test_config <- lift get_test_config ;;
     default_caps <-
       android_capabilities appium_config android_config capabilities ;;
     open_session appium_config test_config default_caps
       "启动Android驱动，服务器: {server_url}" "Android驱动启动成功")
    is_Exception
    (fun e => logger ERROR "启动Android驱动失败: {e}" (Some e) ;;;
              raise e).

Definition start_ios_driver (capabilities : option caps)
    : M (manager W) session :=
  try_except
    (appium_config <- lift get_appium_config ;;
     ios_config <- lift get_ios_config ;;
     test_config <- lift get_test_config ;;
     default_caps <-
       ios_capabilities appium_config ios_config capabilities ;;
     open_session appium_config test_config default_caps
       "启动iOS驱动，服务器: {server_url}" "iOS驱动启动成功")
    is_Exception
    (fun e => logger ERROR "启动iOS驱动失败: {e}" (Some e) ;;;
              raise e).

Definition quit_driver : M (manager W) unit :=
  current <- gets driver ;;
  match current with
  | Some d =>
      try_finally
        (try_except
           (call (quit env d) ;;; logger INFO "驱动已退出" None)
           is_Exception
           (fun e => logger ERROR "退出驱动失败: {e}" (Some e)))
        (set_driver None ;;; set_wait None)
  | None => ret tt
  end.

Definition get_driver : M (manager W) (option session) := gets driver.
Definition get_wait : M (manager W) (option waiter) := gets wait.

Definition is_driver_alive : M (manager W) bool :=
  current <- gets driver ;;
  match current with
  | None => ret false
  | Some d =>
      try_except
        (call (page_source env d) ;;; ret true)
        is_Exception
        (fun _ => ret false)
  end.

(** [str.lower] on the letters A-Z. *)
Definition lower_ascii (c : ascii) : ascii :=
  let n := nat_of_ascii c in
  if ((65 <=? n) && (n <=? 90))%nat then ascii_of_nat (n + 32) else c.

Fixpoint lower (s : string) : string :=
  match s with
  | EmptyString => EmptyString
  | String c s' => String (lower_ascii c) (lower s')
  end.

Definition restart_driver (platform : string)
    (capabilities : option caps) : M (manager W) session :=
  quit_driver ;;;
  call (sleep env 2) ;;;
  if String.eqb (lower platform) "android" then
    start_android_driver capabilities
  else if String.eqb (lower platform) "ios" then
    start_ios_driver capabilities
  else raise ValueError.

End methods.

End Driver.


(* ===================================================================== *)
(** ** Text helpers of the standard library *)
(* ===================================================================== *)

Module Text.

(** Characters [str.strip()] removes, among the first 128: tab, line
    feed, vertical tab, form feed, carriage return, the four separators
    28-31 and the space. *)
Definition is_space (c : ascii) : bool :=
  let n := nat_of_ascii c in
  (((9 <=? n) && (n <=? 13)) || ((28 <=? n) && (n <=? 32)))%nat.

Fixpoint lstrip (s : string) : string :=
  match s with
  | EmptyString => EmptyString
  | String c s' => if is_space c then lstrip s' else s
  end.

Fixpoint rstrip (s : string) : string :=
  match s with
  | EmptyString => EmptyString
  | String c s' =>
      match rstrip s' with
      | EmptyString => if is_space c then EmptyString else String c EmptyString
      | r => String c r
      end
  end.

(** [s.strip()]. *)
Definition strip (s : string) : string := rstrip (lstrip s).

(** [s.split()]: the maximal runs of characters that are not white space. *)
Fixpoint split_whitespace_aux (cur : string) (s : string) : list string :=
  match s with
  | EmptyString =>
      match cur with EmptyString => [] | _ => [cur] end
  | String c s' =>
      if is_space c then
        match cur with
        | EmptyString => split_whitespace_aux EmptyString s'
        | _ => cur :: split_whitespace_aux EmptyString s'
        end
      else split_whitespace_aux (cur +:+ String c EmptyString) s'
  end.

Definition split_whitespace (s : string) : list string :=
  split_whitespace_aux EmptyString s.

End Text.

(* ===================================================================== *)
(** ** Sub-processes *)
(* ===================================================================== *)

Module Subprocess.
Import Py.

(** What happened to a command handed to [subprocess.run]: it ran to an
    exit status, or it could not be started (a missing executable is
    [FileNotFoundError]) or was interrupted. *)
Inductive completion : Type :=
| Exited (returncode : Z) (stdout : string)
| Failed (e : exn).

(** [subprocess.run(cmd, capture_output=True, text=True, check=True)
    .stdout]. *)
Definition checked (c : completion) : outcome string :=
  match c with
  | Exited returncode stdout =>
      if returncode =? 0 then Ret stdout else Raise CalledProcessError
  | Failed e => Raise e
  end.

(** [subprocess.run(cmd, check=False).returncode]. *)
Definition unchecked (c : completion) : outcome Z :=
  match c with
  | Exited returncode _ => Ret returncode
  | Failed e => Raise e
  end.

End Subprocess.

(* ===================================================================== *)
(** ** core/device_manager.py *)
(* ===================================================================== *)

Module Device.
Import Py Eff Subprocess.
Local Open Scope eff_scope.

(** Outside the class: the commands it starts and [json.loads]. *)
Record host (W : Type) : Type := Host {
  run : list string -> W -> completion * W;
  json_loads : string -> outcome value
}.
Arguments run {W}. Arguments json_loads {W}.

Record state (W : Type) : Type := State {
  world : W;
  log : list log_entry
}.
Arguments State {W}. Arguments world {W}. Arguments log {W}.

Section methods.
Context {W : Type}.
Variable env : host W.

Definition logger (l : level) (text : string) (e : option exn)
    : M (state W) unit :=
  modify (fun s => {| world := world s;
                      log := log s ++ [LogEntry l text e] |}).

(** [subprocess.run(cmd, capture_output=True, text=True, check=True)]. *)
Definition run_checked (cmd : list string) : M (state W) string :=
  fun s =>
    let (c, w') := run env cmd (world s) in
    (checked c, {| world := w'; log := log s |}).

(** The loop over the lines of [adb devices]. *)
Fixpoint android_lines (lines : list string) : list value :=
  match lines with
  | [] => []
  | line :: rest =>
      match Text.strip line with
      | EmptyString => android_lines rest
      | _ =>
          match Config.split "009" line with
          | id :: status :: _ =>
              VDict [ ("device_id", VStr (Text.strip id));
                      ("status", VStr (Text.strip status));
                      ("platform", VStr "Android") ]
              :: android_lines rest
          | _ => android_lines rest
          end
      end
  end.

Definition get_android_devices : M (state W) (list value) :=
  try_except
    (stdout <- run_checked ["adb"; "devices"] ;;
     let lines := tail (Config.split "010" (Text.strip stdout)) in
     let devices := android_lines lines in
     logger INFO "发现 {len(devices)} 个Android设备" None ;;;
     ret devices)
    (catches_only [CalledProcessError; FileNotFoundError])
    (fun e =>
       match e with
       | CalledProcessError =>
           logger ERROR "获取Android设备失败: {e}" (Some e) ;;; ret []
       | _ =>
           logger ERROR "ADB未找到，请确保Android SDK已安装并配置环境变量"
             None ;;;
           ret []
       end).

(** [obj.items()]. *)
Definition items (obj : value) : outcome dict :=
  match obj with
  | VDict d => Ret d
  | _ => Raise AttributeError
  end.

(** The objects [for x in obj] goes through. *)
Fixpoint characters (s : string) : list value :=
  match s with
  | EmptyString => []
  | String c s' => VStr (String c EmptyString) :: characters s'
  end.

Definition iterate (obj : value) : outcome (list value) :=
  match obj with
  | VList l => Ret l
  | VDict d => Ret (map (fun kv => VStr (fst kv)) d)
  | VStr s => Ret (characters s)
  | VNone | VBool _ | VInt _ => Raise TypeError
  end.

Definition is_str (v : value) (s : string) : bool :=
  match v with VStr s' => String.eqb s' s | _ => false end.

(** The inner loop: the booted simulators of one runtime. *)
Fixpoint booted (runtime : string) (device_list : list value)
    : outcome (list value) :=
  match device_list with
  | [] => Ret []
  | device :: rest =>
      st ← getitem device "state";
      here ←
        (if is_str st "Booted" then
           udid ← getitem device "udid";
           name ← getitem device "name";
           status ← getitem device "state";
           Ret [ VDict [ ("device_id", udid); ("device_name", name);
                         ("status", status); ("platform", VStr "iOS");
                         ("runtime", VStr runtime) ] ]
         else Ret []);
      more ← booted runtime rest;
      Ret (here ++ more)%list
  end.

(** The outer loop over [data['devices'].items()]. *)
Fixpoint simulators (runtimes : dict) : outcome (list value) :=
  match runtimes with
  | [] => Ret []
  | (runtime, device_list) :: rest =>
      l ← iterate device_list;
      here ← booted runtime l;
      more ← simulators rest;
      Ret (here ++ more)%list
  end.

(** The loop over the lines of [idevice_id -l]. *)
Fixpoint real_devices (lines : list string) : list value :=
  match lines with
  | [] => []
  | line :: rest =>
      match Text.strip line with
      | EmptyString => real_devices rest
      | id =>
          VDict [ ("device_id", VStr id);
                  ("device_name", VStr "Real Device");
                  ("status", VStr "connected"); ("platform", VStr "iOS");
                  ("runtime", VStr "Real Device") ]
          :: real_devices rest
      end
  end.

Definition get_ios_devices : M (state W) (list value) :=
  try_except
    (stdout <-
       run_checked ["xcrun"; "simctl"; "list"; "devices"; "--json"] ;;
     data <- lift (json_loads env stdout) ;;
     by_runtime <- lift (getitem data "devices") ;;
     runtimes <- lift (items by_runtime) ;;
     devices <- lift (simulators runtimes) ;;
     devices <-
       try_except
         (stdout <- run_checked ["idevice_id"; "-l"] ;;
          ret (devices ++
               real_devices (Config.split "010" (Text.strip stdout)))%list)
         (catches_only [CalledProcessError; FileNotFoundError])
         (fun _ =>
            logger WARNING "libimobiledevice未安装，无法检测iOS真机设备"
              None ;;;
            ret devices) ;;
     logger INFO "发现 {len(devices)} 个iOS设备" None ;;;
     ret devices)
    (catches_only [CalledProcessError; FileNotFoundError])
    (fun e =>
       match e with
       | CalledProcessError =>
           logger ERROR "获取iOS设备失败: {e}" (Some e) ;;; ret []
       | _ => logger ERROR "Xcode Command Line Tools未找到" None ;;; ret []
       end).

End methods.

End Device.


(* ===================================================================== *)
(** ** pages/base_page.py *)
(* ===================================================================== *)

Module Page.
Import Py Eff.
Local Open Scope eff_scope.

(** A [WebElement]. *)
Record element : Type := Element { element_id : nat }.

(** A locator tuple [(by, value)]. *)
Abbreviation locator := (string * string)%type.

(** The session the page works on.  [until_*] stand for
    [WebDriverWait(self.driver, timeout).until(EC.<condition>(locator))],
    the others for methods of the driver and of elements. *)
Record browser (W : Type) : Type := Browser {
  until_presence : locator -> value -> W -> outcome element * W;
  until_all_present : locator -> value -> W -> outcome (list element) * W;
  until_visible : locator -> value -> W -> outcome element * W;
  until_clickable : locator -> value -> W -> outcome element * W;
  driver_find_element : locator -> W -> outcome element * W;
  is_displayed : element -> W -> outcome bool * W;
  element_click : element -> W -> outcome unit * W;
  element_clear : element -> W -> outcome unit * W;
  element_send_keys : element -> string -> W -> outcome unit * W;
  element_text : element -> W -> outcome string * W;
  element_get_attribute :
    element -> string -> W -> outcome (option string) * W;
  driver_swipe : Z -> Z -> Z -> Z -> Z -> W -> outcome unit * W;
  get_window_size : W -> outcome value * W;
  sleep : W -> outcome unit * W
}.
Arguments until_presence {W}. Arguments until_all_present {W}.
Arguments until_visible {W}. Arguments until_clickable {W}.
Arguments driver_find_element {W}. Arguments is_displayed {W}.
Arguments element_click {W}. Arguments element_clear {W}.
Arguments element_send_keys {W}. Arguments element_text {W}.
Arguments element_get_attribute {W}. Arguments driver_swipe {W}.
Arguments get_window_size {W}. Arguments sleep {W}.

Record state (W : Type) : Type := State {
  world : W;
  log : list log_entry
}.
Arguments State {W}. Arguments world {W}. Arguments log {W}.

Section methods.
Context {W : Type}.
Variable env : browser W.
Variable config : value.

Definition call {A} (f : W -> outcome A * W) : M (state W) A :=
  fun s =>
    let (r, w') := f (world s) in (r, {| world := w'; log := log s |}).

Definition logger (l : level) (text : string) (e : option exn)
    : M (state W) unit :=
  modify (fun s => {| world := world s;
                      log := log s ++ [LogEntry l text e] |}).

(** [if timeout is None: timeout = self.config.get('test.explicit_wait',
    30)]. *)
Definition default_timeout (timeout : option value) : M (state W) value :=
  match timeout with
  | None => lift (Config.get config "test.explicit_wait" (VInt 30))
  | Some t => ret t
  end.

Definition find_element (loc : locator) (timeout : option value)
    : M (state W) (option element) :=
  try_except
    (timeout <- default_timeout timeout ;;
     element <- call (until_presence env loc timeout) ;;
     logger DEBUG "找到元素: {locator}" None ;;;
     ret (Some element))
    is_Exception
    (fun e =>
       match e with
       | TimeoutException =>
           logger WARNING "元素查找超时: {locator}" None ;;; ret None
       | _ =>
           logger ERROR "查找元素失败: {locator}, 错误: {e}" (Some e) ;;;
           ret None
       end).


Definition wait_for_element_visible (loc : locator) (timeout : option value)
    : M (state W) bool :=
  try_except
    (timeout <- default_timeout timeout ;;
     call (until_visible env loc timeout) ;;;
     logger DEBUG "元素已可见: {locator}" None ;;;
     ret true)
    (catches_only [TimeoutException])
    (fun _ => logger WARNING "等待元素可见超时: {locator}" None ;;;
              ret false).

Definition wait_for_element_clickable (loc : locator)
    (timeout : option value) : M (state W) bool :=
  try_except
    (timeout <- default_timeout timeout ;;
     call (until_clickable env loc timeout) ;;;
     logger DEBUG "元素可点击: {locator}" None ;;;
     ret true)
    (catches_only [TimeoutException])
    (fun _ => logger WARNING "等待元素可点击超时: {locator}" None ;;;
              ret false).

Definition is_element_present (loc : locator) : M (state W) bool :=
  try_except
    (call (driver_find_element env loc) ;;; ret true)
    (catches_only [NoSuchElementException])
    (fun _ => ret false).

Definition is_element_visible (loc : locator) : M (state W) bool :=
  try_except
    (element <- call (driver_find_element env loc) ;;
     call (is_displayed env element))
    (catches_only [NoSuchElementException])
    (fun _ => ret false).

Definition click (loc : locator) (timeout : option value)
    : M (state W) bool :=
  try_except
    (let failed :=
       logger WARNING "点击元素失败: {locator}" None ;;; ret false in
     clickable <- wait_for_element_clickable loc timeout ;;
     if (clickable : bool) then
       element <- find_element loc timeout ;;
       match element with
       | Some el =>
           call (element_click env el) ;;;
           logger INFO "点击元素成功: {locator}" None ;;;
           ret true
       | None => failed
       end
     else failed)
    is_Exception
    (fun e => logger ERROR "点击元素异常: {locator}, 错误: {e}" (Some e) ;;;
              ret false).

Definition send_keys (loc : locator) (text : string) (clear_first : bool)
    (timeout : option value) : M (state W) bool :=
  try_except
    (element <- find_element loc timeout ;;
     match element with
     | Some el =>
         (if clear_first then call (element_clear env el) else ret tt) ;;;
         call (element_send_keys env el text) ;;;
         logger INFO "输入文本成功: {locator}, 文本: {text}" None ;;;
         ret true
     | None =>
         logger WARNING "输入文本失败: {locator}" None ;;; ret false
     end)
    is_Exception
    (fun e => logger ERROR "输入文本异常: {locator}, 错误: {e}" (Some e) ;;;
              ret false).

Definition get_text (loc : locator) (timeout : option value)
    : M (state W) string :=
  try_except
    (element <- find_element loc timeout ;;
     match element with
     | Some el =>
         text <- call (element_text env el) ;;
         logger DEBUG "获取文本: {locator}, 文本: {text}" None ;;;
         ret text
     | None => ret ""
     end)
    is_Exception
    (fun e => logger ERROR "获取文本异常: {locator}, 错误: {e}" (Some e) ;;;
              ret "").


Definition swipe (start_x start_y end_x end_y duration : Z)
    : M (state W) unit :=
  try_except
    (call (driver_swipe env start_x start_y end_x end_y duration) ;;;
     logger INFO "滑动操作: ({start_x},{start_y}) -> ({end_x},{end_y})" None)
    is_Exception
    (fun e => logger ERROR "滑动操作失败: {e}" (Some e)).

(** An operand of [//] and [*] with an integer: integers and booleans
    are accepted; for any other object the arithmetic on it raises
    [TypeError]. *)
Definition as_int (v : value) : outcome Z :=
  match v with
  | VInt n => Ret n
  | VBool b => Ret (Z.b2z b)
  | _ => Raise TypeError
  end.

Definition scroll_down (distance : option Z) : M (state W) unit :=
  try_except
    (size <- call (get_window_size env) ;;
     width <- lift (getitem size "width") ;;
     height <- lift (getitem size "height") ;;
     height <- lift (as_int height) ;;
     let distance :=
       match distance with None => height / 3 | Some d => d end in
     width <- lift (as_int width) ;;
     let start_x := width / 2 in
     let start_y := height * 2 / 3 in
     let end_x := width / 2 in
     let end_y := start_y - distance in
     swipe start_x start_y end_x end_y 1000)
    is_Exception
    (fun e => logger ERROR "向下滚动失败: {e}" (Some e)).

Definition scroll_up (distance : option Z) : M (state W) unit :=
  try_except
    (size <- call (get_window_size env) ;;
     width <- lift (getitem size "width") ;;
     height <- lift (getitem size "height") ;;
     height <- lift (as_int height) ;;
     let distance :=
       match distance with None => height / 3 | Some d => d end in
     width <- lift (as_int width) ;;
     let start_x := width / 2 in
     let start_y := height / 3 in
     let end_x := width / 2 in
     let end_y := start_y + distance in
     swipe start_x start_y end_x end_y 1000)
    is_Exception
    (fun e => logger ERROR "向上滚动失败: {e}" (Some e)).

(** The [for i in range(max_scrolls)] loop of [scroll_to_element]. *)
Fixpoint scroll_loop (loc : locator) (n : nat) : M (state W) bool :=
  match n with
  | O =>
      logger WARNING "滚动查找元素失败: {locator}" None ;;; ret false
  | S n' =>
      present <- is_element_present loc ;;
      if (present : bool) then
        logger INFO "找到元素: {locator}" None ;;; ret true
      else
        scroll_down None ;;;
        call (sleep env) ;;;
        scroll_loop loc n'
  end.

Definition scroll_to_element (loc : locator) (max_scrolls : Z)
    : M (state W) bool :=
  scroll_loop loc (Z.to_nat max_scrolls).

End methods.

End Page.


(* ===================================================================== *)
(** ** run_tests.py *)
(* ===================================================================== *)

Module Runner.
Import Py Eff Subprocess.
Local Open Scope eff_scope.

(** [report_manager] and [subprocess], as [run_tests.py] uses them. *)
Record tools (W : Type) : Type := Tools {
  clean_allure_results : W -> outcome unit * W;
  cleanup_old_reports : W -> outcome unit * W;
  generate_pytest_html_report : W -> outcome string * W;
  generate_allure_report : W -> outcome bool * W;
  open_allure_report : W -> outcome bool * W;
  serve_allure_report : W -> outcome bool * W;
  allure_results_dir : string;
  html_report_dir : string;
  subprocess_run : list string -> W -> completion * W
}.
Arguments clean_allure_results {W}. Arguments cleanup_old_reports {W}.
Arguments generate_pytest_html_report {W}.
Arguments generate_allure_report {W}. Arguments open_allure_report {W}.
Arguments serve_allure_report {W}. Arguments allure_results_dir {W}.
Arguments html_report_dir {W}. Arguments subprocess_run {W}.

Record state (W : Type) : Type := State {
  world : W;
  log : list log_entry;
  printed : list string
}.
Arguments State {W}. Arguments world {W}. Arguments log {W}.
Arguments printed {W}.

(** The namespace [parser.parse_args()] returns. *)
Record arguments : Type := Arguments_ {
  test_path : option string;
  markers : option string;
  workers : Z;
  report : string;
  reruns : Z;
  verbose : bool;
  collect_only : bool;
  open_report : bool;
  serve_report : bool;
  clean_reports : bool
}.

Section script.
Context {W : Type}.
Variable env : tools W.

Definition call {A} (f : W -> outcome A * W) : M (state W) A :=
  fun s =>
    let (r, w') := f (world s) in
    (r, {| world := w'; log := log s; printed := printed s |}).

Definition logger (l : level) (text : string) (e : option exn)
    : M (state W) unit :=
  modify (fun s => {| world := world s;
                      log := log s ++ [LogEntry l text e];
                      printed := printed s |}).

Definition print (text : string) : M (state W) unit :=
  modify (fun s => {| world := world s; log := log s;
                      printed := printed s ++ [text] |}).

(** [subprocess.run(cmd, check=False).returncode]. *)
Definition run_unchecked (cmd : list string) : M (state W) Z :=
  fun s =>
    let (c, w') := subprocess_run env cmd (world s) in
    (unchecked c, {| world := w'; log := log s; printed := printed s |}).

(** Truth value of an optional string argument. *)
Definition given (o : option string) : bool :=
  match o with
  | Some s => negb (String.eqb s "")
  | None => false
  end.

Definition one_of (s : string) (choices : list string) : bool :=
  existsb (String.eqb s) choices.

(** The command line built before the report options are added. *)
Definition pytest_command (test_path markers : option string)
    (workers : option Z) (reruns : Z) (verbose collect_only : bool)
    : list string :=
  (["pytest"]
   ++ [if given test_path then default "" test_path else "tests/"]
   ++ [if verbose then "-v" else "-s"]
   ++ (if given markers then ["-m"; default "" markers] else [])
   ++ (match workers with
       | Some n => if negb (n =? 0) && (1 <? n) then ["-n"; pretty n] else []
       | None => []
       end)
   ++ (if 0 <? reruns then ["--reruns"; pretty reruns] else [])
   ++ (if collect_only then ["--collect-only"; "-q"] else []))%list.

Definition run_tests (test_path markers : option string)
    (workers : option Z) (report_type : string) (reruns : Z)
    (verbose collect_only : bool) : M (state W) Z :=
  let cmd :=
    pytest_command test_path markers workers reruns verbose collect_only in
  cmd <-
    (if negb collect_only && one_of report_type ["allure"; "both"] then
       call (clean_allure_results env) ;;;
       ret (cmd ++ ["--alluredir"; allure_results_dir env])%list
     else ret cmd) ;;
  cmd <-
    (if negb collect_only && one_of report_type ["html"; "both"] then
       html_args <- call (generate_pytest_html_report env) ;;
       ret (cmd ++ Text.split_whitespace html_args)%list
     else ret cmd) ;;
  logger INFO "执行命令: {' '.join(cmd)}" None ;;;
  try_except
    (returncode <- run_unchecked cmd ;;
     (if negb collect_only && ((returncode =? 0) || (returncode =? 1)) then
        if one_of report_type ["allure"; "both"] then
          logger INFO "生成Allure报告..." None ;;;
          generated <- call (generate_allure_report env) ;;
          if (generated : bool) then
            logger INFO "Allure报告已生成: {report_manager.html_report_dir}"
              None
          else ret tt
        else ret tt
      else ret tt) ;;;
     ret returncode)
    (fun e => bool_decide (e = KeyboardInterrupt) || is_Exception e)
    (fun e =>
       match e with
       | KeyboardInterrupt => logger INFO "测试被用户中断" None ;;; ret 130
       | _ => logger ERROR "执行测试失败: {e}" (Some e) ;;; ret 1
       end).

(** [main()]; its result is what [sys.exit] receives. *)
Definition main (args : arguments) : M (state W) Z :=
  if clean_reports args then
    print "🧹 清理旧报告..." ;;;
    call (clean_allure_results env) ;;;
    call (cleanup_old_reports env) ;;;
    print "✅ 报告清理完成" ;;;
    ret 0
  else if serve_report args then
    print "🌐 启动Allure报告服务..." ;;;
    call (serve_allure_report env) ;;;
    ret 0
  else
    print "🚀 开始执行测试..." ;;;
    exit_code <-
      run_tests (test_path args) (markers args) (Some (workers args))
        (report args) (reruns args) (verbose args) (collect_only args) ;;
    (if collect_only args then print "📋 测试收集完成"
     else if exit_code =? 0 then print "✅ 所有测试通过"
     else if exit_code =? 1 then print "⚠️  部分测试失败"
     else print "❌ 测试执行出错") ;;;
    (if open_report args && negb (collect_only args) then
       if one_of (report args) ["allure"; "both"] then
         print "📊 打开Allure报告..." ;;;
         call (open_allure_report env) ;;;
         ret tt
       else ret tt
     else ret tt) ;;;
    ret exit_code.

End script.

End Runner.

(* ===================================================================== *)
(** ** Vocabulary of the specification *)
(* ===================================================================== *)

Module ConfigSpec.
Import Py Config.

(** What the loop body of [_merge_config] stores under [key], given what
    the slot of the base held before. *)
Definition slot (cur : option value) (v : value) : outcome value :=
  if is_dict v then
    match cur with
    | Some sub => _merge_config sub v
    | None => Ret v
    end
  else Ret v.

(** The merge as the specification words it: for each key of the
    overlay, if both the base value and the overlay value are mappings,
    merge them recursively; otherwise the overlay value replaces the base
    value. *)
Definition spec_merge_items (rec : dict -> value -> dict)
    : dict -> dict -> dict :=
  fix go (base : dict) (items : dict) {struct items} :=
    match items with
    | [] => base
    | (key, value) :: rest =>
        let merged :=
          match dict_get base key, value with
          | Some (VDict sub), VDict _ => VDict (rec sub value)
          | _, _ => value
          end in
        go (dict_set base key merged) rest
    end.

Fixpoint spec_merge (base : dict) (overlay : value) {struct overlay} : dict :=
  match overlay with
  | VDict items => spec_merge_items spec_merge base items
  | _ => base
  end.

(** Base and overlay agree in shape: wherever the overlay holds a mapping
    under a key the base has, the base holds a mapping too, and so on
    below. *)
Definition compatible_items (rec : dict -> value -> bool) (base : dict)
    : dict -> bool :=
  forallb (fun kv =>
    match snd kv, dict_get base (fst kv) with
    | VDict _, Some (VDict sub) => rec sub (snd kv)
    | VDict _, Some _ => false
    | _, _ => true
    end).

Fixpoint compatible (base : dict) (overlay : value) {struct overlay} : bool :=
  match overlay with
  | VDict items => compatible_items compatible base items
  | _ => true
  end.

(** The value found at the end of a path: every segment names a key of the
    mapping reached so far. *)
Inductive resolves : value -> list string -> value -> Prop :=
| resolves_end v : resolves v [] v
| resolves_step d key sub keys v :
    dict_get d key = Some sub ->
    resolves sub keys v ->
    resolves (VDict d) (key :: keys) v.

(** A path that cannot be followed to its end: at some point the segment
    is missing from the mapping, or the value reached is not a mapping. *)
Inductive blocked : value -> list string -> Prop :=
| blocked_missing d key keys :
    dict_get d key = None -> blocked (VDict d) (key :: keys)
| blocked_not_indexable v key keys :
    is_dict v = false -> blocked v (key :: keys)
| blocked_below d key sub keys :
    dict_get d key = Some sub ->
    blocked sub keys ->
    blocked (VDict d) (key :: keys).

(** The documents of the example scenario. *)
Definition example_base : value :=
  VDict [ ("appium", VDict [ ("host", VStr "127.0.0.1");
                             ("port", VInt 4723) ]) ].

Definition example_overlay : value :=
  VDict [ ("dev", VDict [ ("appium", VDict [ ("port", VInt 4724) ]) ]) ].

(** A base that holds a scalar where the overlay holds a mapping. *)
Definition scalar_base : value := VDict [ ("timeout", VInt 30) ].

Definition mapping_overlay : value :=
  VDict [ ("dev", VDict [ ("timeout", VDict [ ("implicit", VInt 10) ]) ]) ].

End ConfigSpec.

Module DriverSpec.
Import Py Eff Driver.

(** The states a [DriverManager] can be in: the one [__init__] builds and
    those its methods lead to, whatever the configuration and the outside
    world are at each call; between two calls the outside world moves on
    and other code writes to the log. *)
Inductive reachable {W : Type} : manager W -> Prop :=
| reach_init w : reachable (init w)
| reach_start_android env config capabilities m :
    reachable m ->
    reachable (snd (start_android_driver env config capabilities m))
| reach_start_ios env config capabilities m :
    reachable m ->
    reachable (snd (start_ios_driver env config capabilities m))
| reach_quit env m :
    reachable m -> reachable (snd (quit_driver env m))
| reach_alive env m :
    reachable m -> reachable (snd (is_driver_alive env m))
| reach_restart env config platform capabilities m :
    reachable m ->
    reachable (snd (restart_driver env config platform capabilities m))
| reach_outside m w entries :
    reachable m ->
    reachable {| world := w; driver := driver m; wait := wait m;
                 log := log m ++ entries |}.

(** What a start method leaves behind, by its result: on success the
    session and a wait object are stored; on failure the wait object is the
    one from before, the stored session is the one from before or one that
    [webdriver.Remote] has just returned, and an exception of class
    [Exception] is the last thing logged, at level ERROR. *)
Definition start_post {W} (env : appium W) (m : manager W)
    (r : outcome session) (m' : manager W) : Prop :=
  match r with
  | Ret d => driver m' = Some d /\ is_Some (wait m')
  | Raise e =>
      wait m' = wait m /\
      (driver m' = driver m \/
       exists url c w w' d,
         Remote env url c w = (Ret d, w') /\ driver m' = Some d) /\
      (is_Exception e = true ->
       exists text, last (log m') = Some (LogEntry ERROR text (Some e)))
  end.

(** A server on which every call succeeds. *)
Definition steady : appium unit :=
  {| path_exists := fun _ w => (Ret false, w);
     Remote := fun _ _ w => (Ret (Session 1), w);
     implicitly_wait := fun _ _ w => (Ret tt, w);
     new_wait := fun d t w => (Ret (WebDriverWait d t), w);
     page_source := fun _ w => (Ret "<hierarchy/>", w);
     quit := fun _ w => (Ret tt, w);
     sleep := fun _ w => (Ret tt, w) |}.

(** A server that opens the session and then fails every later request. *)
Definition failing_after_open : appium unit :=
  {| path_exists := fun _ w => (Ret false, w);
     Remote := fun _ _ w => (Ret (Session 1), w);
     implicitly_wait := fun _ _ w => (Raise WebDriverException, w);
     new_wait := fun d t w => (Ret (WebDriverWait d t), w);
     page_source := fun _ w => (Raise WebDriverException, w);
     quit := fun _ w => (Raise WebDriverException, w);
     sleep := fun _ w => (Ret tt, w) |}.

(** A server as [failing_after_open], on which the request for the page
    source is interrupted by the user. *)
Definition interrupted : appium unit :=
  {| path_exists := fun _ w => (Ret false, w);
     Remote := fun _ _ w => (Ret (Session 1), w);
     implicitly_wait := fun _ _ w => (Raise WebDriverException, w);
     new_wait := fun d t w => (Ret (WebDriverWait d t), w);
     page_source := fun _ w => (Raise KeyboardInterrupt, w);
     quit := fun _ w => (Raise WebDriverException, w);
     sleep := fun _ w => (Ret tt, w) |}.

(** A manager holding a session and its wait object. *)
Definition active : manager unit :=
  {| world := tt; driver := Some (Session 1);
     wait := Some (WebDriverWait (Session 1) (VInt 30)); log := [] |}.

End DriverSpec.

Module DeviceSpec.
Import Py Eff Subprocess Device.

(** The two failures of an external tool the discovery methods answer to:
    the command exits with a nonzero status, or its executable is
    missing. *)
Definition tool_failed (c : completion) : Prop :=
  checked c = Raise CalledProcessError \/
  checked c = Raise FileNotFoundError.

(** The record [get_ios_devices] builds for a booted simulator. *)
Definition simulator_record (udid name runtime : string) : value :=
  VDict [ ("device_id", VStr udid); ("device_name", VStr name);
          ("status", VStr "Booted"); ("platform", VStr "iOS");
          ("runtime", VStr runtime) ].

(** A machine with Xcode and one booted simulator, without
    libimobiledevice and without the Android SDK.  The text [xcrun]
    prints is kept opaque; [json_loads] is what [json.loads] makes of
    it. *)
Definition mac_without_idevice : host unit :=
  {| run := fun cmd w =>
       match cmd with
       | "xcrun" :: _ => (Exited 0 "<simctl devices>", w)
       | _ => (Failed FileNotFoundError, w)
       end;
     json_loads := fun _ =>
       Ret (VDict [ ("devices",
              VDict [ ("iOS-17-0",
                VList [ VDict [ ("state", VStr "Booted");
                                ("udid", VStr "A1B2");
                                ("name", VStr "iPhone 15") ];
                        VDict [ ("state", VStr "Shutdown");
                                ("udid", VStr "C3D4");
                                ("name", VStr "iPad") ] ]) ]) ]) |}.

(** A machine on which [adb] and [xcrun] exit with status 1. *)
Definition tools_exit_nonzero : host unit :=
  {| run := fun _ w => (Exited 1 "", w);
     json_loads := fun _ => Raise ValueError |}.

End DeviceSpec.

Module PageSpec.
Import Py Eff Page.

(** A session answering every request with the same exception. *)
Definition always_raising (e : exn) : browser unit :=
  {| until_presence := fun _ _ w => (Raise e, w);
     until_all_present := fun _ _ w => (Raise e, w);
     until_visible := fun _ _ w => (Raise e, w);
     until_clickable := fun _ _ w => (Raise e, w);
     driver_find_element := fun _ w => (Raise e, w);
     is_displayed := fun _ w => (Raise e, w);
     element_click := fun _ w => (Raise e, w);
     element_clear := fun _ w => (Raise e, w);
     element_send_keys := fun _ _ w => (Raise e, w);
     element_text := fun _ w => (Raise e, w);
     element_get_attribute := fun _ _ w => (Raise e, w);
     driver_swipe := fun _ _ _ _ _ w => (Raise e, w);
     get_window_size := fun w => (Raise e, w);
     sleep := fun w => (Ret tt, w) |}.


Definition login_button : locator := ("id", "login").

(** Nothing of class [Exception] leaves the computation. *)
Definition contained {W A} (c : M (state W) A) : Prop :=
  forall s e, fst (c s) = Raise e -> is_Exception e = false.

End PageSpec.

Module RunnerSpec.
Import Py Eff Subprocess Runner.

(** Report tools that work, and a pytest run that ends with the given
    exit status. *)
Definition pytest_exits (status : Z) : tools unit :=
  {| clean_allure_results := fun w => (Ret tt, w);
     cleanup_old_reports := fun w => (Ret tt, w);
     generate_pytest_html_report := fun w =>
       (Ret "--html=reports/html/pytest_report.html --self-contained-html",
        w);
     generate_allure_report := fun w => (Ret true, w);
     open_allure_report := fun w => (Ret true, w);
     serve_allure_report := fun w => (Ret true, w);
     allure_results_dir := "reports/allure-results";
     html_report_dir := "reports/html";
     subprocess_run := fun _ w => (Exited status "", w) |}.

(** Report tools that work, and a pytest run that raises. *)
Definition pytest_raises (e : exn) : tools unit :=
  {| clean_allure_results := fun w => (Ret tt, w);
     cleanup_old_reports := fun w => (Ret tt, w);
     generate_pytest_html_report := fun w => (Ret "--html=r.html", w);
     generate_allure_report := fun w => (Ret true, w);
     open_allure_report := fun w => (Ret true, w);
     serve_allure_report := fun w => (Ret true, w);
     allure_results_dir := "reports/allure-results";
     html_report_dir := "reports/html";
     subprocess_run := fun _ w => (Failed e, w) |}.

(** [python run_tests.py -m smoke]. *)
Definition smoke_run : arguments :=
  {| test_path := None; markers := Some "smoke"; workers := 1;
     report := "allure"; reruns := 0; verbose := false;
     collect_only := false; open_report := false; serve_report := false;
     clean_reports := false |}.

Definition start : state unit :=
  {| world := tt; log := []; printed := [] |}.

(** The codes [run_tests] returns: 1, 130, or a status a pytest process
    ended with. *)
Definition from_pytest {W} (env : tools W) (code : Z) : Prop :=
  code = 1 \/ code = 130 \/
  exists cmd w stdout w',
    subprocess_run env cmd w = (Exited code stdout, w').

(** A tool that returns whenever it is called. *)
Definition returning {W A} (f : W -> outcome A * W) : Prop :=
  forall w, exists a, fst (f w) = Ret a.

(** A pytest process that ends with the given status, whatever the
    command line. *)
Definition pytest_ends_with {W} (env : tools W) (status : Z) : Prop :=
  forall cmd w, exists stdout w',
    subprocess_run env cmd w = (Exited status stdout, w').

(** Starting pytest raises the given exception. *)
Definition pytest_fails_with {W} (env : tools W) (e : exn) : Prop :=
  forall cmd w, exists w', subprocess_run env cmd w = (Failed e, w').

End RunnerSpec.

(* ===================================================================== *)
(** ** Further vocabulary: configuration lookups *)
(* ===================================================================== *)

Module LookupSpec.
Import Py Config ConfigSpec.


(** The string holds no occurrence of the character. *)
Fixpoint free_of (sep : ascii) (s : string) : bool :=
  match s with
  | EmptyString => true
  | String c s' => negb (Ascii.eqb c sep) && free_of sep s'
  end.

(** [sep.join(parts)] for a one-character separator. *)
Fixpoint join (sep : ascii) (parts : list string) : string :=
  match parts with
  | [] => EmptyString
  | [part] => part
  | part :: rest => part +:+ String sep (join sep rest)
  end.

(** [ConfigManager.get_appium_config] and its siblings:
    [self.get(section, {})]. *)
Definition get_section (config : value) (section : string) : outcome value :=
  get config section (VDict []).

End LookupSpec.

(* ===================================================================== *)
(** ** core/device_manager.py: installing and removing applications *)
(* ===================================================================== *)

Module DeviceApps.
Import Py Eff Subprocess Device.
Local Open Scope eff_scope.

Section methods.
Context {W : Type}.
Variable env : host W.

Definition _install_android_app (device_id apk_path : string)
    : M (state W) bool :=
  try_except
    (stdout <-
       run_checked env ["adb"; "-s"; device_id; "install"; "-r"; apk_path] ;;
     if is_substring "Success" stdout then
       logger INFO "应用安装成功: {apk_path}" None ;;; ret true
     else
       logger ERROR "应用安装失败: {result.stdout}" None ;;; ret false)
    (catches_only [CalledProcessError])
    (fun e => logger ERROR "安装Android应用失败: {e}" (Some e) ;;;
              ret false).

Definition _install_ios_app (device_id ipa_path : string)
    : M (state W) bool :=
  try_except
    (run_checked env ["xcrun"; "simctl"; "install"; device_id; ipa_path] ;;;
     logger INFO "iOS应用安装成功: {ipa_path}" None ;;;
     ret true)
    (catches_only [CalledProcessError])
    (fun e => logger ERROR "安装iOS应用失败: {e}" (Some e) ;;; ret false).

Definition install_app (device_id app_path platform : string)
    : M (state W) bool :=
  if String.eqb (Driver.lower platform) "android" then
    _install_android_app device_id app_path
  else if String.eqb (Driver.lower platform) "ios" then
    _install_ios_app device_id app_path
  else
    logger ERROR "不支持的平台: {platform}" None ;;; ret false.

Definition _uninstall_android_app (device_id package_name : string)
    : M (state W) bool :=
  try_except
    (stdout <-
       run_checked env ["adb"; "-s"; device_id; "uninstall"; package_name] ;;
     if is_substring "Success" stdout then
       logger INFO "应用卸载成功: {package_name}" None ;;; ret true
     else
       logger ERROR "应用卸载失败: {result.stdout}" None ;;; ret false)
    (catches_only [CalledProcessError])
    (fun e => logger ERROR "卸载Android应用失败: {e}" (Some e) ;;;
              ret false).

Definition _uninstall_ios_app (device_id bundle_id : string)
    : M (state W) bool :=
  try_except
    (run_checked env
       ["xcrun"; "simctl"; "uninstall"; device_id; bundle_id] ;;;
     logger INFO "iOS应用卸载成功: {bundle_id}" None ;;;
     ret true)
    (catches_only [CalledProcessError])
    (fun e => logger ERROR "卸载iOS应用失败: {e}" (Some e) ;;; ret false).

Definition uninstall_app (device_id package_name platform : string)
    : M (state W) bool :=
  if String.eqb (Driver.lower platform) "android" then
    _uninstall_android_app device_id package_name
  else if String.eqb (Driver.lower platform) "ios" then
    _uninstall_ios_app device_id package_name
  else
    logger ERROR "不支持的平台: {platform}" None ;;; ret false.

End methods.




End DeviceApps.

(* ===================================================================== *)
(** ** pages/login_page.py *)
(* ===================================================================== *)

Module LoginPage.
Import Py Eff Page.
Local Open Scope eff_scope.

Definition USERNAME_INPUT : locator := ("id", "com.example.app:id/username").
Definition PASSWORD_INPUT : locator := ("id", "com.example.app:id/password").
Definition LOGIN_BUTTON : locator := ("id", "com.example.app:id/login_btn").
Definition ERROR_MESSAGE : locator :=
  ("id", "com.example.app:id/error_message").
Definition LOGIN_TITLE : locator :=
  ("xpath", "//android.widget.TextView[@text='登录']").

Section methods.
Context {W : Type}.
Variable env : browser W.
Variable config : value.

(** [wait_for_page_load(timeout=30)]. *)
Definition wait_for_page_load (timeout : value) : M (state W) bool :=
  wait_for_element_visible env config LOGIN_TITLE (Some timeout).

(** [send_keys(locator, text)]: [clear_first=True], [timeout=None]. *)
Definition input_username (username : string) : M (state W) bool :=
  send_keys env config USERNAME_INPUT username true None.

Definition input_password (password : string) : M (state W) bool :=
  send_keys env config PASSWORD_INPUT password true None.

Definition click_login_button : M (state W) bool :=
  click env config LOGIN_BUTTON None.

Definition get_error_message : M (state W) string :=
  get_text env config ERROR_MESSAGE None.

Definition is_error_displayed : M (state W) bool :=
  is_element_visible env ERROR_MESSAGE.

Definition login (username password : string) : M (state W) bool :=
  try_except
    (loaded <- wait_for_page_load (VInt 30) ;;
     if negb loaded then
       logger ERROR "登录页面加载失败" None ;;; ret false
     else
       typed <- input_username username ;;
       if negb typed then
         logger ERROR "输入用户名失败" None ;;; ret false
       else
         typed <- input_password password ;;
         if negb typed then
           logger ERROR "输入密码失败" None ;;; ret false
         else
           clicked <- click_login_button ;;
           if negb clicked then
             logger ERROR "点击登录按钮失败" None ;;; ret false
           else
             logger INFO "执行登录操作成功: {username}" None ;;; ret true)
    is_Exception
    (fun e => logger ERROR "登录操作异常: {e}" (Some e) ;;; ret false).

End methods.

End LoginPage.

Module ScrollSpec.
Import Py Eff Page.

(** A screen of the given size whose driver notes every swipe it is asked
    for; nothing else on it answers. *)
Definition screen (size : value) : browser (list (Z * Z * Z * Z * Z)) :=
  {| until_presence := fun _ _ w => (Raise TimeoutException, w);
     until_all_present := fun _ _ w => (Raise TimeoutException, w);
     until_visible := fun _ _ w => (Raise TimeoutException, w);
     until_clickable := fun _ _ w => (Raise TimeoutException, w);
     driver_find_element := fun _ w => (Raise NoSuchElementException, w);
     is_displayed := fun _ w => (Ret false, w);
     element_click := fun _ w => (Ret tt, w);
     element_clear := fun _ w => (Ret tt, w);
     element_send_keys := fun _ _ w => (Ret tt, w);
     element_text := fun _ w => (Ret "", w);
     element_get_attribute := fun _ _ w => (Ret None, w);
     driver_swipe := fun x1 y1 x2 y2 duration w =>
       (Ret tt, w ++ [(x1, y1, x2, y2, duration)])%list;
     get_window_size := fun w => (Ret size, w);
     sleep := fun w => (Ret tt, w) |}.

(** [{'width': width, 'height': height}]. *)
Definition window (width height : Z) : value :=
  VDict [ ("width", VInt width); ("height", VInt height) ].

(** The element is not there, and every other request to the session
    returns or fails with an exception of class [Exception]. *)
Definition never_present {W} (env : browser W) (loc : locator) : Prop :=
  (forall w, fst (driver_find_element env loc w)
             = Raise NoSuchElementException) /\
  (forall w, fst (sleep env w) = Ret tt) /\
  (forall w e, fst (get_window_size env w) = Raise e ->
               is_Exception e = true) /\
  (forall x1 y1 x2 y2 d w e,
     fst (driver_swipe env x1 y1 x2 y2 d w) = Raise e ->
     is_Exception e = true).

End ScrollSpec.

(* ===================================================================== *)
(** ** tests/base_test.py *)
(* ===================================================================== *)

Module Harness.
Import Py Eff Driver.
Local Open Scope eff_scope.

(** A [BaseTest] instance: the shared driver manager and the test's own
    [driver] and [wait] attributes ([None] while unset). *)
Record test_case (W : Type) : Type := TestCase {
  manager_of : manager W;
  own_driver : option session;
  own_wait : option waiter
}.
Arguments TestCase {W}. Arguments manager_of {W}.
Arguments own_driver {W}. Arguments own_wait {W}.

Section methods.
Context {W : Type}.
Variable env : appium W.
Variable config : value.

(** A method of [self.driver_manager]. *)
Definition on_manager {A} (c : M (manager W) A) : M (test_case W) A :=
  fun t =>
    let (r, m') := c (manager_of t) in
    (r, {| manager_of := m'; own_driver := own_driver t;
           own_wait := own_wait t |}).

Definition logger (l : level) (text : string) (e : option exn)
    : M (test_case W) unit :=
  on_manager (Driver.logger l text e).

Definition set_own_driver (d : option session) : M (test_case W) unit :=
  modify (fun t => {| manager_of := manager_of t; own_driver := d;
                      own_wait := own_wait t |}).

Definition set_own_wait (w : option waiter) : M (test_case W) unit :=
  modify (fun t => {| manager_of := manager_of t;
                      own_driver := own_driver t; own_wait := w |}).

Definition start_driver (platform : string) (capabilities : option caps)
    : M (test_case W) unit :=
  try_except
    ((if String.eqb (lower platform) "android" then
        d <- on_manager (start_android_driver env config capabilities) ;;
        set_own_driver (Some d)
      else if String.eqb (lower platform) "ios" then
        d <- on_manager (start_ios_driver env config capabilities) ;;
        set_own_driver (Some d)
      else raise ValueError) ;;;
     w <- on_manager get_wait ;;
     set_own_wait w ;;;
     logger INFO "{platform} 驱动启动成功" None)
    is_Exception
    (fun e => logger ERROR "启动驱动失败: {e}" (Some e) ;;; raise e).

(** [setup_method]: [start_driver()] runs with its defaults, platform
    android and no capabilities. *)
Definition setup_method : M (test_case W) unit :=
  logger INFO "开始测试方法: {method.__name__}" None ;;;
  alive <- on_manager (is_driver_alive env) ;;
  if negb alive then
    logger WARNING "驱动已断开，正在重新启动..." None ;;;
    start_driver "android" None
  else ret tt.

Definition stop_driver : M (test_case W) unit :=
  on_manager (quit_driver env) ;;;
  logger INFO "驱动已停止" None.

End methods.

Section devices.
Context {W : Type}.
Variable env : Device.host W.

(** [BaseTest.get_device_info]. *)
Definition get_device_info : M (Device.state W) (option value) :=
  try_except
    (devices <- Device.get_android_devices env ;;
     match devices with
     | first :: _ => ret (Some first)
     | [] => ret None
     end)
    is_Exception
    (fun e => Device.logger ERROR "获取设备信息失败: {e}" (Some e) ;;;
              ret None).

End devices.

End Harness.

Module RunnerMoreSpec.
Import Py Eff Subprocess Runner.

(** The same tools with another [generate_allure_report]. *)
Definition with_generate {W} (env : tools W)
    (generate : W -> outcome bool * W) : tools W :=
  {| clean_allure_results := clean_allure_results env;
     cleanup_old_reports := cleanup_old_reports env;
     generate_pytest_html_report := generate_pytest_html_report env;
     generate_allure_report := generate;
     open_allure_report := open_allure_report env;
     serve_allure_report := serve_allure_report env;
     allure_results_dir := allure_results_dir env;
     html_report_dir := html_report_dir env;
     subprocess_run := subprocess_run env |}.

End RunnerMoreSpec.


Module Helpers.
Import Py Eff.
Local Open Scope eff_scope.

(** [result.update(d)]: the items of [d] are stored one by one. *)
Definition update (result d : dict) : dict :=
  fold_left (fun acc kv => dict_set acc (fst kv) (snd kv)) d result.

(** [merge_dicts], applied to the tuple of its arguments. *)
Definition merge_dicts (dicts : list value) : value :=
  VDict (fold_left (fun result d =>
                      match d with
                      | VDict items => update result items
                      | _ => result
                      end) dicts []).

(** [safe_get_nested_value(data, key_path, default)]. *)
Definition safe_get_nested_value (data : value) (key_path : string)
    (default : value) : outcome value :=
  otry (let keys := Config.split "." key_path in Config.walk data keys)
       (fun e => match e with
                 | KeyError | TypeError | AttributeError => true
                 | _ => false
                 end)
       (fun _ => Ret default).



(** What [retry_on_exception(max_retries, delay, exceptions)(func)] runs
    in: the world [func] and [time.sleep] act on, and the module's log. *)
Record state (W : Type) : Type := State {
  world : W;
  log : list log_entry
}.
Arguments State {W}. Arguments world {W}. Arguments log {W}.

Section retry.
Context {W A : Type}.
Variable func : W -> outcome A * W.
Variable sleep : W -> outcome unit * W.        (* [time.sleep(delay)] *)
Variable exceptions : exn -> bool.             (* [except exceptions] *)

Definition call {B} (f : W -> outcome B * W) : M (state W) B :=
  fun s =>
    let (r, w') := f (world s) in (r, {| world := w'; log := log s |}).

Definition logger (l : level) (text : string) (e : option exn)
    : M (state W) unit :=
  modify (fun s => {| world := world s;
                      log := log s ++ [LogEntry l text e] |}).

(** The [for attempt in range(max_retries + 1)] loop from [attempt] on,
    with [remaining] rounds left, and the [raise last_exception] after
    it; raising [None] is a [TypeError]. *)
Fixpoint attempts (max_retries attempt : Z) (remaining : nat)
    (last_exception : option exn) : M (state W) A :=
  match remaining with
  | O =>
      match last_exception with
      | Some e => raise e
      | None => raise TypeError
      end
  | S remaining' =>
      try_except (call func) exceptions
        (fun e =>
           (if attempt <? max_retries then
              logger WARNING
                "函数 {func.__name__} 第 {attempt + 1} 次尝试失败: {e}"
                (Some e) ;;;
              call sleep
            else
              logger ERROR
                "函数 {func.__name__} 重试 {max_retries} 次后仍失败"
                None) ;;;
           attempts max_retries (attempt + 1) remaining' (Some e))
  end.

(** [wrapper], the decorated function. *)
Definition wrapper (max_retries : Z) : M (state W) A :=
  attempts max_retries 0 (Z.to_nat (max_retries + 1)) None.

End retry.

End Helpers.

Module HelpersSpec.
Import Py Eff Helpers.

(** What the last mapping among [dicts] that has [k] stores under it. *)
Definition last_binding (dicts : list value) (k : string) : option value :=
  fold_left (fun found d =>
               match d with
               | VDict items =>
                   match dict_get items k with
                   | Some v => Some v
                   | None => found
                   end
               | _ => found
               end) dicts None.

(** The log records of [n] further failed attempts that were retried. *)
Definition warnings (e : exn) (n : nat) : list log_entry :=
  repeat (LogEntry WARNING
            "函数 {func.__name__} 第 {attempt + 1} 次尝试失败: {e}"
            (Some e)) n.

Definition gave_up : log_entry :=
  LogEntry ERROR "函数 {func.__name__} 重试 {max_retries} 次后仍失败" None.

(** A function that fails on every call. *)
Definition always_fails {W A} (func : W -> outcome A * W) (e : exn) : Prop :=
  forall w, fst (func w) = Raise e.

Definition returns {W A} (f : W -> outcome A * W) : Prop :=
  forall w, exists a, fst (f w) = Ret a.

End HelpersSpec.


Module Report.
Import Py Eff Subprocess.
Local Open Scope eff_scope.

(** [os], [shutil] and [subprocess], as [report_manager.py] uses them.
    [path_exists] answers for any path and raises nothing. *)
Record os (W : Type) : Type := Os {
  path_join : string -> string -> string;
  path_exists : string -> W -> bool * W;
  rmtree : string -> W -> outcome unit * W;
  makedirs : string -> W -> outcome unit * W;
  subprocess_run : list string -> W -> completion * W;
  popen : list string -> W -> outcome unit * W
}.
Arguments path_join {W}. Arguments path_exists {W}. Arguments rmtree {W}.
Arguments makedirs {W}. Arguments subprocess_run {W}. Arguments popen {W}.

Record state (W : Type) : Type := State {
  world : W;
  log : list log_entry
}.
Arguments State {W}. Arguments world {W}. Arguments log {W}.

Section methods.
Context {W : Type}.
Variable env : os W.
Variables allure_results_dir html_report_dir : string.

Definition call {A} (f : W -> outcome A * W) : M (state W) A :=
  fun s =>
    let (r, w') := f (world s) in (r, {| world := w'; log := log s |}).

Definition query (f : W -> bool * W) : M (state W) bool :=
  fun s =>
    let (b, w') := f (world s) in (Ret b, {| world := w'; log := log s |}).

Definition logger (l : level) (text : string) (e : option exn)
    : M (state W) unit :=
  modify (fun s => {| world := world s;
                      log := log s ++ [LogEntry l text e] |}).

(** [subprocess.run(cmd, capture_output=True, check=True)]. *)
Definition run_checked (cmd : list string) : M (state W) string :=
  fun s =>
    let (c, w') := subprocess_run env cmd (world s) in
    (checked c, {| world := w'; log := log s |}).

(** [subprocess.run(cmd, capture_output=True, text=True).returncode]. *)
Definition run_unchecked (cmd : list string) : M (state W) Z :=
  fun s =>
    let (c, w') := subprocess_run env cmd (world s) in
    (unchecked c, {| world := w'; log := log s |}).

Definition clean_allure_results : M (state W) unit :=
  try_except
    (present <- query (path_exists env allure_results_dir) ;;
     if (present : bool) then
       call (rmtree env allure_results_dir) ;;;
       call (makedirs env allure_results_dir) ;;;
       logger INFO "Allure结果目录已清理" None
     else ret tt)
    is_Exception
    (fun e => logger ERROR "清理Allure结果目录失败: {e}" (Some e)).

Definition version_command : list string := ["allure"; "--version"].

Definition generate_command : list string :=
  ["allure"; "generate"; allure_results_dir; "-o"; html_report_dir;
   "--clean"].

Definition generate_allure_report (clean_first : bool) : M (state W) bool :=
  try_except
    ((if clean_first then
        present <- query (path_exists env html_report_dir) ;;
        if (present : bool) then
          call (rmtree env html_report_dir) ;;;
          call (makedirs env html_report_dir)
        else ret tt
      else ret tt) ;;;
     installed <-
       try_except
         (run_checked version_command ;;; ret true)
         (catches_only [CalledProcessError; FileNotFoundError])
         (fun _ =>
            logger ERROR "Allure未安装或未配置环境变量" None ;;; ret false) ;;
     if (installed : bool) then
       returncode <- run_unchecked generate_command ;;
       if returncode =? 0 then
         logger INFO "Allure报告生成成功: {self.html_report_dir}" None ;;;
         ret true
       else
         logger ERROR "Allure报告生成失败: {result.stderr}" None ;;;
         ret false
     else ret false)
    is_Exception
    (fun e => logger ERROR "生成Allure报告异常: {e}" (Some e) ;;; ret false).

Definition open_command : list string := ["allure"; "open"; html_report_dir].

Definition open_allure_report : M (state W) bool :=
  try_except
    (let index_file := path_join env html_report_dir "index.html" in
     present <- query (path_exists env index_file) ;;
     proceed <-
       (if negb present then
          logger WARNING "Allure报告不存在，正在生成..." None ;;;
          generate_allure_report true
        else ret true) ;;
     if (proceed : bool) then
       call (popen env open_command) ;;;
       logger INFO "Allure报告已打开" None ;;;
       ret true
     else ret false)
    is_Exception
    (fun e => logger ERROR "打开Allure报告失败: {e}" (Some e) ;;; ret false).

Definition serve_allure_report (port : Z) : M (state W) bool :=
  try_except
    (call (popen env
             ["allure"; "serve"; allure_results_dir; "-p"; pretty port]) ;;;
     logger INFO "Allure报告服务已启动，端口: {port}" None ;;;
     ret true)
    is_Exception
    (fun e =>
       logger ERROR "启动Allure报告服务失败: {e}" (Some e) ;;; ret false).

End methods.

End Report.

Module ReportSpec.
Import Py Eff Subprocess Report.

(** The same system with another [subprocess.Popen]. *)
Definition with_popen {W} (env : os W)
    (start : list string -> W -> outcome unit * W) : os W :=
  {| path_join := path_join env;
     path_exists := path_exists env;
     rmtree := rmtree env;
     makedirs := makedirs env;
     subprocess_run := subprocess_run env;
     popen := start |}.

(** No report has been generated: [index.html] does not exist. *)
Definition no_report {W} (env : os W) (html_report_dir : string) : Prop :=
  forall w,
    fst (path_exists env (path_join env html_report_dir "index.html") w)
    = false.

(** The [allure] command line tool does not work: it cannot be started,
    or [allure --version] ends with a nonzero status. *)
Definition allure_unusable {W} (env : os W) : Prop :=
  forall w,
    match fst (subprocess_run env version_command w) with
    | Exited returncode _ => returncode <> 0
    | Failed e => e = FileNotFoundError
    end.

(** A machine without files and without the [allure] tool. *)
Definition bare : os unit :=
  {| path_join := fun a b => (a ++ "/" ++ b)%string;
     path_exists := fun _ w => (false, w);
     rmtree := fun _ w => (Ret tt, w);
     makedirs := fun _ w => (Ret tt, w);
     subprocess_run := fun _ w => (Failed FileNotFoundError, w);
     popen := fun _ w => (Raise FileNotFoundError, w) |}.

End ReportSpec.

(* ===================================================================== *)
(** ** core/driver_manager.py: the requests a start method makes *)
(* ===================================================================== *)

Module DriverTrace.
Import Py Eff Driver.

(** A request to the world outside the class, and how it ended. *)
Inductive event : Type :=
| Requested (url : server_url) (c : caps) (r : outcome session)
| Called (request : string) (failure : option exn).

Definition failure_of {A} (r : outcome A) : option exn :=
  match r with
  | Ret _ => None
  | Raise e => Some e
  end.

(** The exception a request ended in, if it did. *)
Definition raised (ev : event) : option exn :=
  match ev with
  | Requested _ _ r => failure_of r
  | Called _ failure => failure
  end.

(** A request that is entered in the record when it ends. *)
Definition observe {W A} (f : W -> outcome A * W) (ev : outcome A -> event)
    : W * list event -> outcome A * (W * list event) :=
  fun wt =>
    let (r, w') := f (fst wt) in (r, (w', (snd wt ++ [ev r])%list)).

(** The same outside world, keeping a record of every request made to
    it; [webdriver.Remote] is recorded with its arguments and its
    result. *)
Definition traced {W} (env : appium W) : appium (W * list event) :=
  {| path_exists := fun p =>
       observe (path_exists env p)
         (fun r => Called "os.path.exists" (failure_of r));
     Remote := fun url c => observe (Remote env url c) (Requested url c);
     implicitly_wait := fun d t =>
       observe (implicitly_wait env d t)
         (fun r => Called "implicitly_wait" (failure_of r));
     new_wait := fun d t =>
       observe (new_wait env d t)
         (fun r => Called "WebDriverWait" (failure_of r));
     page_source := fun d =>
       observe (page_source env d)
         (fun r => Called "page_source" (failure_of r));
     quit := fun d =>
       observe (quit env d) (fun r => Called "quit" (failure_of r));
     sleep := fun n =>
       observe (sleep env n) (fun r => Called "time.sleep" (failure_of r))
  |}.

(** A manager before a call, with an empty record. *)
Definition fresh {W} (m : manager W) : manager (W * list event) :=
  {| world := (world m, []); driver := driver m; wait := wait m;
     log := log m |}.

(** A manager without the record. *)
Definition erase {W} (m : manager (W * list event)) : manager W :=
  {| world := fst (world m); driver := driver m; wait := wait m;
     log := log m |}.

(** [c'], run with the record, does what [c] does without it. *)
Definition records {W A} (c' : M (manager (W * list event)) A)
    (c : M (manager W) A) : Prop :=
  forall m, fst (c' m) = fst (c (erase m)) /\
            erase (snd (c' m)) = snd (c (erase m)).

(** The record a call leaves. *)
Definition record {W A} (run : outcome A * manager (W * list event))
    : list event :=
  snd (world (snd run)).

(** The capability sets [webdriver.Remote] was called with. *)
Fixpoint requested (t : list event) : list caps :=
  match t with
  | [] => []
  | Requested _ c _ :: t' => c :: requested t'
  | Called _ _ :: t' => requested t'
  end.

(** The session the last successful call of [webdriver.Remote]
    returned. *)
Fixpoint opened (t : list event) : option session :=
  match t with
  | [] => None
  | Requested _ _ (Ret d) :: t' =>
      match opened t' with
      | Some d' => Some d'
      | None => Some d
      end
  | _ :: t' => opened t'
  end.

(** No request of the record ended in an exception. *)
Definition calm (t : list event) : Prop :=
  Forall (fun ev => raised ev = None) t.

(** A record as a computation with result [r] extends it: every request
    returned, except that the last one raised [e] when the computation
    ends in [e] for that reason. *)
Definition step_ok {A} (r : outcome A) (evs : list event) : Prop :=
  match r with
  | Ret _ => calm evs
  | Raise e =>
      calm evs \/
      exists evs0 ev,
        evs = (evs0 ++ [ev])%list /\ calm evs0 /\ raised ev = Some e
  end.

(** The server is known: host and port can be read from the Appium
    section. *)
Definition server_known (appium_config : value) : bool :=
  match get_method appium_config "host" (VStr "127.0.0.1"),
        get_method appium_config "port" (VInt 4723) with
  | Ret _, Ret _ => true
  | _, _ => false
  end.

(** What one part of a start method adds to the record and leaves of
    the manager: the requests [evs] it made, the capability sets [asked]
    of [webdriver.Remote] among them, the stored session, and the wait
    object when it fails. *)
Definition part_post {W A} (m : manager (W * list event)) (r : outcome A)
    (m' : manager (W * list event)) (asked : list caps) : Prop :=
  exists evs,
    snd (world m') = (snd (world m) ++ evs)%list /\
    step_ok r evs /\
    requested evs = asked /\
    driver m'
    = match opened evs with
      | Some d => Some d
      | None => driver m
      end /\
    (forall e, r = Raise e -> wait m' = wait m).

(** The capability sets a start method asks a session for: the set it
    assembled, once, when the sections can be read and the server is
    known; none otherwise. *)
Definition android_asked {W} (env : appium W) (config : value)
    (capabilities : option caps) (m : manager (W * list event))
    : list caps :=
  match get_appium_config config, get_android_config config,
        get_test_config config with
  | Ret appium_config, Ret android_config, Ret _ =>
      match fst (android_capabilities (traced env) appium_config
                   android_config capabilities m) with
      | Ret c => if server_known appium_config then [c] else []
      | Raise _ => []
      end
  | _, _, _ => []
  end.

Definition ios_asked {W} (env : appium W) (config : value)
    (capabilities : option caps) (m : manager (W * list event))
    : list caps :=
  match get_appium_config config, get_ios_config config,
        get_test_config config with
  | Ret appium_config, Ret ios_config, Ret _ =>
      match fst (ios_capabilities (traced env) appium_config ios_config
                   capabilities m) with
      | Ret c => if server_known appium_config then [c] else []
      | Raise _ => []
      end
  | _, _, _ => []
  end.

(** What a start method leaves, seen from the record; [asked] are the
    capability sets it asked a session for. *)
Definition start_post_traced {W} (m : manager (W * list event))
    (asked : list caps) (r : outcome session)
    (m' : manager (W * list event)) : Prop :=
  part_post m r m' asked /\
  (forall e, r = Raise e -> is_Exception e = true ->
     exists text, last (log m') = Some (LogEntry ERROR text (Some e))) /\
  (forall d, r = Ret d -> driver m' = Some d /\ exists c, asked = [c]).

(** Override precedence, key by key: [assembled] carries the override
    value under every key of [overrides] and the value of [defaults]
    under every other key. *)
Definition overrides_win (overrides defaults assembled : caps) : Prop :=
  (forall k v, overrides !! k = Some v -> assembled !! k = Some v) /\
  (forall k, overrides !! k = None -> assembled !! k = defaults !! k).

(** What a start method does about failure.  [m] is the manager before
    the call, [run] the result of the call and the manager after it. *)
Definition failure_policy {W} (m : manager W)
    (run : outcome session * manager (W * list event)) : Prop :=
  (forall ev e,
     ev ∈ record run -> raised ev = Some e -> fst run = Raise e) /\
  (forall e,
     fst run = Raise e ->
     wait (snd run) = wait m /\
     (is_Exception e = true ->
      exists text,
        last (log (snd run)) = Some (LogEntry ERROR text (Some e)))) /\
  driver (snd run)
  = match opened (record run) with
    | Some d => Some d
    | None => driver m
    end.

End DriverTrace.

(* ===================================================================== *)
(** ** run_tests.py: the script and its exit status *)
(* ===================================================================== *)

Module Script.
Import Py Eff Subprocess Runner.

(** How [parser.parse_args()] ends: with the namespace, or in
    [SystemExit]: with code 0 after printing the help text for [-h], with
    code 2 after rejecting the command line. *)
Inductive parse : Type :=
| Namespace (args : arguments)
| Help
| Rejected.

(** How the script ends: [SystemExit(code)] reaches the interpreter,
    raised by [argparse] or by [sys.exit(main())], or another exception
    does. *)
Inductive ending : Type :=
| SysExit (code : Z)
| Unhandled (e : exn).

Section script.
Context {W : Type}.
Variable env : tools W.

(** [sys.exit(main())], with [main] from its first line on. *)
Definition entry_point (command_line : parse)
    : state W -> ending * state W :=
  fun s =>
    match command_line with
    | Help => (SysExit 0, s)
    | Rejected => (SysExit 2, s)
    | Namespace args =>
        match main env args s with
        | (Ret exit_code, s') => (SysExit exit_code, s')
        | (Raise e, s') => (Unhandled e, s')
        end
    end.

End script.

(** The exit status the parent process sees for [SystemExit(code)] on a
    POSIX system: the low eight bits of the code. *)
Definition exit_status (code : Z) : Z := code mod 256.

(** The Allure report cannot be generated: the call ends in [e]. *)
Definition generation_fails {W} (env : tools W) (e : exn) : Prop :=
  forall w, exists w', generate_allure_report env w = (Raise e, w').

(** Report tools that work except for the generation of the Allure
    report, which ends in [e]; pytest ends with the given status. *)
Definition generation_raises (status : Z) (e : exn) : tools unit :=
  {| clean_allure_results := fun w => (Ret tt, w);
     cleanup_old_reports := fun w => (Ret tt, w);
     generate_pytest_html_report := fun w => (Ret "--html=r.html", w);
     generate_allure_report := fun w => (Raise e, w);
     open_allure_report := fun w => (Ret true, w);
     serve_allure_report := fun w => (Ret true, w);
     allure_results_dir := "reports/allure-results";
     html_report_dir := "reports/html";
     subprocess_run := fun _ w => (Exited status "", w) |}.

(** [python run_tests.py --clean-reports] and [--serve-report]. *)
Definition clean_run : arguments :=
  {| test_path := None; markers := None; workers := 1;
     report := "allure"; reruns := 0; verbose := false;
     collect_only := false; open_report := false; serve_report := false;
     clean_reports := true |}.

Definition serve_run : arguments :=
  {| test_path := None; markers := None; workers := 1;
     report := "allure"; reruns := 0; verbose := false;
     collect_only := false; open_report := false; serve_report := true;
     clean_reports := false |}.

End Script.

(* ===================================================================== *)
(** ** config/config_manager.py: the merge on shared mappings *)
(* ===================================================================== *)

Module Heap.
Import Py.

(** A mapping is an object with an identity: the place it is stored at.
    Two keys that hold the same place hold the same mapping, as two
    aliases of one YAML anchor do. *)
Abbreviation loc := nat.

(** A Python object as [_merge_config] meets it.  Mappings are known by
    their place; the other objects are never written to by the merge, so
    they stand for themselves. *)
Inductive obj : Type :=
| ONone
| OBool (b : bool)
| OInt (n : Z)
| OStr (s : string)
| OList (elements : list obj)
| ODict (l : loc).
Arguments ODict l%_nat.

(** The items of a [dict], in insertion order. *)
Abbreviation items := (list (string * obj)).

(** The store: the items of every mapping. *)
Abbreviation heap := (gmap loc items).

Definition is_dict (o : obj) : bool :=
  match o with ODict _ => true | _ => false end.

Fixpoint get (d : items) (k : string) : option obj :=
  match d with
  | [] => None
  | (k', v) :: d' => if String.eqb k' k then Some v else get d' k
  end.

(** [d[k] = v]: an existing key keeps its position, a new key goes last. *)
Fixpoint set (d : items) (k : string) (v : obj) : items :=
  match d with
  | [] => [(k, v)]
  | (k', v') :: d' =>
      if String.eqb k' k then (k', v) :: d' else (k', v') :: set d' k v
  end.

(** [k in o] for a string [k]; [None] when [o] names no mapping of the
    store. *)
Definition contains (h : heap) (o : obj) (k : string)
    : option (outcome bool) :=
  match o with
  | ODict l =>
      match h !! l with
      | Some d => Some (Ret (bool_decide (is_Some (get d k))))
      | None => None
      end
  | OStr s => Some (Ret (is_substring k s))
  | OList elements =>
      Some (Ret (existsb (fun x => match x with
                                   | OStr s => String.eqb s k
                                   | _ => false
                                   end) elements))
  | ONone | OBool _ | OInt _ => Some (Raise TypeError)
  end.

(** [o[k]] for a string [k]. *)
Definition getitem (h : heap) (o : obj) (k : string)
    : option (outcome obj) :=
  match o with
  | ODict l =>
      match h !! l with
      | Some d =>
          match get d k with
          | Some v => Some (Ret v)
          | None => Some (Raise KeyError)
          end
      | None => None
      end
  | _ => Some (Raise TypeError)
  end.

(** [o[k] = v] for a string [k]: the mapping at the place of [o] is
    changed, for everyone who holds that place. *)
Definition setitem (h : heap) (o : obj) (k : string) (v : obj)
    : option (outcome unit * heap) :=
  match o with
  | ODict l =>
      match h !! l with
      | Some d => Some (Ret tt, <[l := set d k v]> h)
      | None => None
      end
  | _ => Some (Raise TypeError, h)
  end.

Section loop.
(** The recursive call [self._merge_config(base_config[key], value)]. *)
Variable rec : obj -> obj -> heap -> option (outcome unit * heap).

(** The body of the loop, for one item of [env_config]. *)
Definition body (base_config : obj) (key : string) (value : obj)
    (h : heap) : option (outcome unit * heap) :=
  if is_dict value then
    match contains h base_config key with
    | Some (Ret true) =>
        match getitem h base_config key with
        | Some (Ret sub) => rec sub value h
        | Some (Raise e) => Some (Raise e, h)
        | None => None
        end
    | Some (Ret false) => setitem h base_config key value
    | Some (Raise e) => Some (Raise e, h)
    | None => None
    end
  else setitem h base_config key value.

(** [for key, value in env_config.items()]: the view is live.  Before
    each item, and before it stops, the iterator compares the size of
    the mapping with the size [n] it had at the start and raises
    [RuntimeError] when it differs; the item is then read at position
    [i] of the mapping as it is now. *)
Fixpoint loop (base_config : obj) (env : loc) (n i todo : nat)
    (h : heap) : option (outcome unit * heap) :=
  match h !! env with
  | None => None
  | Some d =>
      if negb (length d =? n)%nat then Some (Raise RuntimeError, h)
      else
        match todo with
        | O => Some (Ret tt, h)
        | S todo' =>
            match d !! i with
            | Some (key, value) =>
                match body base_config key value h with
                | Some (Ret _, h') =>
                    loop base_config env n (S i) todo' h'
                | stopped => stopped
                end
            | None => None
            end
        end
  end.
End loop.

(** [_merge_config(base_config, env_config)] on the store.  The result
    is how the call ends and the store it leaves, also when it raises.
    [depth] bounds the nesting of the recursive calls; [None] says that
    the bound was reached or that a place named no mapping. *)
Fixpoint _merge_config (depth : nat) (base_config env_config : obj)
    (h : heap) : option (outcome unit * heap) :=
  match depth with
  | O => None
  | S depth' =>
      match env_config with
      | ODict env =>
          match h !! env with
          | Some d =>
              loop (_merge_config depth') base_config env (length d) 0
                (length d) h
          | None => None
          end
      | _ => Some (Raise AttributeError, h)
      end
  end.

(** [o] is the root of a tree of mappings that occupies the places [F]
    in the store: each place is listed once for each way it is reached
    through values of mappings. *)
Inductive tree (h : heap) : obj -> list loc -> Prop :=
| tree_leaf o : is_dict o = false -> tree h o []
| tree_node l d F :
    h !! l = Some d ->
    NoDup (map fst d) ->
    forest h d F ->
    tree h (ODict l) (l :: F)
with forest (h : heap) : items -> list loc -> Prop :=
| forest_nil : forest h [] []
| forest_cons k v rest Fv Frest :
    tree h v Fv ->
    forest h rest Frest ->
    forest h ((k, v) :: rest) (Fv ++ Frest).

(** No mapping is stored in two places: the mappings reached from
    [base_config] and from [env_config] are all different objects. *)
Definition separate (h : heap) (base_config env_config : obj) : Prop :=
  exists Fb Fe,
    tree h base_config Fb /\ tree h env_config Fe /\ NoDup (Fb ++ Fe).

(** A merge that changes nothing: on the store [h], merging [env_config]
    into [base_config] ends in [r] and every store it makes writes back
    what is there already.  Only places of [F] are looked at. *)
Inductive stable (F : list loc) (h : heap)
    : obj -> obj -> outcome unit -> Prop :=
| stable_not_mapping base env :
    is_dict env = false -> stable F h base env (Raise AttributeError)
| stable_mapping base env d r :
    env ∈ F -> h !! env = Some d ->
    stable_items F h base d r ->
    stable F h base (ODict env) r
with stable_items (F : list loc) (h : heap)
    : obj -> items -> outcome unit -> Prop :=
| stable_done base : stable_items F h base [] (Ret tt)
| stable_not_indexable base key value rest :
    is_dict base = false ->
    stable_items F h base ((key, value) :: rest) (Raise TypeError)
| stable_store l d key value rest r :
    is_dict value = false ->
    l ∈ F -> h !! l = Some d -> get d key = Some value ->
    stable_items F h (ODict l) rest r ->
    stable_items F h (ODict l) ((key, value) :: rest) r
| stable_descend l d key value sub rest r :
    is_dict value = true ->
    l ∈ F -> h !! l = Some d -> get d key = Some sub ->
    stable F h sub value (Ret tt) ->
    stable_items F h (ODict l) rest r ->
    stable_items F h (ODict l) ((key, value) :: rest) r
| stable_fail l d key value sub rest e :
    is_dict value = true ->
    l ∈ F -> h !! l = Some d -> get d key = Some sub ->
    stable F h sub value (Raise e) ->
    stable_items F h (ODict l) ((key, value) :: rest) (Raise e).

Scheme tree_forest_ind := Induction for tree Sort Prop
  with forest_tree_ind := Induction for forest Sort Prop.

Scheme stable_items_ind' := Induction for stable Sort Prop
  with stable_stable_ind := Induction for stable_items Sort Prop.

(** The places of [F] hold in [h'] what they hold in [h]. *)
Definition unchanged (F : list loc) (h h' : heap) : Prop :=
  forall l, l ∈ F -> h' !! l = h !! l.

(** The items of a mapping without the item under [k]. *)
Fixpoint without (k : string) (d : items) : items :=
  match d with
  | [] => []
  | (k', v) :: d' =>
      if String.eqb k' k then without k d' else (k', v) :: without k d'
  end.

(** The YAML document [p: &P {} / q: *P]: one empty mapping, stored
    under both keys of the root. *)
Definition aliased : heap :=
  {[ 0%nat := [("p", ODict 1); ("q", ODict 1)];
     1%nat := [];
     (* the overlay {p: {k: {m: 1}}, q: {k: 5}} *)
     2%nat := [("p", ODict 3); ("q", ODict 5)];
     3%nat := [("k", ODict 4)];
     4%nat := [("m", OInt 1)];
     5%nat := [("k", OInt 5)] ]}.

(** The same documents with two empty mappings, one under each key. *)
Definition unaliased : heap :=
  {[ 0%nat := [("p", ODict 1); ("q", ODict 6)];
     1%nat := [];
     2%nat := [("p", ODict 3); ("q", ODict 5)];
     3%nat := [("k", ODict 4)];
     4%nat := [("m", OInt 1)];
     5%nat := [("k", OInt 5)];
     6%nat := [] ]}.

End Heap.

(* ===================================================================== *)
(** * Properties *)
(* ===================================================================== *)

Module ConfigProps.
Import Py Config ConfigSpec.

(** *** Dictionary facts *)

Lemma dict_get_set_eq d k v : dict_get (dict_set d k v) k = Some v.
Proof.
  induction d as [|[k' v'] d IH]; simpl.
  - by rewrite String.eqb_refl.
  - destruct (String.eqb k' k) eqn:E; simpl; rewrite E; auto.
Qed.

Lemma dict_get_set_ne d k k' v :
  k <> k' -> dict_get (dict_set d k v) k' = dict_get d k'.
Proof.
  intros Hne. induction d as [|[k0 v0] d IH]; simpl.
  - destruct (String.eqb k k') eqn:E; [|done].
    apply String.eqb_eq in E. contradiction.
  - destruct (String.eqb k0 k) eqn:E; simpl.
    + apply String.eqb_eq in E. subst k0.
      destruct (String.eqb k k') eqn:E'; [|done].
      apply String.eqb_eq in E'. contradiction.
    + by rewrite IH.
Qed.

Lemma dict_set_same d k v : dict_get d k = Some v -> dict_set d k v = d.
Proof.
  induction d as [|[k' v'] d IH]; simpl; [done|].
  destruct (String.eqb k' k) eqn:E.
  - by intros [= ->].
  - intros H. by rewrite IH.
Qed.

Lemma dict_get_notin d k : k ∉ keys d -> dict_get d k = None.
Proof.
  induction d as [|[k' v'] d IH]; simpl; [done|].
  intros Hn. apply not_elem_of_cons in Hn as [Hne Hn].
  destruct (String.eqb k' k) eqn:E.
  - apply String.eqb_eq in E. congruence.
  - by apply IH.
Qed.

Lemma dict_get_in d k v :
  NoDup (keys d) -> (k, v) ∈ d -> dict_get d k = Some v.
Proof.
  induction d as [|[k' v'] d IH]; simpl; intros Hnd Hin.
  - by apply elem_of_nil in Hin.
  - apply NoDup_cons in Hnd as [Hk Hnd].
    apply elem_of_cons in Hin as [[= <- <-]|Hin].
    + by rewrite String.eqb_refl.
    + destruct (String.eqb k' k) eqn:E; [|by apply IH].
      apply String.eqb_eq in E. subst k'.
      exfalso. apply Hk. apply list_elem_of_fmap. by exists (k, v).
Qed.

Lemma nodupb_NoDup l : nodupb l = true <-> NoDup l.
Proof.
  induction l as [|k l IH]; simpl.
  - split; [constructor|done].
  - rewrite andb_true_iff, negb_true_iff, IH, NoDup_cons.
    apply and_iff_compat_r.
    rewrite <- not_true_iff_false, existsb_exists.
    split.
    + intros Hn Hin. apply Hn. exists k. split.
      * by apply list_elem_of_In.
      * apply String.eqb_refl.
    + intros Hn (x & Hin & Heq). apply String.eqb_eq in Heq. subst x.
      by apply Hn, list_elem_of_In.
Qed.

Lemma wf_dict d :
  wf (VDict d) = true ->
  NoDup (keys d) /\ Forall (fun kv => wf (snd kv) = true) d.
Proof.
  simpl. rewrite andb_true_iff, nodupb_NoDup, forallb_forall.
  intros [Hnd Hall]. split; [done|].
  apply Forall_forall. intros x Hx. by apply Hall, list_elem_of_In.
Qed.


(** *** One item of the overlay, seen from the slot it writes *)

Lemma merge_items_nil base : merge_items _merge_config base [] = Ret base.
Proof. done. Qed.

Lemma merge_items_cons d k v rest :
  merge_items _merge_config (VDict d) ((k, v) :: rest) =
  x ← slot (dict_get d k) v;
  merge_items _merge_config (VDict (dict_set d k x)) rest.
Proof.
  unfold slot. simpl. destruct (is_dict v); [|done].
  unfold dict_mem. destruct (dict_get d k) as [sub|]; simpl; [|done].
  by destruct (_merge_config sub v).
Qed.

Lemma merge_items_not_dict base kv rest :
  is_dict base = false ->
  merge_items _merge_config base (kv :: rest) = Raise TypeError.
Proof.
  destruct kv as [k v]. intros Hb. simpl.
  destruct base as [| | | s | l |]; try discriminate;
    destruct (is_dict v); simpl; try done.
  - by destruct (is_substring k s).
  - by destruct (existsb _ l).
Qed.

(** A successful pass writes exactly the slots the overlay names. *)
Lemma merge_items_trace items : forall d b',
  NoDup (keys items) ->
  merge_items _merge_config (VDict d) items = Ret b' ->
  exists d', b' = VDict d' /\
    (forall k, k ∉ keys items -> dict_get d' k = dict_get d k) /\
    (forall k v, (k, v) ∈ items ->
       exists x, slot (dict_get d k) v = Ret x /\ dict_get d' k = Some x).
Proof.
  induction items as [|[k v] rest IH]; intros d b' Hnd Hm.
  - injection Hm as <-. exists d. split_and!; [done|done|].
    intros k v Hin. by apply elem_of_nil in Hin.
  - rewrite merge_items_cons in Hm.
    destruct (slot (dict_get d k) v) as [x|e] eqn:Hs; [|done].
    simpl in Hm. simpl in Hnd. apply NoDup_cons in Hnd as [Hk Hnd].
    destruct (IH _ _ Hnd Hm) as (d' & -> & Hout & Hin).
    exists d'. split_and!; [done| |].
    + intros k' Hk'. simpl in Hk'.
      apply not_elem_of_cons in Hk' as [Hne Hk'].
      rewrite (Hout _ Hk'). by apply dict_get_set_ne.
    + intros k' v' Hin'. apply elem_of_cons in Hin' as [[= -> ->]|Hin'].
      * exists x. split; [done|].
        rewrite (Hout _ Hk). apply dict_get_set_eq.
      * destruct (Hin _ _ Hin') as (x' & Hs' & Hg').
        exists x'. split; [|done].
        rewrite dict_get_set_ne in Hs'; [done|].
        intros ->. apply Hk. apply list_elem_of_fmap. by exists (k', v').
Qed.

(** A pass whose every item finds its own result already stored changes
    nothing. *)
Lemma merge_items_fixed items : forall d,
  (forall k v, (k, v) ∈ items ->
     exists x, slot (dict_get d k) v = Ret x /\ dict_get d k = Some x) ->
  merge_items _merge_config (VDict d) items = Ret (VDict d).
Proof.
  induction items as [|[k v] rest IH]; intros d H; [done|].
  rewrite merge_items_cons.
  destruct (H k v) as (x & Hs & Hg); [by left|].
  rewrite Hs. simpl. rewrite (dict_set_same _ _ _ Hg).
  apply IH. intros k' v' Hin. apply H. by right.
Qed.

(** Merging a well-formed mapping into itself leaves it as it is; this is
    the case the second pass meets wherever the first pass stored an
    overlay mapping under a fresh key. *)
Lemma merge_self v :
  wf v = true -> is_dict v = true -> _merge_config v v = Ret v.
Proof.
  induction v as [| | | | |d IH] using value_ind'; try done.
  intros Hwf _. apply wf_dict in Hwf as [Hnd Hall]. simpl.
  apply merge_items_fixed. intros k v Hin.
  exists v. split; [|by apply dict_get_in].
  rewrite (dict_get_in _ _ _ Hnd Hin). unfold slot.
  destruct (is_dict v) eqn:Hd; [|done].
  rewrite Forall_forall in IH, Hall.
  apply (IH (k, v)); [done| by apply (Hall (k, v)) | done].
Qed.

Lemma merge_twice v :
  wf v = true ->
  forall b b', _merge_config b v = Ret b' -> _merge_config b' v = Ret b'.
Proof.
  induction v as [| | | | |items IH] using value_ind'; try done.
  intros Hwf b b' Hm. pose proof Hwf as Hwf'.
  apply wf_dict in Hwf as [Hnd Hall]. simpl in *.
  destruct items as [|kv rest]; [by injection Hm as <-|].
  destruct (is_dict b) eqn:Hb;
    [|by rewrite merge_items_not_dict in Hm].
  destruct b as [| | | | |d]; try discriminate.
  destruct (merge_items_trace _ _ _ Hnd Hm) as (d' & -> & _ & Hin).
  apply merge_items_fixed. intros k v Hkv.
  destruct (Hin _ _ Hkv) as (x & Hs & Hg).
  exists x. split; [|done]. rewrite Hg.
  rewrite Forall_forall in IH, Hall.
  unfold slot in *. destruct (is_dict v) eqn:Hd.
  - destruct (dict_get d k) as [sub|].
    + apply (IH (k, v) Hkv (Hall (k, v) Hkv) _ _ Hs).
    + injection Hs as <-. apply merge_self; [apply (Hall (k, v) Hkv)|done].
  - done.
Qed.


(** *** What a successful merge leaves in the base *)

(** After a merge that returns, a key the overlay does not name holds what
    it held, and a key the overlay names holds what [slot] computes: the
    overlay value itself unless it is a mapping laid over a value already
    present, in which case it holds the recursive merge of the two. *)
Lemma merge_config_effect d items merged :
  wf (VDict items) = true ->
  _merge_config (VDict d) (VDict items) = Ret merged ->
  exists d', merged = VDict d' /\
    (forall k, k ∉ keys items -> dict_get d' k = dict_get d k) /\
    (forall k v, (k, v) ∈ items ->
       exists x, slot (dict_get d k) v = Ret x /\ dict_get d' k = Some x).
Proof.
  intros Hwf Hm. apply wf_dict in Hwf as [Hnd _].
  by apply merge_items_trace.
Qed.

(** *** The code against the merge of the specification *)

Lemma compatible_items_set d k x items :
  k ∉ keys items ->
  compatible_items compatible (dict_set d k x) items
  = compatible_items compatible d items.
Proof.
  intros Hk. unfold compatible_items.
  induction items as [|[k' v'] rest IH]; [done|]. simpl.
  simpl in Hk. apply not_elem_of_cons in Hk as [Hne Hk].
  rewrite (IH Hk). by rewrite dict_get_set_ne.
Qed.

(** Where base and overlay agree in shape, [_merge_config] returns, and
    returns the merge the specification describes. *)
Lemma merge_refines_spec overlay :
  wf overlay = true ->
  is_dict overlay = true ->
  forall d,
    compatible d overlay = true ->
    _merge_config (VDict d) overlay = Ret (VDict (spec_merge d overlay)).
Proof.
  induction overlay as [| | | | |items IH] using value_ind'; try done.
  intros Hwf _. apply wf_dict in Hwf as [Hnd Hall]. simpl.
  induction items as [|[k v] rest IHrest]; intros d Hc; [done|].
  simpl in Hnd. apply NoDup_cons in Hnd as [Hk Hnd].
  apply Forall_cons in Hall as [Hv Hall].
  apply Forall_cons in IH as [IHv IH].
  simpl in Hc. apply andb_true_iff in Hc as [Hcv Hc].
  rewrite merge_items_cons. simpl in *.
  assert (slot (dict_get d k) v =
          Ret match dict_get d k, v with
              | Some (VDict sub), VDict _ => VDict (spec_merge sub v)
              | _, _ => v
              end) as ->.
  { unfold slot. destruct v as [| | | | |its]; simpl;
      try by destruct (dict_get d k) as [[]|].
    destruct (dict_get d k) as [[| | | | |sub]|]; try done.
    by apply IHv. }
  simpl. apply IHrest; try done.
  by rewrite compatible_items_set.
Qed.

(** The example scenario of the specification. *)
Example merge_example_scenario :
  exists config,
    _load_config "dev" (Ret example_base) (Some (Ret example_overlay))
      = Ret config /\
    get config "appium.port" VNone = Ret (VInt 4724) /\
    get config "appium.host" VNone = Ret (VStr "127.0.0.1").
Proof. eexists. split_and!; reflexivity. Qed.

(** C1, at the input where the code departs from it: the base holds the
    scalar 30 under "timeout" and the overlay of the active environment
    holds the mapping {implicit: 10} under the same key.  The two values
    are not both mappings, so the claim has the overlay value replace the
    scalar.  [_merge_config] recurses into the scalar instead and raises
    [TypeError] at the item assignment, and [_load_config] answers the
    exception with an empty configuration.  An empty overlay mapping over
    a scalar leaves the scalar in place. *)
Theorem merge_mapping_over_scalar :
  spec_merge [ ("timeout", VInt 30) ]
    (VDict [ ("timeout", VDict [ ("implicit", VInt 10) ]) ])
    = [ ("timeout", VDict [ ("implicit", VInt 10) ]) ] /\
  _merge_config scalar_base
    (VDict [ ("timeout", VDict [ ("implicit", VInt 10) ]) ])
    = Raise TypeError /\
  _load_config "dev" (Ret scalar_base) (Some (Ret mapping_overlay))
    = Ret (VDict []) /\
  spec_merge [ ("timeout", VInt 30) ] (VDict [ ("timeout", VDict []) ])
    = [ ("timeout", VDict []) ] /\
  _merge_config scalar_base (VDict [ ("timeout", VDict []) ])
    = Ret scalar_base.
Proof. split_and!; reflexivity. Qed.

(** *** Dotted lookups *)

Lemma walk_resolves keys : forall config v,
  walk config keys = Ret v <-> resolves config keys v.
Proof.
  induction keys as [|key keys IH]; intros config v; simpl.
  - split.
    + intros [= ->]. constructor.
    + intros H. by inversion H.
  - split.
    + destruct config as [| | | | |d]; simpl; try done.
      destruct (dict_get d key) as [sub|] eqn:Hg; simpl; [|done].
      intros Hw. econstructor; [done|]. by apply IH.
    + intros H. inversion H as [|d k sub ks v' Hg Hr]; subst. simpl.
      rewrite Hg. simpl. by apply IH.
Qed.

Lemma walk_blocked keys : forall config,
  (walk config keys = Raise KeyError \/ walk config keys = Raise TypeError)
  <-> blocked config keys.
Proof.
  induction keys as [|key keys IH]; intros config; simpl.
  - split; [by intros [|]|]. intros H. inversion H.
  - split.
    + destruct config as [| | | | |d]; simpl;
        try (intros _; by apply blocked_not_indexable).
      destruct (dict_get d key) as [sub|] eqn:Hg; simpl.
      * intros Hw. eapply blocked_below; [done|]. by apply IH.
      * intros _. by apply blocked_missing.
    + intros H. inversion H as [d k ks Hg|v k ks Hd|d k sub ks Hg Hb]; subst.
      * simpl. rewrite Hg. by left.
      * destruct config; try discriminate; by right.
      * simpl. rewrite Hg. simpl. by apply IH.
Qed.

Lemma walk_total keys : forall config,
  (exists v, walk config keys = Ret v) \/
  walk config keys = Raise KeyError \/ walk config keys = Raise TypeError.
Proof.
  induction keys as [|key keys IH]; intros config; simpl; [by eauto|].
  destruct config as [| | | | |d]; simpl; auto.
  destruct (dict_get d key); simpl; auto.
Qed.

(** C3: [get] follows the path one segment at a time.  When every segment
    is found it returns the value at the end of the path; when a segment
    is missing, or the value reached is not a mapping, it returns the
    default; one of the two always applies, so no exception leaves [get].
    In particular [get("missing.path", default="X")] is "X" on a
    configuration that does not hold that path. *)
Theorem get_contract (config : value) (key_path : string) (default : value) :
  (forall v, resolves config (split "." key_path) v ->
             get config key_path default = Ret v) /\
  (blocked config (split "." key_path) ->
   get config key_path default = Ret default) /\
  ((exists v, resolves config (split "." key_path) v) \/
   blocked config (split "." key_path)) /\
  ((forall v, ~ resolves config ["missing"; "path"] v) ->
   get config "missing.path" (VStr "X") = Ret (VStr "X")).
Proof.
  unfold get. split_and!.
  - intros v Hr. apply walk_resolves in Hr. by rewrite Hr.
  - intros Hb. apply walk_blocked in Hb as [-> | ->]; done.
  - destruct (walk_total (split "." key_path) config) as [[v Hv]|Hb].
    + left. exists v. by apply walk_resolves.
    + right. by apply walk_blocked.
  - intros Hno. change (split "." "missing.path") with ["missing"; "path"].
    destruct (walk_total ["missing"; "path"] config) as [[v Hv]|[Hb|Hb]].
    + apply walk_resolves in Hv. by destruct (Hno v).
    + by rewrite Hb.
    + by rewrite Hb.
Qed.

Lemma get_contract_witness :
  get example_base "appium.port" VNone = Ret (VInt 4723) /\
  get example_base "appium.host.name" (VStr "X") = Ret (VStr "X") /\
  get example_base "missing.path" (VStr "X") = Ret (VStr "X").
Proof.
  split_and!.
  - apply (proj1 (get_contract example_base "appium.port" VNone)).
    eapply resolves_step; [reflexivity|].
    eapply resolves_step; [reflexivity|]. apply resolves_end.
  - apply (proj1 (proj2
      (get_contract example_base "appium.host.name" (VStr "X")))).
    eapply blocked_below; [reflexivity|].
    eapply blocked_below; [reflexivity|].
    apply blocked_not_indexable. reflexivity.
  - apply (proj2 (proj2 (proj2
      (get_contract example_base "missing.path" VNone)))).
    intros v Hr. inversion Hr; subst. discriminate.
Defined.

(** *** Idempotence *)

(** On documents read as values, where no mapping object is stored in
    two places: merging an overlay into a base and then merging the same
    overlay into the result is the same as merging it once.  Where the
    first merge returns a configuration the second returns that
    configuration again, and where the first merge raises there is no
    second one.  [Heap] has the merge on mappings that are shared. *)
Theorem merge_config_idempotent (base overlay : value) :
  wf overlay = true ->
  (merged ← _merge_config base overlay; _merge_config merged overlay)
  = _merge_config base overlay.
Proof.
  intros Hwf. destruct (_merge_config base overlay) as [merged|e] eqn:Hm.
  - simpl. by apply (merge_twice overlay Hwf base).
  - done.
Qed.

Lemma merge_config_idempotent_witness :
  wf (VDict [ ("appium", VDict [ ("port", VInt 4724) ]);
              ("report", VDict [ ("dir", VStr "out") ]) ]) = true /\
  (merged ← _merge_config example_base
     (VDict [ ("appium", VDict [ ("port", VInt 4724) ]);
              ("report", VDict [ ("dir", VStr "out") ]) ]);
   _merge_config merged
     (VDict [ ("appium", VDict [ ("port", VInt 4724) ]);
              ("report", VDict [ ("dir", VStr "out") ]) ]))
  = Ret (VDict [ ("appium", VDict [ ("host", VStr "127.0.0.1");
                                    ("port", VInt 4724) ]);
                 ("report", VDict [ ("dir", VStr "out") ]) ]).
Proof.
  split; [reflexivity|].
  rewrite (merge_config_idempotent example_base
    (VDict [ ("appium", VDict [ ("port", VInt 4724) ]);
             ("report", VDict [ ("dir", VStr "out") ]) ])).
  - reflexivity.
  - reflexivity.
Defined.

End ConfigProps.

Module EffProps.
Import Py Eff.

Section rules.
Context {S : Type}.

Lemma ensures_ret {A} (a : A) (s : S) (Q : outcome A -> S -> Prop) :
  Q (Ret a) s -> ensures (ret a) s Q.
Proof. done. Qed.

Lemma ensures_raise {A} e (s : S) (Q : outcome A -> S -> Prop) :
  Q (Raise e) s -> ensures (raise e) s Q.
Proof. done. Qed.

Lemma ensures_lift {A} (o : outcome A) (s : S)
    (Q : outcome A -> S -> Prop) :
  Q o s -> ensures (lift o) s Q.
Proof. done. Qed.

Lemma ensures_gets {A} (f : S -> A) (s : S) (Q : outcome A -> S -> Prop) :
  Q (Ret (f s)) s -> ensures (gets f) s Q.
Proof. done. Qed.

Lemma ensures_modify (f : S -> S) (s : S) (Q : outcome unit -> S -> Prop) :
  Q (Ret tt) (f s) -> ensures (modify f) s Q.
Proof. done. Qed.

Lemma ensures_bind {A B} (c : M S A) (k : A -> M S B) (s : S)
    (Q : outcome B -> S -> Prop) :
  ensures c s (fun r s' =>
    match r with
    | Ret a => ensures (k a) s' Q
    | Raise e => Q (Raise e) s'
    end) ->
  ensures (bind c k) s Q.
Proof.
  unfold ensures, bind. by destruct (c s) as [[a|e] s'].
Qed.

Lemma ensures_try_except {A} (c : M S A) (catches : exn -> bool)
    (h : exn -> M S A) (s : S) (Q : outcome A -> S -> Prop) :
  ensures c s (fun r s' =>
    match r with
    | Ret a => Q (Ret a) s'
    | Raise e => if catches e then ensures (h e) s' Q else Q (Raise e) s'
    end) ->
  ensures (try_except c catches h) s Q.
Proof.
  unfold ensures, try_except. destruct (c s) as [[a|e] s']; simpl; [done|].
  by destruct (catches e).
Qed.

Lemma ensures_try_finally {A} (c : M S A) (fin : M S unit) (s : S)
    (Q : outcome A -> S -> Prop) :
  ensures c s (fun r s' =>
    ensures fin s' (fun r' s'' =>
      match r' with
      | Ret _ => Q r s''
      | Raise e => Q (Raise e) s''
      end)) ->
  ensures (try_finally c fin) s Q.
Proof.
  unfold ensures, try_finally. destruct (c s) as [r s']; simpl.
  by destruct (fin s') as [[u|e] s''].
Qed.

Lemma ensures_weaken {A} (c : M S A) s (Q Q' : outcome A -> S -> Prop) :
  ensures c s Q -> (forall r s', Q r s' -> Q' r s') -> ensures c s Q'.
Proof. unfold ensures. auto. Qed.

End rules.

(** One step of symbolic execution through a method body. *)
Ltac wp_step :=
  lazymatch goal with
  | |- ensures (bind _ _) _ _ => apply ensures_bind
  | |- ensures (try_except _ _ _) _ _ => apply ensures_try_except
  | |- ensures (try_finally _ _) _ _ => apply ensures_try_finally
  | |- ensures (ret _) _ _ => apply ensures_ret
  | |- ensures (raise _) _ _ => apply ensures_raise
  | |- ensures (lift _) _ _ => apply ensures_lift
  | |- ensures (gets _) _ _ => apply ensures_gets
  | |- ensures (modify _) _ _ => apply ensures_modify
  | |- ensures (if ?b then _ else _) _ _ => destruct b eqn:?
  | |- ensures (match ?x with _ => _ end) _ _ => destruct x eqn:?
  | |- match ?r with Ret _ => _ | Raise _ => _ end => destruct r eqn:?
  | |- if ?b then _ else _ => destruct b eqn:?
  end; cbv beta.

End EffProps.

Module DriverProps.
Import Py Eff Driver DriverSpec EffProps.

Section proofs.
Context {W : Type}.
Implicit Types (env : appium W) (m : manager W).

Lemma ensures_call {A} (f : W -> outcome A * W) m
    (Q : outcome A -> manager W -> Prop) :
  (forall r w', f (world m) = (r, w') ->
     Q r {| world := w'; driver := driver m; wait := wait m;
            log := log m |}) ->
  ensures (call f) m Q.
Proof.
  unfold ensures, call. intros H. destruct (f (world m)) as [r w'] eqn:E.
  by apply H.
Qed.

Ltac wp :=
  repeat first
    [ wp_step
    | lazymatch goal with
      | |- ensures (call _) _ _ => apply ensures_call; intros ? ? ?
      | |- ensures (logger _ _ _) _ _ => unfold logger
      | |- ensures (set_driver _) _ _ => unfold set_driver
      | |- ensures (set_wait _) _ _ => unfold set_wait
      end; cbv beta ].

Lemma open_session_post env ac tc c t1 t2 m :
  ensures (open_session env ac tc c t1 t2) m (fun r m' =>
    match r with
    | Ret d => driver m' = Some d /\ is_Some (wait m')
    | Raise e =>
        wait m' = wait m /\
        (driver m' = driver m \/
         exists url c' w w' d,
           Remote env url c' w = (Ret d, w') /\ driver m' = Some d)
    end).
Proof.
  unfold open_session. wp; simpl; eauto 10.
Qed.


(** *** Capability assembly *)

Lemma update_caps_lookup (defaults overrides : caps) (k : string) :
  update_caps defaults (Some overrides) !! k =
  match overrides !! k with
  | Some v => Some v
  | None => defaults !! k
  end.
Proof.
  unfold update_caps. case_bool_decide as Hsize.
  - apply map_size_empty_iff in Hsize. subst overrides.
    by rewrite lookup_empty.
  - rewrite lookup_union. by destruct (overrides !! k), (defaults !! k).
Qed.

Lemma add_app_frame env app_path c m :
  ensures (add_app env app_path c) m (fun _ m' =>
    driver m' = driver m /\ wait m' = wait m /\ log m' = log m).
Proof. unfold add_app. wp; simpl; auto. Qed.

(** The overrides enter in the last step only: the set assembled with
    overrides is the set assembled without them, updated. *)
Lemma android_capabilities_update env ac pc overrides m :
  android_capabilities env ac pc (Some overrides) m =
  (let (r, m') := android_capabilities env ac pc None m in
   (match r with
    | Ret defaults => Ret (update_caps defaults (Some overrides))
    | Raise e => Raise e
    end, m')).
Proof.
  unfold android_capabilities, bind, lift, ret.
  destruct (dict_display _) as [c|e]; [|done].
  destruct (get_method pc "app_path" VNone) as [p|e]; [|done].
  by destruct (add_app env p c m) as [[c'|e] m'].
Qed.

Lemma ios_capabilities_update env ac pc overrides m :
  ios_capabilities env ac pc (Some overrides) m =
  (let (r, m') := ios_capabilities env ac pc None m in
   (match r with
    | Ret defaults => Ret (update_caps defaults (Some overrides))
    | Raise e => Raise e
    end, m')).
Proof.
  unfold ios_capabilities, bind, lift, ret.
  destruct (dict_display _) as [c|e]; [|done].
  destruct (get_method pc "udid" VNone) as [u|e]; [|done].
  destruct (get_method pc "app_path" VNone) as [p|e]; [|done].
  by destruct (add_app env p _ m) as [[c'|e] m'].
Qed.

Lemma android_capabilities_frame env ac pc o m :
  ensures (android_capabilities env ac pc o) m (fun _ m' =>
    driver m' = driver m /\ wait m' = wait m /\ log m' = log m).
Proof.
  unfold android_capabilities. wp; simpl; auto.
  all: eapply ensures_weaken; [apply add_app_frame|];
    intros [?|?] ? (? & ? & ?); simpl in *; wp; auto.
Qed.

Lemma ios_capabilities_frame env ac pc o m :
  ensures (ios_capabilities env ac pc o) m (fun _ m' =>
    driver m' = driver m /\ wait m' = wait m /\ log m' = log m).
Proof.
  unfold ios_capabilities. wp; simpl; auto.
  all: eapply ensures_weaken; [apply add_app_frame|];
    intros [?|?] ? (? & ? & ?); simpl in *; wp; auto.
Qed.

(** *** Starting a session *)

Lemma start_android_driver_post env config o m :
  ensures (start_android_driver env config o) m (start_post env m).
Proof.
  unfold start_android_driver. apply ensures_try_except.
  eapply ensures_weaken with (Q := fun r m' =>
    match r with
    | Ret d => driver m' = Some d /\ is_Some (wait m')
    | Raise e =>
        wait m' = wait m /\
        (driver m' = driver m \/
         exists url c w w' d,
           Remote env url c w = (Ret d, w') /\ driver m' = Some d)
    end).
  - wp; simpl; auto.
    eapply ensures_weaken; [apply android_capabilities_frame|].
    intros [c|e] m1 (Hd & Hw & _); simpl; [|rewrite Hd, Hw; auto].
    eapply ensures_weaken; [apply open_session_post|].
    intros [d|e] m2; simpl; [done|]. by rewrite Hd, Hw.
  - intros [d|e] m1; simpl; [done|]. intros (Hw & Hd).
    destruct (is_Exception e) eqn:He.
    + wp. simpl. split_and!; [done|done|].
      intros _. eexists. by rewrite last_snoc.
    + by split_and!.
Qed.

Lemma start_ios_driver_post env config o m :
  ensures (start_ios_driver env config o) m (start_post env m).
Proof.
  unfold start_ios_driver. apply ensures_try_except.
  eapply ensures_weaken with (Q := fun r m' =>
    match r with
    | Ret d => driver m' = Some d /\ is_Some (wait m')
    | Raise e =>
        wait m' = wait m /\
        (driver m' = driver m \/
         exists url c w w' d,
           Remote env url c w = (Ret d, w') /\ driver m' = Some d)
    end).
  - wp; simpl; auto.
    eapply ensures_weaken; [apply ios_capabilities_frame|].
    intros [c|e] m1 (Hd & Hw & _); simpl; [|rewrite Hd, Hw; auto].
    eapply ensures_weaken; [apply open_session_post|].
    intros [d|e] m2; simpl; [done|]. by rewrite Hd, Hw.
  - intros [d|e] m1; simpl; [done|]. intros (Hw & Hd).
    destruct (is_Exception e) eqn:He.
    + wp. simpl. split_and!; [done|done|].
      intros _. eexists. by rewrite last_snoc.
    + by split_and!.
Qed.

(** *** Quitting and probing *)

Lemma quit_driver_post env m :
  ensures (quit_driver env) m (fun _ m' =>
    driver m' = None /\
    (wait m' = None \/ (driver m = None /\ wait m' = wait m))).
Proof.
  unfold quit_driver. wp; simpl; auto.
Qed.

Lemma is_driver_alive_frame env m :
  ensures (is_driver_alive env) m (fun _ m' =>
    driver m' = driver m /\ wait m' = wait m).
Proof. unfold is_driver_alive. wp; simpl; auto. Qed.

(** *** The invariant of reachable states *)

Lemma restart_driver_post env config platform o m :
  (driver m = None -> wait m = None) ->
  ensures (restart_driver env config platform o) m (fun _ m' =>
    driver m' = None -> wait m' = None).
Proof.
  intros Hinv. unfold restart_driver. apply ensures_bind.
  eapply ensures_weaken; [apply quit_driver_post|].
  intros [[]|e] m1 (Hd & Hw); simpl.
  - assert (wait m1 = None) as Hw1.
    { destruct Hw as [?|[Hn Hw]]; [done|]. rewrite Hw. auto. }
    clear Hw. wp; simpl; auto.
    + eapply ensures_weaken; [apply start_android_driver_post|].
      intros [d|e] m2; simpl.
      * intros [Hd2 _] Hn. congruence.
      * intros (Hw2 & _ & _) _. simpl in Hw2. congruence.
    + eapply ensures_weaken; [apply start_ios_driver_post|].
      intros [d|e] m2; simpl.
      * intros [Hd2 _] Hn. congruence.
      * intros (Hw2 & _ & _) _. simpl in Hw2. congruence.
  - intros _. destruct Hw as [?|[Hn Hw]]; [done|]. rewrite Hw. auto.
Qed.

(** A wait object is stored only while a session is. *)
Lemma reachable_wait_needs_driver m :
  reachable m -> driver m = None -> wait m = None.
Proof.
  induction 1 as [w|env config o m Hr IH|env config o m Hr IH|env m Hr IH
                 |env m Hr IH|env config p o m Hr IH|m w entries Hr IH];
    [done|..].
  - pose proof (start_android_driver_post env config o m) as H.
    unfold ensures, start_post in H.
    destruct (start_android_driver env config o m) as [[d|e] m']; simpl in *.
    + destruct H as [Hd _]. congruence.
    + destruct H as (Hw & [Hd|(?&?&?&?&?&_&Hd)] & _); intros Hn.
      * rewrite Hw. apply IH. congruence.
      * congruence.
  - pose proof (start_ios_driver_post env config o m) as H.
    unfold ensures, start_post in H.
    destruct (start_ios_driver env config o m) as [[d|e] m']; simpl in *.
    + destruct H as [Hd _]. congruence.
    + destruct H as (Hw & [Hd|(?&?&?&?&?&_&Hd)] & _); intros Hn.
      * rewrite Hw. apply IH. congruence.
      * congruence.
  - pose proof (quit_driver_post env m) as H. unfold ensures in H.
    destruct H as (_ & [Hw|[Hn Hw]]); intros _; [done|].
    rewrite Hw. auto.
  - pose proof (is_driver_alive_frame env m) as H. unfold ensures in H.
    destruct H as [Hd Hw]. rewrite Hd, Hw. done.
  - apply (restart_driver_post env config p o m IH).
  - exact IH.
Qed.

(** *** The claims about the driver manager *)

(** C6 (as amended): [is_driver_alive] answers false and touches nothing
    when no session is stored; when asking the session for its page
    source raises, it answers false for an exception of class
    [Exception] and lets any other exception through to the caller; it
    answers true exactly when a session is stored and that request
    returns. *)
Theorem is_driver_alive_spec env m :
  (driver m = None -> is_driver_alive env m = (Ret false, m)) /\
  (forall d e,
     driver m = Some d ->
     fst (page_source env d (world m)) = Raise e ->
     fst (is_driver_alive env m)
     = if is_Exception e then Ret false else Raise e) /\
  (fst (is_driver_alive env m) = Ret true <->
   exists d src,
     driver m = Some d /\ fst (page_source env d (world m)) = Ret src).
Proof.
  unfold is_driver_alive, bind, gets, try_except, call, ret.
  destruct (driver m) as [d|]; simpl.
  - destruct (page_source env d (world m)) as [[src|e] w'] eqn:Hp; simpl.
    + split_and!; [done| |].
      * intros d' e' [= <-]. rewrite Hp. done.
      * split; [|done]. intros _. exists d, src. by rewrite Hp.
    + split_and!; [done| |].
      * intros d' e' [= <-]. rewrite Hp. simpl. intros [= <-].
        by destruct (is_Exception e).
      * destruct (is_Exception e); simpl.
        -- split; [done|]. intros (d' & src & [= <-] & Hs).
           rewrite Hp in Hs. done.
        -- split; [done|]. intros (d' & src & [= <-] & Hs).
           rewrite Hp in Hs. done.
  - split_and!; [done|done|]. split; [done|]. by intros (? & ? & ? & _).
Qed.

(** C10: from every state a driver manager can reach, [quit_driver]
    leaves no session and no wait object stored, whether the session's
    [quit] returns or raises; [is_driver_alive], called next, answers
    false and touches nothing. *)
Theorem quit_driver_resets env m :
  reachable m ->
  driver (snd (quit_driver env m)) = None /\
  wait (snd (quit_driver env m)) = None /\
  forall env',
    is_driver_alive env' (snd (quit_driver env m))
    = (Ret false, snd (quit_driver env m)).
Proof.
  intros Hr. pose proof (quit_driver_post env m) as H. unfold ensures in H.
  destruct H as (Hd & Hw). split_and!; [done| |].
  - destruct Hw as [?|[Hn Hw]]; [done|]. rewrite Hw.
    by apply reachable_wait_needs_driver.
  - intros env'. unfold is_driver_alive, bind, gets. simpl.
    by rewrite Hd.
Qed.

End proofs.

(** C4 as stated fails: the manager starts with no session; the server
    opens one and then rejects the implicit-wait request; the call raises
    and the manager keeps the session it has just stored. *)
Lemma start_failure_keeps_session :
  driver (init tt) = None /\
  fst (start_android_driver failing_after_open (VDict []) None (init tt))
    = Raise WebDriverException /\
  driver (snd (start_android_driver failing_after_open (VDict []) None
                 (init tt)))
    = Some (Session 1).
Proof. split_and!; reflexivity. Qed.

Lemma is_driver_alive_spec_witness :
  is_driver_alive steady (init tt) = (Ret false, init tt) /\
  fst (is_driver_alive failing_after_open active) = Ret false /\
  fst (is_driver_alive interrupted active) = Raise KeyboardInterrupt /\
  fst (is_driver_alive steady active) = Ret true.
Proof.
  split_and!.
  - apply (proj1 (is_driver_alive_spec steady (init tt))). reflexivity.
  - apply (proj1 (proj2 (is_driver_alive_spec failing_after_open active))
             (Session 1) WebDriverException); reflexivity.
  - apply (proj1 (proj2 (is_driver_alive_spec interrupted active))
             (Session 1) KeyboardInterrupt); reflexivity.
  - apply (proj2 (proj2 (is_driver_alive_spec steady active))).
    exists (Session 1), "<hierarchy/>". split; reflexivity.
Defined.

(** C6 as stated fails: a session is stored and the request for its page
    source is interrupted by the user; [KeyboardInterrupt] is not of
    class [Exception], so the call does not answer false: the interrupt
    reaches the caller. *)
Lemma is_driver_alive_lets_interrupt_through :
  driver active = Some (Session 1) /\
  fst (page_source interrupted (Session 1) (world active))
    = Raise KeyboardInterrupt /\
  fst (is_driver_alive interrupted active) = Raise KeyboardInterrupt.
Proof. split_and!; reflexivity. Qed.

Lemma quit_driver_resets_witness :
  let m := snd (start_android_driver steady (VDict []) None (init tt)) in
  driver m = Some (Session 1) /\
  fst (quit failing_after_open (Session 1) (world m))
    = Raise WebDriverException /\
  driver (snd (quit_driver failing_after_open m)) = None /\
  wait (snd (quit_driver failing_after_open m)) = None /\
  is_driver_alive steady (snd (quit_driver failing_after_open m))
    = (Ret false, snd (quit_driver failing_after_open m)).
Proof.
  intros m. split; [reflexivity|]. split; [reflexivity|].
  destruct (quit_driver_resets failing_after_open m) as (Hd & Hw & Ha).
  - apply reach_start_android. apply reach_init.
  - split; [exact Hd|]. split; [exact Hw|]. apply Ha.
Defined.

End DriverProps.

Module DeviceProps.
Import Py Eff Subprocess Device DeviceSpec EffProps.

Section proofs.
Context {W : Type}.
Implicit Types (env : host W) (s : state W).

Lemma ensures_run_checked env cmd s (Q : outcome string -> state W -> Prop) :
  (forall c w', run env cmd (world s) = (c, w') ->
     Q (checked c) {| world := w'; log := log s |}) ->
  ensures (run_checked env cmd) s Q.
Proof.
  unfold ensures, run_checked. intros H.
  destruct (run env cmd (world s)) as [c w'] eqn:E. by apply H.
Qed.

Lemma tool_failed_caught c :
  tool_failed c ->
  exists e, checked c = Raise e /\
    (e = CalledProcessError \/ e = FileNotFoundError).
Proof. intros [H|H]; eauto. Qed.

(** Neither of the two exceptions leaves [get_android_devices]. *)
Lemma get_android_devices_catches env s e :
  fst (get_android_devices env s) = Raise e ->
  e <> CalledProcessError /\ e <> FileNotFoundError.
Proof.
  unfold get_android_devices, try_except.
  destruct (bind _ _ s) as [[l|e'] s']; simpl; [done|].
  unfold catches_only. case_bool_decide as Hin.
  - destruct e'; done.
  - intros [= ->]. split; intros ->; apply Hin; set_solver.
Qed.

Lemma get_ios_devices_catches env s e :
  fst (get_ios_devices env s) = Raise e ->
  e <> CalledProcessError /\ e <> FileNotFoundError.
Proof.
  unfold get_ios_devices, try_except.
  destruct (bind _ _ s) as [[l|e'] s']; simpl; [done|].
  unfold catches_only. case_bool_decide as Hin.
  - destruct e'; done.
  - intros [= ->]. split; intros ->; apply Hin; set_solver.
Qed.

Lemma get_android_devices_tool_failed env s :
  tool_failed (fst (run env ["adb"; "devices"] (world s))) ->
  fst (get_android_devices env s) = Ret [] /\
  exists text e,
    last (log (snd (get_android_devices env s)))
    = Some (LogEntry ERROR text e).
Proof.
  intros Hf. apply tool_failed_caught in Hf as (e & He & Hcls).
  unfold get_android_devices, try_except, bind, run_checked.
  destruct (run env ["adb"; "devices"] (world s)) as [c w'].
  simpl in He. rewrite He.
  destruct Hcls as [-> | ->]; simpl; (split; [done|]);
    eexists _, _; by rewrite last_snoc.
Qed.

Lemma get_ios_devices_tool_failed env s :
  tool_failed
    (fst (run env ["xcrun"; "simctl"; "list"; "devices"; "--json"]
            (world s))) ->
  fst (get_ios_devices env s) = Ret [] /\
  exists text e,
    last (log (snd (get_ios_devices env s))) = Some (LogEntry ERROR text e).
Proof.
  intros Hf. apply tool_failed_caught in Hf as (e & He & Hcls).
  unfold get_ios_devices, try_except, bind, run_checked.
  destruct (run env _ (world s)) as [c w'].
  simpl in He. rewrite He.
  destruct Hcls as [-> | ->]; simpl; (split; [done|]);
    eexists _, _; by rewrite last_snoc.
Qed.

(** When only [idevice_id] fails, the simulators found so far are the
    result. *)
Lemma get_ios_devices_secondary_failed env s c w stdout data by_runtime
    runtimes found :
  run env ["xcrun"; "simctl"; "list"; "devices"; "--json"] (world s)
    = (c, w) ->
  checked c = Ret stdout ->
  json_loads env stdout = Ret data ->
  getitem data "devices" = Ret by_runtime ->
  items by_runtime = Ret runtimes ->
  simulators runtimes = Ret found ->
  tool_failed (fst (run env ["idevice_id"; "-l"] w)) ->
  fst (get_ios_devices env s) = Ret found /\
  exists text text',
    log (snd (get_ios_devices env s))
    = (log s ++ [ LogEntry WARNING text None; LogEntry INFO text' None ])%list.
Proof.
  intros Hrun Hc Hj Hg Hi Hs Hf.
  apply tool_failed_caught in Hf as (e & He & Hcls).
  unfold get_ios_devices, try_except, bind, run_checked, lift.
  rewrite Hrun, Hc, Hj, Hg, Hi, Hs. simpl.
  destruct (run env ["idevice_id"; "-l"] w) as [c' w'']. simpl in He.
  rewrite He. destruct Hcls as [-> | ->]; simpl; (split; [done|]);
    eexists _, _; by rewrite <- app_assoc.
Qed.

(** C7, as the code has it: a missing executable or a nonzero exit status
    of a command a discovery method starts never leaves the method as an
    exception.  When the command is the one the method starts first
    ([adb devices]; [xcrun simctl list devices --json]) the method logs an
    error and returns the empty list.  When it is [idevice_id -l], which
    [get_ios_devices] starts second, the method logs a warning and returns
    the booted simulators it has found. *)
Theorem discovery_tool_failures env s :
  (forall e,
     fst (get_android_devices env s) = Raise e \/
     fst (get_ios_devices env s) = Raise e ->
     e <> CalledProcessError /\ e <> FileNotFoundError) /\
  (tool_failed (fst (run env ["adb"; "devices"] (world s))) ->
   fst (get_android_devices env s) = Ret [] /\
   exists text e,
     last (log (snd (get_android_devices env s)))
     = Some (LogEntry ERROR text e)) /\
  (tool_failed
     (fst (run env ["xcrun"; "simctl"; "list"; "devices"; "--json"]
             (world s))) ->
   fst (get_ios_devices env s) = Ret [] /\
   exists text e,
     last (log (snd (get_ios_devices env s)))
     = Some (LogEntry ERROR text e)) /\
  (forall c w stdout data by_runtime runtimes found,
     run env ["xcrun"; "simctl"; "list"; "devices"; "--json"] (world s)
       = (c, w) ->
     checked c = Ret stdout ->
     json_loads env stdout = Ret data ->
     getitem data "devices" = Ret by_runtime ->
     items by_runtime = Ret runtimes ->
     simulators runtimes = Ret found ->
     tool_failed (fst (run env ["idevice_id"; "-l"] w)) ->
     fst (get_ios_devices env s) = Ret found /\
     exists text text',
       log (snd (get_ios_devices env s))
       = (log s ++ [ LogEntry WARNING text None;
                     LogEntry INFO text' None ])%list).
Proof.
  split_and!.
  - intros e [H|H].
    + by apply (get_android_devices_catches env s).
    + by apply (get_ios_devices_catches env s).
  - apply get_android_devices_tool_failed.
  - apply get_ios_devices_tool_failed.
  - intros. by eapply get_ios_devices_secondary_failed.
Qed.

End proofs.

(** C7 as stated fails: [idevice_id] is missing, and [get_ios_devices]
    returns the booted simulator, not the empty list. *)
Lemma idevice_missing_result_not_empty :
  tool_failed (fst (run mac_without_idevice ["idevice_id"; "-l"] tt)) /\
  fst (get_ios_devices mac_without_idevice (State tt []))
    = Ret [ simulator_record "A1B2" "iPhone 15" "iOS-17-0" ] /\
  fst (get_ios_devices mac_without_idevice (State tt [])) <> Ret [].
Proof. split_and!; [by right|reflexivity|discriminate]. Qed.

Lemma discovery_tool_failures_witness :
  fst (get_android_devices tools_exit_nonzero (State tt [])) = Ret [] /\
  fst (get_android_devices mac_without_idevice (State tt [])) = Ret [] /\
  fst (get_ios_devices tools_exit_nonzero (State tt [])) = Ret [] /\
  fst (get_ios_devices mac_without_idevice (State tt []))
    = Ret [ simulator_record "A1B2" "iPhone 15" "iOS-17-0" ].
Proof.
  split_and!.
  - apply (proj1 (proj2
      (discovery_tool_failures tools_exit_nonzero (State tt [])))).
    by left.
  - apply (proj1 (proj2
      (discovery_tool_failures mac_without_idevice (State tt [])))).
    by right.
  - apply (proj1 (proj2 (proj2
      (discovery_tool_failures tools_exit_nonzero (State tt []))))).
    by left.
  - eapply (proj2 (proj2 (proj2
      (discovery_tool_failures mac_without_idevice (State tt []))))).
    + reflexivity.
    + reflexivity.
    + reflexivity.
    + reflexivity.
    + reflexivity.
    + reflexivity.
    + by right.
Defined.

End DeviceProps.

Module PageProps.
Import Py Eff Page PageSpec EffProps.

Section proofs.
Context {W : Type}.
Implicit Types (env : browser W) (s : state W) (config : value).

(** An [except Exception] clause whose handler returns lets nothing of
    class [Exception] through. *)
Lemma try_except_contained {A} (body : M (state W) A)
    (h : exn -> M (state W) A) :
  (forall e s, exists a, fst (h e s) = Ret a) ->
  contained (try_except body is_Exception h).
Proof.
  intros Hh s e. unfold try_except.
  destruct (body s) as [[a|e'] s']; simpl; [done|].
  destruct (is_Exception e') eqn:He.
  - destruct (Hh e' s') as [a Ha]. rewrite Ha. done.
  - by intros [= <-].
Qed.










(** *** The sentinel values *)







(** *** The checks that catch one class only *)





(** *** The element is found and the action on it fails *)












End proofs.



End PageProps.

Module RunnerProps.
Import Py Eff Subprocess Runner RunnerSpec EffProps.

Section proofs.
Context {W : Type}.
Implicit Types (env : tools W) (s : state W).

Lemma ensures_tool_call {A} (f : W -> outcome A * W) s
    (Q : outcome A -> state W -> Prop) :
  (forall r w', f (world s) = (r, w') ->
     Q r {| world := w'; log := log s; printed := printed s |}) ->
  ensures (call f) s Q.
Proof.
  unfold ensures, call. intros H. destruct (f (world s)) as [r w'] eqn:E.
  by apply H.
Qed.

Lemma ensures_tool_returning {A} (f : W -> outcome A * W) s
    (Q : outcome A -> state W -> Prop) :
  returning f ->
  (forall a w', Q (Ret a) {| world := w'; log := log s;
                             printed := printed s |}) ->
  ensures (call f) s Q.
Proof.
  intros Hret H. apply ensures_tool_call. intros r w' Hf.
  destruct (Hret (world s)) as [a Ha]. rewrite Hf in Ha. simpl in Ha.
  subst r. apply H.
Qed.

Lemma ensures_run_unchecked env cmd s (Q : outcome Z -> state W -> Prop) :
  (forall c w', subprocess_run env cmd (world s) = (c, w') ->
     Q (unchecked c) {| world := w'; log := log s; printed := printed s |}) ->
  ensures (run_unchecked env cmd) s Q.
Proof.
  unfold ensures, run_unchecked. intros H.
  destruct (subprocess_run env cmd (world s)) as [c w'] eqn:E. by apply H.
Qed.

Ltac wp :=
  repeat first
    [ wp_step
    | lazymatch goal with
      | |- ensures (call _) _ _ => apply ensures_tool_call; intros ? ? ?
      | |- ensures (run_unchecked _ _) _ _ =>
          apply ensures_run_unchecked; intros [? ?|?] ? ?; simpl unchecked
      | |- ensures (logger _ _ _) _ _ => unfold logger
      | |- ensures (print _) _ _ => unfold print
      end; cbv beta ].

Lemma run_tests_codes env tp mk wk rt rr vb co s :
  ensures (run_tests env tp mk wk rt rr vb co) s (fun r _ =>
    forall code, r = Ret code -> from_pytest env code).
Proof.
  unfold run_tests, from_pytest. wp.
  all: simplify_eq/=; try (intros code' Hc; simplify_eq/=; eauto 10).
Qed.

Lemma main_codes env args s :
  ensures (main env args) s (fun r _ =>
    forall code, r = Ret code -> code = 0 \/ from_pytest env code).
Proof.
  unfold main. wp.
  all: try (intros code' Hc; simplify_eq/=; by left).
  all: eapply ensures_weaken; [apply run_tests_codes|];
    intros [code|e] s' Hcode; cbv beta; [|done];
    specialize (Hcode code eq_refl);
    wp; intros code' Hc; simplify_eq/=; by right.
Qed.

(** *** What decides the code *)

Ltac wp_returning :=
  repeat first
    [ wp_step
    | lazymatch goal with
      | |- ensures (call _) _ _ =>
          apply ensures_tool_returning; [assumption|intros ? ?]
      | |- ensures (logger _ _ _) _ _ => unfold logger
      | |- ensures (print _) _ _ => unfold print
      end; cbv beta ].

Lemma run_unchecked_ends env cmd s status :
  pytest_ends_with env status ->
  exists w', run_unchecked env cmd s
    = (Ret status, {| world := w'; log := log s; printed := printed s |}).
Proof.
  intros Hp. unfold run_unchecked.
  destruct (Hp cmd (world s)) as (stdout & w' & ->). by exists w'.
Qed.

Lemma run_unchecked_fails env cmd s e :
  pytest_fails_with env e ->
  exists w', run_unchecked env cmd s
    = (Raise e, {| world := w'; log := log s; printed := printed s |}).
Proof.
  intros Hp. unfold run_unchecked.
  destruct (Hp cmd (world s)) as (w' & ->). by exists w'.
Qed.

Lemma run_tests_passes_status env tp mk wk rt rr vb co s status :
  returning (clean_allure_results env) ->
  returning (generate_pytest_html_report env) ->
  returning (generate_allure_report env) ->
  pytest_ends_with env status ->
  ensures (run_tests env tp mk wk rt rr vb co) s (fun r _ => r = Ret status).
Proof.
  intros Hc Hh Hg Hp. unfold run_tests. wp_returning.
  all: match goal with
       | |- ensures (run_unchecked ?env ?cmd) ?s _ =>
           unfold ensures at 1;
           destruct (run_unchecked_ends env cmd s status Hp) as [w1 ->]
       end; cbn [fst snd]; wp_returning; done.
Qed.

Lemma run_tests_pytest_fails env tp mk wk rt rr vb co s e :
  returning (clean_allure_results env) ->
  returning (generate_pytest_html_report env) ->
  pytest_fails_with env e ->
  ensures (run_tests env tp mk wk rt rr vb co) s (fun r _ =>
    (e = KeyboardInterrupt -> r = Ret 130) /\
    (is_Exception e = true -> r = Ret 1)).
Proof.
  intros Hc Hh Hp. unfold run_tests. wp_returning.
  all: match goal with
       | |- ensures (run_unchecked ?env ?cmd) ?s _ =>
           unfold ensures at 1;
           destruct (run_unchecked_fails env cmd s e Hp) as [w1 ->]
       end; cbn [fst snd]; destruct e; simpl; wp_returning; done.
Qed.

Lemma main_after_run_tests env args s (Q : outcome Z -> Prop) :
  clean_reports args = false ->
  serve_report args = false ->
  returning (open_allure_report env) ->
  (forall s',
     ensures (run_tests env (test_path args) (markers args)
                (Some (workers args)) (report args) (reruns args)
                (verbose args) (collect_only args)) s'
       (fun r _ => exists code, r = Ret code /\ Q (Ret code))) ->
  Q (fst (main env args s)).
Proof.
  intros Hcl Hsv Ho Hrun. unfold main. rewrite Hcl, Hsv.
  change (ensures
    (bind (print "🚀 开始执行测试...") (fun _ =>
     bind (run_tests env (test_path args) (markers args)
             (Some (workers args)) (report args) (reruns args)
             (verbose args) (collect_only args)) (fun exit_code =>
     bind (if collect_only args then print "📋 测试收集完成"
           else if exit_code =? 0 then print "✅ 所有测试通过"
           else if exit_code =? 1 then print "⚠️  部分测试失败"
           else print "❌ 测试执行出错") (fun _ =>
     bind (if open_report args && negb (collect_only args) then
             if one_of (report args) ["allure"; "both"] then
               bind (print "📊 打开Allure报告...") (fun _ =>
               bind (call (open_allure_report env)) (fun _ => ret tt))
             else ret tt
           else ret tt) (fun _ => ret exit_code)))))
    s (fun r _ => Q r)).
  apply ensures_bind. unfold print at 1. apply ensures_modify.
  apply ensures_bind. eapply ensures_weaken; [apply Hrun|].
  intros r s' (code & -> & HQ). wp_returning; done.
Qed.

End proofs.

(** C9 as stated fails: the marker filter selects no test, pytest ends
    with status 5, and 5 is the exit code of the run. *)
Lemma no_tests_collected_exit_code :
  fst (main (pytest_exits 5) smoke_run start) = Ret 5 /\
  5 <> 0 /\ 5 <> 1 /\ 5 <> 130.
Proof. split_and!; [reflexivity|lia..]. Qed.

End RunnerProps.

Module LookupProps.
Import Py Config ConfigSpec LookupSpec ConfigProps.











(** *** Paths and their segments *)

Lemma split_cons sep s : exists h t, split sep s = h :: t.
Proof.
  induction s as [|c s (h & t & IH)]; simpl; [by eauto|].
  destruct (Ascii.eqb c sep); [by eauto|]. rewrite IH. by eauto.
Qed.

Lemma split_free sep s : Forall (fun p => free_of sep p = true) (split sep s).
Proof.
  induction s as [|c s IH]; simpl; [by repeat constructor|].
  destruct (Ascii.eqb c sep) eqn:E; [by constructor|].
  destruct (split sep s) as [|h t]; [by repeat constructor; simpl; rewrite E|].
  apply Forall_cons in IH as [Hh Ht]. constructor; [|done].
  simpl. by rewrite E, Hh.
Qed.

Lemma join_cons sep p q rest :
  join sep (p :: q :: rest) = p +:+ String sep (join sep (q :: rest)).
Proof. done. Qed.

Lemma join_String sep c h t :
  join sep (String c h :: t) = String c (join sep (h :: t)).
Proof. by destruct t. Qed.

Lemma join_split sep s : join sep (split sep s) = s.
Proof.
  induction s as [|c s IH]; simpl; [done|].
  destruct (split_cons sep s) as (h & t & Hs). rewrite Hs in *.
  destruct (Ascii.eqb c sep) eqn:E.
  - apply Ascii.eqb_eq in E. subst c.
    rewrite join_cons, IH. done.
  - by rewrite join_String, IH.
Qed.

Lemma split_free_single sep s : free_of sep s = true -> split sep s = [s].
Proof.
  induction s as [|c s IH]; simpl; [done|].
  destruct (Ascii.eqb c sep); simpl; [done|]. intros H. by rewrite IH.
Qed.

Lemma split_app sep a b :
  split sep (a +:+ String sep b) = (split sep a ++ split sep b)%list.
Proof.
  induction a as [|c a IH]; simpl.
  - by rewrite Ascii.eqb_refl.
  - destruct (Ascii.eqb c sep); [by rewrite IH|].
    rewrite IH. by destruct (split_cons sep a) as (h & t & ->).
Qed.

Lemma split_join sep parts :
  parts <> [] ->
  Forall (fun p => free_of sep p = true) parts ->
  split sep (join sep parts) = parts.
Proof.
  induction parts as [|p [|q rest] IH]; intros Hne Hfree; [done|..].
  - apply Forall_cons in Hfree as [Hp _]. by apply split_free_single.
  - apply Forall_cons in Hfree as [Hp Hrest].
    rewrite join_cons, split_app, (split_free_single _ _ Hp), IH; done.
Qed.

(** X2: the key path and its segments determine each other.  [split]
    yields at least one segment, no segment contains a dot, joining the
    segments with dots gives the key path back, and a non-empty list of
    dot-free segments is what [split] makes of their join. *)
Theorem split_round_trip (key_path : string) (parts : list string) :
  split "." key_path <> [] /\
  Forall (fun p => free_of "." p = true) (split "." key_path) /\
  join "." (split "." key_path) = key_path /\
  (parts <> [] ->
   Forall (fun p => free_of "." p = true) parts ->
   split "." (join "." parts) = parts).
Proof.
  split_and!.
  - by destruct (split_cons "." key_path) as (h & t & ->).
  - apply split_free.
  - apply join_split.
  - apply split_join.
Qed.

Lemma split_round_trip_witness :
  split "." (join "." ["test"; "explicit_wait"]) = ["test"; "explicit_wait"].
Proof.
  apply (proj2 (proj2 (proj2
    (split_round_trip "" ["test"; "explicit_wait"])))).
  - discriminate.
  - repeat constructor.
Defined.

(** *** Sections *)

(** X3: a dotted lookup against the section getters.  For a section name
    and a key without dots, [get(section.key, default)] is
    [get(section, {}).get(key, default)] whenever the section is a mapping
    or absent; when the section holds anything else, the dotted lookup
    still returns the default while calling [.get] on the section raises
    [AttributeError]. *)
Theorem dotted_get_vs_section config section key default :
  free_of "." section = true ->
  free_of "." key = true ->
  exists sec,
    get_section config section = Ret sec /\
    (is_dict sec = true ->
     get config (section +:+ String "." key) default
     = get_method sec key default) /\
    (is_dict sec = false ->
     get config (section +:+ String "." key) default = Ret default /\
     get_method sec key default = Raise AttributeError).
Proof.
  intros Hs Hk. unfold get_section, get.
  rewrite split_app, (split_free_single _ _ Hs), (split_free_single _ _ Hk).
  simpl. destruct config as [| | | | |d]; simpl;
    try (eexists; split_and!; [done|done|done]).
  destruct (dict_get d section) as [sec|]; simpl.
  - exists sec. split; [done|].
    destruct sec as [| | | | |items]; simpl; split; try done.
    intros _. by destruct (dict_get items key).
  - eexists. split_and!; done.
Qed.

Lemma dotted_get_vs_section_witness :
  get (VDict [ ("test", VDict [ ("explicit_wait", VInt 20) ]) ])
      "test.explicit_wait" (VInt 30) = Ret (VInt 20) /\
  get (VDict [ ("test", VNone) ]) "test.explicit_wait" (VInt 30)
    = Ret (VInt 30) /\
  get_method VNone "explicit_wait" (VInt 30) = Raise AttributeError.
Proof.
  destruct (dotted_get_vs_section
    (VDict [ ("test", VDict [ ("explicit_wait", VInt 20) ]) ])
    "test" "explicit_wait" (VInt 30) eq_refl eq_refl)
    as (sec & Hsec & Hd & _).
  destruct (dotted_get_vs_section (VDict [ ("test", VNone) ])
    "test" "explicit_wait" (VInt 30) eq_refl eq_refl)
    as (sec' & Hsec' & _ & Hn).
  injection Hsec as <-. injection Hsec' as <-.
  split; [exact (Hd eq_refl)|]. exact (Hn eq_refl).
Defined.

(** *** Loading *)

Lemma get_empty path default : get (VDict []) path default = Ret default.
Proof.
  unfold get. by destruct (split_cons "." path) as (h & t & ->).
Qed.

(** X4: a load that fails degrades to defaults.  When reading either
    document raises, when the environment document is an empty file, or
    when the entry of the active environment is no mapping, [_load_config]
    sets the configuration to the empty mapping, and every lookup then
    returns its default. *)
Theorem failed_load_yields_defaults env main_doc env_doc :
  (exists e, is_Exception e = true /\ main_doc = Raise e) \/
  (exists base e, is_Exception e = true /\
     main_doc = Ret base /\ env_doc = Some (Raise e)) \/
  (exists base, main_doc = Ret base /\ env_doc = Some (Ret VNone)) \/
  (exists base items overlay,
     main_doc = Ret base /\ env_doc = Some (Ret (VDict items)) /\
     dict_get items env = Some overlay /\ is_dict overlay = false) ->
  _load_config env main_doc env_doc = Ret (VDict []) /\
  forall path default,
    (config ← _load_config env main_doc env_doc; get config path default)
    = Ret default.
Proof.
  intros H.
  assert (_load_config env main_doc env_doc = Ret (VDict [])) as Hl.
  { destruct H as [(e & He & ->)|[(base & e & He & -> & ->)|
      [(base & -> & ->)|(base & items & overlay & -> & -> & Hg & Hd)]]];
      unfold _load_config; simpl.
    - by rewrite He.
    - by rewrite He.
    - done.
    - unfold dict_mem. rewrite Hg. simpl. by destruct overlay. }
  split; [done|]. intros path default. rewrite Hl. simpl. apply get_empty.
Qed.

Lemma failed_load_yields_defaults_witness :
  (config ← _load_config "dev" (Ret example_base) (Some (Ret VNone));
   get config "appium.host" (VStr "localhost")) = Ret (VStr "localhost").
Proof.
  apply (failed_load_yields_defaults "dev" (Ret example_base)
    (Some (Ret VNone))).
  right. right. left. by exists example_base.
Defined.

End LookupProps.
Module DriverMore.
Import Py Eff Driver DriverSpec EffProps DriverProps.

Section proofs.
Context {W : Type}.
Implicit Types (env : appium W) (m : manager W).

Ltac wp :=
  repeat first
    [ wp_step
    | lazymatch goal with
      | |- ensures (call _) _ _ => apply ensures_call; intros ? ? ?
      | |- ensures (logger _ _ _) _ _ => unfold logger
      | |- ensures (set_driver _) _ _ => unfold set_driver
      | |- ensures (set_wait _) _ _ => unfold set_wait
      end; cbv beta ].

(** A string literal is not among the literals of a list. *)
Ltac not_listed :=
  lazymatch goal with
  | |- _ ∉ _ =>
      repeat (apply not_elem_of_cons; split; [done|]); apply not_elem_of_nil
  | |- _ ∈ _ -> False =>
      let H := fresh in
      intros H; repeat (apply elem_of_cons in H as [?|H]; [done|]);
      by apply elem_of_nil in H
  end.

(** X5: [quit_driver] lets no exception of class [Exception] out, and a
    second call finds nothing to do: it returns and leaves the manager,
    the log and the outside world as they are. *)
Theorem quit_driver_twice env m :
  (forall e, fst (quit_driver env m) = Raise e -> is_Exception e = false) /\
  (forall env',
     quit_driver env' (snd (quit_driver env m))
     = (Ret tt, snd (quit_driver env m))).
Proof.
  split.
  - assert (ensures (quit_driver env) m (fun r _ =>
      forall e, r = Raise e -> is_Exception e = false)) as H; [|exact H].
    unfold quit_driver. wp; simpl; intros; simplify_eq; done.
  - intros env'. pose proof (quit_driver_post env m) as [Hd _].
    unfold quit_driver at 1, bind, gets. simpl. by rewrite Hd.
Qed.

(** X6: [restart_driver] quits before it looks at the platform.  For a
    platform that is neither android nor ios, in any letter case, it
    raises [ValueError] once the old session is gone: no session and no
    wait object are stored afterwards. *)
Theorem restart_driver_unsupported env config platform o m :
  reachable m ->
  lower platform <> "android" ->
  lower platform <> "ios" ->
  fst (quit_driver env m) = Ret tt ->
  (forall w, fst (sleep env 2 w) = Ret tt) ->
  fst (restart_driver env config platform o m) = Raise ValueError /\
  driver (snd (restart_driver env config platform o m)) = None /\
  wait (snd (restart_driver env config platform o m)) = None.
Proof.
  intros Hr Ha Hi Hq Hs.
  pose proof (quit_driver_post env m) as Hp. unfold ensures in Hp.
  destruct Hp as [Hd Hw].
  assert (wait (snd (quit_driver env m)) = None) as Hw'.
  { destruct Hw as [?|[Hn Hw]]; [done|]. rewrite Hw.
    by apply reachable_wait_needs_driver. }
  unfold restart_driver, bind.
  destruct (quit_driver env m) as [r m1]. simpl in *. subst r.
  unfold call. specialize (Hs (world m1)).
  destruct (sleep env 2 (world m1)) as [r w']. simpl in Hs. subst r.
  apply String.eqb_neq in Ha, Hi. rewrite Ha, Hi. simpl. done.
Qed.

(** *** A successful start *)

Lemma open_session_success env ac tc c t1 t2 m :
  ensures (open_session env ac tc c t1 t2) m (fun r m' =>
    forall d, r = Ret d ->
      driver m' = Some d /\
      (exists url w0 w1, Remote env url c w0 = (Ret d, w1)) /\
      (exists t w0 w1 wt,
         new_wait env d t w0 = (Ret wt, w1) /\ wait m' = Some wt) /\
      last (log m') = Some (LogEntry INFO t2 None)).
Proof.
  unfold open_session. wp; intros d' Hd; simplify_eq/=.
  split_and!; [done|by eauto|by eauto 10|by rewrite last_snoc].
Qed.

(** X7: a start method that returns has opened the session with the
    capability set it assembled, stores the session it returns, and
    stores the wait object built for that session. *)
Theorem start_success env config o m d m' :
  (start_android_driver env config o m = (Ret d, m') ->
   exists ac pc c url w0 w1,
     get_appium_config config = Ret ac /\
     get_android_config config = Ret pc /\
     fst (android_capabilities env ac pc o m) = Ret c /\
     Remote env url c w0 = (Ret d, w1) /\
     driver m' = Some d /\
     exists t w2 w3 wt,
       new_wait env d t w2 = (Ret wt, w3) /\ wait m' = Some wt) /\
  (start_ios_driver env config o m = (Ret d, m') ->
   exists ac pc c url w0 w1,
     get_appium_config config = Ret ac /\
     get_ios_config config = Ret pc /\
     fst (ios_capabilities env ac pc o m) = Ret c /\
     Remote env url c w0 = (Ret d, w1) /\
     driver m' = Some d /\
     exists t w2 w3 wt,
       new_wait env d t w2 = (Ret wt, w3) /\ wait m' = Some wt).
Proof.
  split; intros Hrun.
  - unfold start_android_driver, try_except, bind, lift in Hrun.
    destruct (get_appium_config config) as [ac|]; [|by case_match].
    destruct (get_android_config config) as [pc|]; [|by case_match].
    destruct (get_test_config config) as [tc|]; [|by case_match].
    destruct (android_capabilities env ac pc o m) as [[c|e] m1] eqn:Hc;
      [|by case_match].
    pose proof (open_session_success env ac tc c
      "启动Android驱动，服务器: {server_url}" "Android驱动启动成功" m1) as Hp.
    unfold ensures in Hp.
    destruct (open_session env ac tc c _ _ m1) as [[d'|e] m2];
      [|by case_match].
    simplify_eq/=. destruct (Hp _ eq_refl) as (Hd & (url & w0 & w1 & Hr)
      & Hw & _).
    exists ac, pc, c, url, w0, w1. rewrite Hc. by split_and!.
  - unfold start_ios_driver, try_except, bind, lift in Hrun.
    destruct (get_appium_config config) as [ac|]; [|by case_match].
    destruct (get_ios_config config) as [pc|]; [|by case_match].
    destruct (get_test_config config) as [tc|]; [|by case_match].
    destruct (ios_capabilities env ac pc o m) as [[c|e] m1] eqn:Hc;
      [|by case_match].
    pose proof (open_session_success env ac tc c
      "启动iOS驱动，服务器: {server_url}" "iOS驱动启动成功" m1) as Hp.
    unfold ensures in Hp.
    destruct (open_session env ac tc c _ _ m1) as [[d'|e] m2];
      [|by case_match].
    simplify_eq/=. destruct (Hp _ eq_refl) as (Hd & (url & w0 & w1 & Hr)
      & Hw & _).
    exists ac, pc, c, url, w0, w1. rewrite Hc. by split_and!.
Qed.

(** *** What the capability set holds *)

Lemma dict_display_lookup_None entries c name :
  dict_display entries = Ret c ->
  name ∉ map fst entries ->
  c !! name = None.
Proof.
  revert c. induction entries as [|[n [[obj key] dflt]] rest IH];
    intros c; simpl.
  - intros [= <-] _. apply lookup_empty.
  - destruct (get_method obj key dflt) as [v|]; [|done].
    destruct (dict_display rest) as [c'|]; [|done].
    intros [= <-] Hn. apply not_elem_of_cons in Hn as [Hne Hn].
    rewrite lookup_insert_ne; [|done]. by apply IH.
Qed.

Lemma dict_display_is_Some entries c name :
  dict_display entries = Ret c ->
  name ∈ map fst entries ->
  is_Some (c !! name).
Proof.
  revert c. induction entries as [|[n [[obj key] dflt]] rest IH];
    intros c; simpl.
  - intros _ Hin. by apply elem_of_nil in Hin.
  - destruct (get_method obj key dflt) as [v|]; [|done].
    destruct (dict_display rest) as [c'|]; [|done].
    intros [= <-] Hin. destruct (decide (n = name)) as [->|Hne].
    + rewrite lookup_insert_eq. by eexists.
    + rewrite lookup_insert_ne; [|done]. apply IH; [done|].
      apply elem_of_cons in Hin as [?|?]; [congruence|done].
Qed.

Lemma add_app_effect env p c m :
  ensures (add_app env p c) m (fun r _ =>
    forall c', r = Ret c' ->
      (forall k, k <> "app" -> c' !! k = c !! k) /\
      c' !! "app" =
        if truthy p then
          match fst (path_exists env p (world m)) with
          | Ret true => Some p
          | _ => c !! "app"
          end
        else c !! "app").
Proof.
  unfold add_app. destruct (truthy p) eqn:Hp.
  - unfold ensures, bind, call, ret.
    destruct (path_exists env p (world m)) as [[[]|e] w']; simpl;
      intros c' Hc; simplify_eq.
    + split; [|by rewrite lookup_insert_eq].
      intros k Hk. by rewrite lookup_insert_ne.
    + done.
  - unfold ensures, ret. simpl. by intros c' [= <-].
Qed.

Lemma update_caps_is_Some (c : caps) o k :
  is_Some (c !! k) -> is_Some (update_caps c o !! k).
Proof.
  intros Hk. destruct o as [overrides|]; [|done].
  rewrite update_caps_lookup. by destruct (overrides !! k).
Qed.

(** X8: the [app] capability.  Without overrides, the assembled set holds
    [app] exactly when the configured [app_path] is truthy and
    [os.path.exists] answers yes for it, and then it holds that path; a
    configured path that does not exist is dropped. *)
Theorem app_capability env ac pc m c p :
  get_method pc "app_path" VNone = Ret p ->
  fst (android_capabilities env ac pc None m) = Ret c \/
  fst (ios_capabilities env ac pc None m) = Ret c ->
  c !! "app" =
    if truthy p then
      match fst (path_exists env p (world m)) with
      | Ret true => Some p
      | _ => None
      end
    else None.
Proof.
  intros Hp [Hc|Hc].
  - unfold android_capabilities, bind, lift, ret in Hc. rewrite Hp in Hc.
    destruct (dict_display _) as [dc|] eqn:Hd; [|done].
    pose proof (add_app_effect env p dc m) as Ha. unfold ensures in Ha.
    destruct (add_app env p dc m) as [[c'|e] m1]; [|done].
    cbn [fst] in Hc. injection Hc as <-. destruct (Ha c' eq_refl) as [_ Happ].
    rewrite Happ, (dict_display_lookup_None _ _ "app" Hd); [done|].
    simpl. not_listed.
  - unfold ios_capabilities, bind, lift, ret in Hc.
    destruct (dict_display _) as [dc|] eqn:Hd; [|done].
    destruct (get_method pc "udid" VNone) as [u|]; [|done].
    rewrite Hp in Hc.
    match type of Hc with
    | context [add_app env p ?dc' m] =>
        pose proof (add_app_effect env p dc' m) as Ha; unfold ensures in Ha;
        destruct (add_app env p dc' m) as [[c'|e] m1]; [|done]
    end.
    cbn [fst] in Hc. injection Hc as <-. destruct (Ha c' eq_refl) as [_ Happ].
    rewrite Happ.
    assert (dc !! "app" = None) as Hnone.
    { apply (dict_display_lookup_None _ _ "app" Hd). simpl.
      not_listed. }
    destruct (truthy u); [rewrite lookup_insert_ne; [|done]|];
      by rewrite Hnone.
Qed.

(** X9: whatever the configuration and the overrides, an assembled
    Android capability set defines the eleven standard capabilities and an
    assembled iOS set the eight of its platform. *)
Theorem standard_capabilities_present env ac pc o m c :
  (fst (android_capabilities env ac pc o m) = Ret c ->
   Forall (fun name => is_Some (c !! name))
     [ "platformName"; "platformVersion"; "deviceName"; "automationName";
       "appPackage"; "appActivity"; "noReset"; "fullReset";
       "unicodeKeyboard"; "resetKeyboard"; "newCommandTimeout" ]) /\
  (fst (ios_capabilities env ac pc o m) = Ret c ->
   Forall (fun name => is_Some (c !! name))
     [ "platformName"; "platformVersion"; "deviceName"; "automationName";
       "bundleId"; "noReset"; "fullReset"; "newCommandTimeout" ]).
Proof.
  split; intros Hc.
  - unfold android_capabilities, bind, lift, ret in Hc.
    destruct (dict_display _) as [dc|] eqn:Hd; [|done].
    destruct (get_method pc "app_path" VNone) as [p|]; [|done].
    pose proof (add_app_effect env p dc m) as Ha. unfold ensures in Ha.
    destruct (add_app env p dc m) as [[c'|e] m1]; [|done].
    cbn [fst] in Hc. injection Hc as <-. destruct (Ha c' eq_refl) as [Hk _].
    apply Forall_forall. intros name Hin. apply update_caps_is_Some.
    rewrite Hk; [|intros ->; revert Hin; not_listed].
    by apply (dict_display_is_Some _ _ _ Hd).
  - unfold ios_capabilities, bind, lift, ret in Hc.
    destruct (dict_display _) as [dc|] eqn:Hd; [|done].
    destruct (get_method pc "udid" VNone) as [u|]; [|done].
    destruct (get_method pc "app_path" VNone) as [p|]; [|done].
    match type of Hc with
    | context [add_app env p ?dc' m] =>
        pose proof (add_app_effect env p dc' m) as Ha; unfold ensures in Ha;
        destruct (add_app env p dc' m) as [[c'|e] m1]; [|done]
    end.
    cbn [fst] in Hc. injection Hc as <-. destruct (Ha c' eq_refl) as [Hk _].
    apply Forall_forall. intros name Hin. apply update_caps_is_Some.
    rewrite Hk; [|intros ->; revert Hin; not_listed].
    assert (is_Some (dc !! name)) as Hs.
    { by apply (dict_display_is_Some _ _ _ Hd). }
    destruct (truthy u); [|done].
    rewrite lookup_insert_ne; [done|].
    intros <-. revert Hin. not_listed.
Qed.

End proofs.

Lemma quit_driver_twice_witness :
  fst (quit_driver failing_after_open active) = Ret tt /\
  quit_driver steady (snd (quit_driver failing_after_open active))
  = (Ret tt, snd (quit_driver failing_after_open active)).
Proof.
  split; [reflexivity|].
  apply (proj2 (quit_driver_twice failing_after_open active)).
Defined.

Lemma restart_driver_unsupported_witness :
  fst (restart_driver steady (VDict []) "Windows" None
         (snd (start_android_driver steady (VDict []) None (init tt))))
    = Raise ValueError /\
  driver (snd (restart_driver steady (VDict []) "Windows" None
         (snd (start_android_driver steady (VDict []) None (init tt)))))
    = None.
Proof.
  destruct (restart_driver_unsupported steady (VDict []) "Windows" None
    (snd (start_android_driver steady (VDict []) None (init tt))))
    as (Hr & Hd & _).
  - apply reach_start_android, reach_init.
  - discriminate.
  - discriminate.
  - reflexivity.
  - reflexivity.
  - by split.
Defined.

Lemma start_success_witness :
  driver (snd (start_android_driver steady (VDict []) None (init tt)))
    = Some (Session 1) /\
  is_Some (wait (snd (start_ios_driver steady (VDict []) None (init tt)))).
Proof.
  split.
  - destruct (proj1 (start_success steady (VDict []) None (init tt)
      (Session 1)
      (snd (start_android_driver steady (VDict []) None (init tt))))
      eq_refl) as (_ & _ & _ & _ & _ & _ & _ & _ & _ & _ & Hd & _).
    exact Hd.
  - destruct (proj2 (start_success steady (VDict []) None (init tt)
      (Session 1)
      (snd (start_ios_driver steady (VDict []) None (init tt))))
      eq_refl) as (_ & _ & _ & _ & _ & _ & _ & _ & _ & _ & _ & Hw).
    destruct Hw as (_ & _ & _ & wt & _ & ->). by exists wt.
Defined.

Lemma app_capability_witness :
  exists c,
    fst (android_capabilities steady (VDict [])
           (VDict [ ("app_path", VStr "/apps/demo.apk") ]) None (init tt))
      = Ret c /\
    c !! "app" = None.
Proof.
  eexists. split; [reflexivity|].
  apply (app_capability steady (VDict [])
    (VDict [ ("app_path", VStr "/apps/demo.apk") ]) (init tt) _
    (VStr "/apps/demo.apk") eq_refl (or_introl eq_refl)).
Defined.

Lemma standard_capabilities_present_witness :
  exists c,
    fst (android_capabilities steady (VDict []) (VDict [])
           (Some {[ "platformName" := VNone ]}) (init tt)) = Ret c /\
    is_Some (c !! "platformName") /\ is_Some (c !! "newCommandTimeout").
Proof.
  eexists. split; [reflexivity|].
  pose proof (proj1 (standard_capabilities_present steady (VDict [])
    (VDict []) (Some {[ "platformName" := VNone ]}) (init tt) _) eq_refl)
    as H.
  rewrite Forall_forall in H. split; apply H.
  - by left.
  - do 10 right. by left.
Defined.

End DriverMore.
Module DeviceMore.
Import Py Eff Subprocess Device DeviceSpec DeviceApps EffProps DeviceProps.

(** *** White space *)






(** *** Records *)





Section proofs.
Context {W : Type}.
Implicit Types (env : host W) (s : state W).

Ltac wp :=
  repeat first
    [ wp_step
    | lazymatch goal with
      | |- ensures (run_checked _ _) _ _ =>
          apply ensures_run_checked; intros ? ? ?
      | |- ensures (logger _ _ _) _ _ => unfold logger
      end; cbv beta ].


(** X11: what else leaves [get_ios_devices].  With [xcrun] done, an
    exception of [json.loads] other than the two caught classes reaches
    the caller; so does [KeyError] when the document has no "devices"
    entry, and [AttributeError] when that entry is no mapping. *)
Theorem ios_discovery_malformed env s c w stdout :
  run env ["xcrun"; "simctl"; "list"; "devices"; "--json"] (world s)
    = (c, w) ->
  checked c = Ret stdout ->
  (forall e,
     json_loads env stdout = Raise e ->
     e <> CalledProcessError -> e <> FileNotFoundError ->
     fst (get_ios_devices env s) = Raise e) /\
  (forall d,
     json_loads env stdout = Ret (VDict d) ->
     dict_get d "devices" = None ->
     fst (get_ios_devices env s) = Raise KeyError) /\
  (forall d x,
     json_loads env stdout = Ret (VDict d) ->
     dict_get d "devices" = Some x ->
     is_dict x = false ->
     fst (get_ios_devices env s) = Raise AttributeError).
Proof.
  intros Hrun Hc.
  unfold get_ios_devices, try_except, bind, run_checked, lift.
  rewrite Hrun, Hc. split_and!.
  - intros e -> Hn1 Hn2. simpl. unfold catches_only.
    case_bool_decide as Hin; [|done].
    apply elem_of_cons in Hin as [?|Hin]; [done|].
    by apply list_elem_of_singleton in Hin.
  - intros d -> Hd. simpl. by rewrite Hd.
  - intros d x -> Hd Hx. simpl. rewrite Hd. by destruct x.
Qed.

(** *** Installing and removing applications *)

Lemma lower_ascii_twice c :
  Driver.lower_ascii (Driver.lower_ascii c) = Driver.lower_ascii c.
Proof. destruct c as [[] [] [] [] [] [] [] []]; reflexivity. Qed.

Lemma lower_twice p : Driver.lower (Driver.lower p) = Driver.lower p.
Proof.
  induction p as [|c p IH]; simpl; [done|].
  by rewrite lower_ascii_twice, IH.
Qed.

(** X12: the platform of [install_app] and [uninstall_app] is matched in
    lower case, and for a platform that is neither android nor ios no
    command is started: the method logs an error and returns [False]. *)
Theorem app_platform_dispatch env device_id target platform s :
  install_app env device_id target platform s
    = install_app env device_id target (Driver.lower platform) s /\
  uninstall_app env device_id target platform s
    = uninstall_app env device_id target (Driver.lower platform) s /\
  (Driver.lower platform <> "android" ->
   Driver.lower platform <> "ios" ->
   install_app env device_id target platform s
     = (Ret false,
        {| world := world s;
           log := log s ++ [LogEntry ERROR "不支持的平台: {platform}" None]
        |}) /\
   uninstall_app env device_id target platform s
     = (Ret false,
        {| world := world s;
           log := log s ++ [LogEntry ERROR "不支持的平台: {platform}" None]
        |})).
Proof.
  unfold install_app, uninstall_app. rewrite !lower_twice.
  split_and!; [done|done|]. intros Ha Hi.
  apply String.eqb_neq in Ha, Hi. by rewrite Ha, Hi.
Qed.

(** X13: when the command of an install or uninstall runs to its end,
    [False] is returned for a nonzero exit status; for status zero the
    Android methods return whether the output contains "Success", the iOS
    methods return [True]. *)
Theorem app_command_result env device_id target s returncode stdout w :
  (run env ["adb"; "-s"; device_id; "install"; "-r"; target] (world s)
     = (Exited returncode stdout, w) ->
   fst (_install_android_app env device_id target s)
   = Ret (bool_decide (returncode = 0) && is_substring "Success" stdout)) /\
  (run env ["adb"; "-s"; device_id; "uninstall"; target] (world s)
     = (Exited returncode stdout, w) ->
   fst (_uninstall_android_app env device_id target s)
   = Ret (bool_decide (returncode = 0) && is_substring "Success" stdout)) /\
  (run env ["xcrun"; "simctl"; "install"; device_id; target] (world s)
     = (Exited returncode stdout, w) ->
   fst (_install_ios_app env device_id target s)
   = Ret (bool_decide (returncode = 0))) /\
  (run env ["xcrun"; "simctl"; "uninstall"; device_id; target] (world s)
     = (Exited returncode stdout, w) ->
   fst (_uninstall_ios_app env device_id target s)
   = Ret (bool_decide (returncode = 0))).
Proof.
  unfold _install_android_app, _uninstall_android_app, _install_ios_app,
    _uninstall_ios_app, try_except, bind, run_checked.
  split_and!; intros ->; simpl;
    destruct (Z.eqb_spec returncode 0) as [->|Hne]; simpl;
    rewrite ?bool_decide_eq_false_2 by done;
    try destruct (is_substring "Success" stdout); done.
Qed.

(** X14: only [CalledProcessError] is caught around these commands.  When
    the command cannot be started, whatever is raised instead (for a
    missing executable, [FileNotFoundError]) leaves the method. *)
Theorem app_command_not_started env device_id target s e w :
  e <> CalledProcessError ->
  (run env ["adb"; "-s"; device_id; "install"; "-r"; target] (world s)
     = (Failed e, w) ->
   fst (_install_android_app env device_id target s) = Raise e /\
   fst (install_app env device_id target "android" s) = Raise e) /\
  (run env ["adb"; "-s"; device_id; "uninstall"; target] (world s)
     = (Failed e, w) ->
   fst (_uninstall_android_app env device_id target s) = Raise e) /\
  (run env ["xcrun"; "simctl"; "install"; device_id; target] (world s)
     = (Failed e, w) ->
   fst (_install_ios_app env device_id target s) = Raise e) /\
  (run env ["xcrun"; "simctl"; "uninstall"; device_id; target] (world s)
     = (Failed e, w) ->
   fst (_uninstall_ios_app env device_id target s) = Raise e).
Proof.
  intros Hne.
  assert (catches_only [CalledProcessError] e = false) as Hc.
  { unfold catches_only. apply bool_decide_eq_false_2.
    intros Hin. by apply list_elem_of_singleton in Hin. }
  unfold install_app, _install_android_app, _uninstall_android_app,
    _install_ios_app, _uninstall_ios_app, try_except, bind, run_checked.
  split_and!; intros Hrun; simpl; rewrite !Hrun; simpl; rewrite !Hc;
    by try split.
Qed.

End proofs.


Lemma ios_discovery_malformed_witness :
  fst (get_ios_devices
         {| run := fun _ w => (Exited 0 "{}", w);
            json_loads := fun _ => Ret (VDict []) |} (State tt []))
  = Raise KeyError.
Proof.
  eapply (proj1 (proj2 (ios_discovery_malformed
    {| run := fun _ w => (Exited 0 "{}", w);
       json_loads := fun _ => Ret (VDict []) |} (State tt [])
    _ _ _ eq_refl eq_refl))); reflexivity.
Defined.

Lemma app_platform_dispatch_witness :
  install_app mac_without_idevice "A1B2" "demo.app" "Windows" (State tt [])
  = (Ret false,
     State tt [LogEntry ERROR "不支持的平台: {platform}" None]).
Proof.
  apply (proj2 (proj2 (app_platform_dispatch mac_without_idevice "A1B2"
    "demo.app" "Windows" (State tt [])))); discriminate.
Defined.

Lemma app_command_result_witness :
  fst (_install_android_app
         {| run := fun _ w => (Exited 0 "Failure [INSTALL_FAILED]", w);
            json_loads := fun _ => Raise ValueError |}
         "emulator-5554" "demo.apk" (State tt []))
  = Ret false.
Proof.
  apply (proj1 (app_command_result
    {| run := fun _ w => (Exited 0 "Failure [INSTALL_FAILED]", w);
       json_loads := fun _ => Raise ValueError |}
    "emulator-5554" "demo.apk" (State tt []) 0
    "Failure [INSTALL_FAILED]" tt)).
  reflexivity.
Defined.

Lemma app_command_not_started_witness :
  fst (install_app mac_without_idevice "emulator-5554" "demo.apk" "Android"
         (State tt []))
  = Raise FileNotFoundError.
Proof.
  apply (proj1 (app_command_not_started mac_without_idevice
    "emulator-5554" "demo.apk" (State tt []) FileNotFoundError tt
    ltac:(discriminate))).
  reflexivity.
Defined.

End DeviceMore.
Module PageMore.
Import Py Eff Page PageSpec LoginPage ScrollSpec EffProps PageProps.

Section proofs.
Context {W : Type}.
Implicit Types (env : browser W) (s : state W) (config : value).

Lemma ensures_page_call {A} (f : W -> outcome A * W) s
    (Q : outcome A -> state W -> Prop) :
  (forall r w', f (world s) = (r, w') ->
     Q r {| world := w'; log := log s |}) ->
  ensures (call f) s Q.
Proof.
  unfold ensures, call. intros H. destruct (f (world s)) as [r w'] eqn:E.
  by apply H.
Qed.

Ltac wp :=
  repeat first
    [ wp_step
    | lazymatch goal with
      | |- ensures (call _) _ _ => apply ensures_page_call; intros ? ? ?
      | |- ensures (logger _ _ _) _ _ => unfold logger
      end; cbv beta ].

(** *** Scrolling to an element *)

Lemma is_element_present_absent env loc s :
  fst (driver_find_element env loc (world s)) = Raise NoSuchElementException ->
  exists w', is_element_present env loc s
             = (Ret false, {| world := w'; log := log s |}).
Proof.
  intros H. unfold is_element_present, try_except, bind, call, ret.
  destruct (driver_find_element env loc (world s)) as [r w'].
  simpl in H. subst r. simpl. by exists w'.
Qed.

Lemma getitem_raises a k e :
  getitem a k = Raise e -> is_Exception e = true.
Proof.
  destruct a as [| | | | |d]; simpl; try by intros [= <-].
  destruct (dict_get d k); [done|]. by intros [= <-].
Qed.

Lemma as_int_raises a e : as_int a = Raise e -> is_Exception e = true.
Proof. destruct a; simpl; try done; by intros [= <-]. Qed.

Lemma scroll_down_returns env distance s :
  (forall w e, fst (get_window_size env w) = Raise e ->
               is_Exception e = true) ->
  (forall x1 y1 x2 y2 d w e,
     fst (driver_swipe env x1 y1 x2 y2 d w) = Raise e ->
     is_Exception e = true) ->
  fst (scroll_down env distance s) = Ret tt.
Proof.
  intros Hsize Hswipe.
  assert (ensures (scroll_down env distance) s (fun r _ => r = Ret tt))
    as H; [|exact H].
  unfold scroll_down, swipe. wp; try done.
  all: exfalso.
  all: repeat match goal with
       | H : driver_swipe _ _ _ _ _ _ _ = (Raise ?e, _) |- _ =>
           pose proof (Hswipe _ _ _ _ _ _ e ltac:(by rewrite H)); clear H
       | H : get_window_size _ _ = (Raise ?e, _) |- _ =>
           pose proof (Hsize _ e ltac:(by rewrite H)); clear H
       | H : getitem ?a _ = Raise ?e |- _ =>
           apply getitem_raises in H
       | H : as_int ?a = Raise ?e |- _ =>
           apply as_int_raises in H
       end.
  all: congruence.
Qed.

Lemma scroll_loop_absent env loc n : forall s,
  never_present env loc ->
  fst (scroll_loop env loc n s) = Ret false.
Proof.
  induction n as [|n IH]; intros s Hnp; [done|].
  pose proof Hnp as (Hfind & Hsleep & Hsize & Hswipe).
  simpl. unfold bind at 1.
  destruct (is_element_present_absent env loc s (Hfind _)) as [w' ->].
  simpl. unfold bind at 1.
  pose proof (scroll_down_returns env None
    {| world := w'; log := log s |} Hsize Hswipe) as Hd.
  destruct (scroll_down env None _) as [r s1]. simpl in Hd. subst r.
  unfold bind at 1, call. specialize (Hsleep (world s1)).
  destruct (sleep env (world s1)) as [r w2]. simpl in Hsleep. subst r.
  by apply IH.
Qed.

(** X15: [scroll_to_element] on an element that never appears.  When
    every lookup raises [NoSuchElementException], the method returns
    [False] for every [max_scrolls], whether the scrolling in between
    works or fails; for [max_scrolls] of zero or less it returns [False]
    without a single request to the session. *)
Theorem scroll_to_element_absent env loc max_scrolls s :
  (never_present env loc ->
   fst (scroll_to_element env loc max_scrolls s) = Ret false) /\
  (max_scrolls <= 0 ->
   scroll_to_element env loc max_scrolls s
   = (Ret false,
      {| world := world s;
         log := log s ++
           [LogEntry WARNING "滚动查找元素失败: {locator}" None] |})).
Proof.
  unfold scroll_to_element. split.
  - intros Hnp. by apply scroll_loop_absent.
  - intros Hle. by rewrite Z2Nat.nonpos.
Qed.

(** *** Logging in *)

(** X16: [login] lets no exception of class [Exception] out, and it stops
    at the first step that fails: when waiting for the title of the login
    page ends in an exception, it returns [False] and the session has
    seen no request after that wait. *)
Theorem login_stops_at_first_failure env config username password s :
  contained (login env config username password) /\
  (forall e w',
     until_visible env LOGIN_TITLE (VInt 30) (world s) = (Raise e, w') ->
     is_Exception e = true ->
     fst (login env config username password s) = Ret false /\
     world (snd (login env config username password s)) = w').
Proof.
  split.
  - apply try_except_contained. intros e s'. by eexists.
  - intros e w' Hu He.
    unfold login, wait_for_page_load, wait_for_element_visible, try_except,
      bind, default_timeout, ret, call.
    simpl. rewrite Hu. simpl. unfold catches_only.
    case_bool_decide; simpl; [done|]. by rewrite He.
Qed.

End proofs.

(** X17: where the scroll gestures go.  On a window of width [w] and
    height [h], [scroll_down] asks for one swipe from [(w // 2,
    h * 2 // 3)] up by the distance and [scroll_up] for one from
    [(w // 2, h // 3)] down by it, the distance being [h // 3] unless
    given; with the default distance and a non-negative size both
    gestures stay inside the window. *)
Theorem scroll_gestures (w h : Z) (distance : option Z) :
  let d := match distance with Some d => d | None => h / 3 end in
  world (snd (scroll_down (screen (window w h)) distance (State [] [])))
    = [ (w / 2, h * 2 / 3, w / 2, h * 2 / 3 - d, 1000) ] /\
  world (snd (scroll_up (screen (window w h)) distance (State [] [])))
    = [ (w / 2, h / 3, w / 2, h / 3 + d, 1000) ] /\
  (0 <= w -> 0 <= h ->
   0 <= w / 2 <= w /\
   0 <= h * 2 / 3 - h / 3 <= h /\
   0 <= h * 2 / 3 <= h /\
   0 <= h / 3 <= h /\
   0 <= h / 3 + h / 3 <= h).
Proof.
  intros d. split_and!.
  - by destruct distance.
  - by destruct distance.
  - intros Hw Hh.
    pose proof (Z.div_pos w 2 Hw ltac:(lia)).
    pose proof (Z.div_pos h 3 Hh ltac:(lia)).
    pose proof (Z.mul_div_le w 2 ltac:(lia)).
    pose proof (Z.mul_div_le h 3 ltac:(lia)).
    pose proof (Z.mul_div_le (h * 2) 3 ltac:(lia)).
    pose proof (Z.div_le_mono h (h * 2) 3 ltac:(lia) ltac:(lia)).
    pose proof (Z.mul_succ_div_gt (h * 2) 3 ltac:(lia)).
    pose proof (Z.mul_succ_div_gt h 3 ltac:(lia)).
    lia.
Qed.

Lemma scroll_to_element_absent_witness :
  fst (scroll_to_element (screen (window 1080 1920)) login_button 3
         (State [] [])) = Ret false.
Proof.
  apply (proj1 (scroll_to_element_absent (screen (window 1080 1920))
    login_button 3 (State [] []))).
  split_and!; [done|done|discriminate|discriminate].
Defined.

Lemma login_stops_at_first_failure_witness :
  fst (login (always_raising WebDriverException) VNone "user" "secret"
         (State tt [])) = Ret false.
Proof.
  apply (proj2 (login_stops_at_first_failure
    (always_raising WebDriverException) VNone "user" "secret" (State tt []))
    WebDriverException tt eq_refl eq_refl).
Defined.

Lemma scroll_gestures_witness :
  0 <= 1920 * 2 / 3 - 1920 / 3 <= 1920.
Proof.
  apply (proj2 (proj2 (scroll_gestures 1080 1920 None))); lia.
Defined.

End PageMore.
Module HarnessProps.
Import Py Eff Subprocess Driver DriverSpec Harness EffProps DriverProps.

Section proofs.
Context {W : Type}.
Implicit Types (env : appium W) (t : test_case W).

Lemma ensures_on_manager {A} (c : M (manager W) A) t
    (Q : outcome A -> test_case W -> Prop) :
  ensures c (manager_of t) (fun r m' =>
    Q r {| manager_of := m'; own_driver := own_driver t;
           own_wait := own_wait t |}) ->
  ensures (on_manager c) t Q.
Proof.
  unfold ensures, on_manager. by destruct (c (manager_of t)) as [r m'].
Qed.

Lemma is_driver_alive_true env m :
  ensures (is_driver_alive env) m (fun r m' =>
    r = Ret true -> is_Some (driver m')).
Proof.
  unfold is_driver_alive, ensures, bind, gets, try_except, call, ret. simpl.
  destruct (driver m) as [d|] eqn:Hd; simpl; [|done].
  destruct (page_source env d (world m)) as [[src|e] w']; simpl.
  - intros _. rewrite Hd. by eexists.
  - by destruct (is_Exception e).
Qed.

Ltac wp :=
  repeat first
    [ wp_step
    | lazymatch goal with
      | |- ensures (Harness.logger _ _ _) _ _ =>
          unfold Harness.logger, Driver.logger; apply ensures_on_manager
      | |- ensures (set_own_driver _) _ _ => unfold set_own_driver
      | |- ensures (set_own_wait _) _ _ => unfold set_own_wait
      | |- ensures (on_manager get_wait) _ _ =>
          apply ensures_on_manager; unfold get_wait
      | |- ensures (on_manager (modify _)) _ _ => apply ensures_on_manager
      | |- ensures (on_manager (gets _)) _ _ => apply ensures_on_manager
      end; cbv beta ].

(** X18: when [setup_method] returns, the driver manager holds a
    session: either the liveness probe succeeded on the stored one, or
    [start_driver] has just opened one. *)
Theorem setup_method_leaves_session env config t :
  fst (setup_method env config t) = Ret tt ->
  is_Some (driver (manager_of (snd (setup_method env config t)))).
Proof.
  assert (ensures (setup_method env config) t (fun r t' =>
    r = Ret tt -> is_Some (driver (manager_of t')))) as H; [|exact H].
  unfold setup_method. wp. apply ensures_on_manager.
  eapply ensures_weaken; [apply is_driver_alive_true|].
  intros [alive|e] m1 Halive; cbv beta; [|done].
  destruct alive; simpl.
  - wp. simpl. intros _. by apply Halive.
  - clear Halive. unfold start_driver.
    change (String.eqb (lower "android") "android") with true. cbv iota.
    wp. apply ensures_on_manager.
    eapply ensures_weaken; [apply start_android_driver_post|].
    intros [d|e] m2 Hpost; cbv beta.
    + destruct Hpost as [Hd _]. wp; simpl; try done.
      all: intros _; rewrite Hd; by eexists.
    + destruct (is_Exception e); wp; simpl; done.
Qed.

End proofs.

Section devices.
Context {W : Type}.
Implicit Types (env : Device.host W) (s : Device.state W).

(** X19: [BaseTest.get_device_info] lets no exception of class
    [Exception] out.  It returns the first record of
    [get_android_devices], and [None] when there is none: when no device
    is listed, when [adb] is missing or exits with a nonzero status, and
    when discovery itself raises. *)
Theorem get_device_info_contained env s :
  (forall e, fst (get_device_info env s) = Raise e ->
             is_Exception e = false) /\
  (forall first rest,
     fst (Device.get_android_devices env s) = Ret (first :: rest) ->
     fst (get_device_info env s) = Ret (Some first)) /\
  (fst (Device.get_android_devices env s) = Ret [] ->
   fst (get_device_info env s) = Ret None) /\
  (DeviceSpec.tool_failed
     (fst (Device.run env ["adb"; "devices"] (Device.world s))) ->
   fst (get_device_info env s) = Ret None) /\
  (forall e,
     fst (Device.get_android_devices env s) = Raise e ->
     is_Exception e = true ->
     fst (get_device_info env s) = Ret None).
Proof.
  unfold get_device_info, try_except, bind.
  split_and!.
  - intros e. destruct (Device.get_android_devices env s) as [[[|d l]|e'] s'];
      simpl; try done.
    destruct (is_Exception e') eqn:He; simpl; [done|]. by intros [= <-].
  - intros first rest H.
    destruct (Device.get_android_devices env s) as [r s']. simpl in H.
    by subst r.
  - intros H.
    destruct (Device.get_android_devices env s) as [r s']. simpl in H.
    by subst r.
  - intros Hf.
    destruct (DeviceProps.get_android_devices_tool_failed env s Hf) as [H _].
    destruct (Device.get_android_devices env s) as [r s']. simpl in H.
    by subst r.
  - intros e H He.
    destruct (Device.get_android_devices env s) as [r s']. simpl in H.
    subst r. simpl. by rewrite He.
Qed.

End devices.

Lemma setup_method_leaves_session_witness :
  is_Some (driver (manager_of (snd (setup_method steady (VDict [])
    {| manager_of := init tt; own_driver := None; own_wait := None |})))).
Proof.
  apply (setup_method_leaves_session steady (VDict [])
    {| manager_of := init tt; own_driver := None; own_wait := None |}).
  reflexivity.
Defined.

Lemma get_device_info_contained_witness :
  fst (get_device_info DeviceSpec.mac_without_idevice (Device.State tt []))
  = Ret None.
Proof.
  apply (proj1 (proj2 (proj2 (proj2 (get_device_info_contained
    DeviceSpec.mac_without_idevice (Device.State tt [])))))).
  by right.
Defined.

End HarnessProps.
Module RunnerMore.
Import Py Eff Subprocess Runner RunnerSpec RunnerMoreSpec EffProps RunnerProps.

Section proofs.
Context {W : Type}.
Implicit Types (env : tools W) (s : state W).

Lemma bind_ext {S A B} (m : M S A) (k k' : A -> M S B) (s : S) :
  (forall a (s' : S), m s = (Ret a, s') -> k a s' = k' a s') ->
  bind m k s = bind m k' s.
Proof.
  intros H. unfold bind. destruct (m s) as [[a|e] s']; [by apply H|done].
Qed.

Lemma try_except_ext {S A} (m m' : M S A) f h (s : S) :
  m s = m' s -> try_except m f h s = try_except m' f h s.
Proof. intros H. unfold try_except. by rewrite H. Qed.

(** X20: a collect-only run consults nothing but pytest.  Two tool sets
    that start the same processes give the same result, the same state and
    the same log, whatever their report tools and report directories
    are. *)
Theorem collect_only_consults_pytest_only env env' tp mk wk rt rr vb s :
  subprocess_run env = subprocess_run env' ->
  run_tests env tp mk wk rt rr vb true s
  = run_tests env' tp mk wk rt rr vb true s.
Proof.
  intros Hsub. unfold run_tests, run_unchecked. simpl. by rewrite Hsub.
Qed.




End proofs.

Lemma collect_only_consults_pytest_only_witness :
  run_tests (pytest_exits 5) None None None "both" 0 false true start
  = run_tests
      (with_generate (pytest_exits 5) (fun w => (Raise OSError, w)))
      None None None "both" 0 false true start.
Proof.
  by apply (collect_only_consults_pytest_only (pytest_exits 5)).
Defined.

End RunnerMore.
Module HelpersProps.
Import Py Eff Config Helpers HelpersSpec ConfigProps EffProps.

(** *** [merge_dicts] *)

Lemma update_get result d k :
  NoDup (keys d) ->
  dict_get (update result d) k
  = match dict_get d k with
    | Some v => Some v
    | None => dict_get result k
    end.
Proof.
  unfold update. revert result.
  induction d as [|[k' v'] d IH]; intros result Hnd; simpl; [done|].
  apply NoDup_cons in Hnd as [Hk Hnd]. rewrite IH by done.
  destruct (String.eqb k' k) eqn:E.
  - apply String.eqb_eq in E. subst k'.
    rewrite dict_get_notin by done. apply dict_get_set_eq.
  - apply String.eqb_neq in E. by rewrite dict_get_set_ne.
Qed.

Lemma merge_fold_get dicts k : forall acc,
  Forall (fun d => wf d = true) dicts ->
  dict_get
    (fold_left (fun result d =>
                  match d with
                  | VDict items => update result items
                  | _ => result
                  end) dicts acc) k
  = match last_binding dicts k with
    | Some v => Some v
    | None => dict_get acc k
    end.
Proof.
  unfold last_binding.
  induction dicts as [|d dicts IH] using rev_ind; intros acc Hwf; [done|].
  apply Forall_app in Hwf as [Hwf Hd]. apply Forall_cons in Hd as [Hd _].
  rewrite !fold_left_app. simpl.
  destruct d as [| | | | |items]; try by apply IH.
  apply wf_dict in Hd as [Hnd _]. rewrite update_get by done.
  destruct (dict_get items k); [done|]. by apply IH.
Qed.

(** X22: in [merge_dicts] the last mapping that has a key decides its
    value, arguments that are not mappings are skipped, and a key no
    mapping has is absent from the result. *)
Theorem merge_dicts_last_wins dicts :
  Forall (fun d => wf d = true) dicts ->
  exists result,
    merge_dicts dicts = VDict result /\
    forall k, dict_get result k = last_binding dicts k.
Proof.
  intros Hwf. eexists. split; [reflexivity|]. intros k.
  rewrite merge_fold_get by done. by destruct (last_binding dicts k).
Qed.

Lemma merge_dicts_last_wins_witness :
  exists result,
    merge_dicts [VDict [("a", VInt 1); ("b", VInt 2)]; VNone;
                 VDict [("b", VInt 3)]] = VDict result /\
    forall k, dict_get result k
              = last_binding [VDict [("a", VInt 1); ("b", VInt 2)]; VNone;
                              VDict [("b", VInt 3)]] k.
Proof.
  apply (merge_dicts_last_wins
           [VDict [("a", VInt 1); ("b", VInt 2)]; VNone;
            VDict [("b", VInt 3)]]).
  repeat constructor.
Defined.

(** *** [safe_get_nested_value] *)

(** X23: [safe_get_nested_value] is [ConfigManager.get] on the given
    data: walking a path raises nothing but [KeyError] and [TypeError],
    so the extra [AttributeError] clause changes no result, and the
    function always returns. *)
Theorem safe_get_nested_value_is_get data key_path default :
  safe_get_nested_value data key_path default
  = Config.get data key_path default /\
  exists v, safe_get_nested_value data key_path default = Ret v.
Proof.
  unfold safe_get_nested_value, Config.get, otry. cbv zeta.
  destruct (walk_total (split "." key_path) data) as [[v ->]|[->| ->]];
    eauto.
Qed.

(** *** [truncate_string] *)







(** *** [retry_on_exception] *)

Section retry.
Context {W A : Type}.
Variable func : W -> outcome A * W.
Variable sleep : W -> outcome unit * W.
Variable exceptions : exn -> bool.
Implicit Types s : state W.

Lemma attempts_all_fail e n : forall remaining attempt last s,
  always_fails func e ->
  exceptions e = true ->
  returns sleep ->
  attempt + Z.of_nat remaining = n + 1 ->
  (remaining = O -> last = Some e) ->
  exists s',
    attempts func sleep exceptions n attempt remaining last s
    = (Raise e, s') /\
    log s'
    = (log s ++ match remaining with
                | O => []
                | S k => warnings e k ++ [gave_up]
                end)%list.
Proof.
  induction remaining as [|k IH]; intros attempt last s Hf He Hs Hn Hl.
  - rewrite (Hl eq_refl). exists s. by rewrite app_nil_r.
  - cbn [attempts]. unfold try_except, call at 1.
    pose proof (Hf (world s)) as Hf0.
    destruct (func (world s)) as [r w1]. cbn [fst] in Hf0. subst r.
    rewrite He.
    destruct (Z.ltb_spec attempt n) as [Hlt|Hge].
    + destruct k as [|k]; [lia|].
      unfold bind at 1 2, logger, modify, call.
      destruct (Hs w1) as [[] Hsl]. cbn [world log].
      destruct (sleep w1) as [r2 w2]. cbn [fst] in Hsl. subst r2.
      assert (attempt + 1 + Z.of_nat (S k) = n + 1) as Hn' by lia.
      assert (S k = O -> Some e = Some e) as Hl' by done.
      destruct (IH (attempt + 1) (Some e)
                  {| world := w2;
                     log := log s ++ [LogEntry WARNING
                       "函数 {func.__name__} 第 {attempt + 1} 次尝试失败: {e}"
                       (Some e)] |} Hf He Hs Hn' Hl') as (s' & Hr & Hlog).
      exists s'. split; [done|]. rewrite Hlog. simpl.
      by rewrite <- app_assoc.
    + destruct k as [|k]; [|lia]. eexists. split; [reflexivity|].
      simpl. done.
Qed.

(** X26: when every call fails with a listed exception, the wrapper makes
    [max_retries + 1] attempts and raises that exception: the log gains
    one warning for each of the first [max_retries] failures and one
    error for the last. *)
Theorem retry_exhausted e max_retries s :
  always_fails func e ->
  exceptions e = true ->
  returns sleep ->
  0 <= max_retries ->
  fst (wrapper func sleep exceptions max_retries s) = Raise e /\
  log (snd (wrapper func sleep exceptions max_retries s))
  = (log s ++ warnings e (Z.to_nat max_retries) ++ [gave_up])%list.
Proof.
  intros Hf He Hs Hn. unfold wrapper.
  assert (0 + Z.of_nat (Z.to_nat (max_retries + 1)) = max_retries + 1)
    as Hn' by lia.
  assert (Z.to_nat (max_retries + 1) = O -> @None exn = Some e)
    as Hl' by lia.
  destruct (attempts_all_fail e max_retries
              (Z.to_nat (max_retries + 1)) 0 None s Hf He Hs Hn' Hl')
    as (s' & -> & Hlog).
  split; [done|]. cbn [snd]. rewrite Hlog.
  replace (Z.to_nat (max_retries + 1)) with (S (Z.to_nat max_retries))
    by lia.
  done.
Qed.

(** X27: with a negative [max_retries] the loop body never runs: the
    function is not called, nothing is logged, and [raise None] ends the
    wrapper with a [TypeError]. *)
Theorem retry_without_attempts max_retries s :
  max_retries < 0 ->
  wrapper func sleep exceptions max_retries s = (Raise TypeError, s).
Proof.
  intros Hn. unfold wrapper.
  by replace (Z.to_nat (max_retries + 1)) with O by lia.
Qed.

(** X28: the first attempt is final when it returns, or raises an
    exception that is not listed: the wrapper gives that result at once,
    without a log record, a pause or a second call. *)
Theorem retry_first_attempt_final max_retries s r w' :
  0 <= max_retries ->
  func (world s) = (r, w') ->
  (forall e, r = Raise e -> exceptions e = false) ->
  wrapper func sleep exceptions max_retries s
  = (r, {| world := w'; log := log s |}).
Proof.
  intros Hn Hf Hr. unfold wrapper.
  replace (Z.to_nat (max_retries + 1)) with (S (Z.to_nat max_retries))
    by lia.
  simpl. unfold try_except, call at 1. rewrite Hf.
  destruct r as [a|e]; [done|]. by rewrite (Hr e eq_refl).
Qed.

End retry.

Lemma retry_exhausted_witness :
  fst (wrapper (A := unit) (fun w : unit => (Raise ValueError, w))
         (fun w => (Ret tt, w)) is_Exception 3
         {| world := tt; log := [] |}) = Raise ValueError /\
  log (snd (wrapper (A := unit) (fun w : unit => (Raise ValueError, w))
              (fun w => (Ret tt, w)) is_Exception 3
              {| world := tt; log := [] |}))
  = ([] ++ warnings ValueError (Z.to_nat 3) ++ [gave_up])%list.
Proof.
  apply (retry_exhausted (A := unit) (fun w : unit => (Raise ValueError, w))
           (fun w => (Ret tt, w)) is_Exception ValueError 3
           {| world := tt; log := [] |}).
  - by intros w.
  - reflexivity.
  - intros w. by exists tt.
  - lia.
Defined.

Lemma retry_without_attempts_witness :
  wrapper (A := unit) (fun w : unit => (Ret tt, w)) (fun w => (Ret tt, w))
    is_Exception (-1) {| world := tt; log := [] |}
  = (Raise TypeError, {| world := tt; log := [] |}).
Proof.
  apply (retry_without_attempts (A := unit) (fun w : unit => (Ret tt, w))
           (fun w => (Ret tt, w)) is_Exception (-1)
           {| world := tt; log := [] |}).
  lia.
Defined.

Lemma retry_first_attempt_final_witness :
  wrapper (A := unit) (fun w : unit => (Raise KeyboardInterrupt, w))
    (fun w => (Ret tt, w)) is_Exception 3 {| world := tt; log := [] |}
  = (Raise KeyboardInterrupt, {| world := tt; log := [] |}).
Proof.
  apply (retry_first_attempt_final (A := unit)
           (fun w : unit => (Raise KeyboardInterrupt, w))
           (fun w => (Ret tt, w)) is_Exception 3
           {| world := tt; log := [] |} (Raise KeyboardInterrupt) tt).
  - lia.
  - reflexivity.
  - by intros e [= <-].
Defined.

End HelpersProps.
Module ReportProps.
Import Py Eff Subprocess Report ReportSpec EffProps.

Section proofs.
Context {W : Type}.
Implicit Types (env : os W) (s : state W).

Lemma ensures_os_call {A} (f : W -> outcome A * W) s
    (Q : outcome A -> state W -> Prop) :
  (forall r w', f (world s) = (r, w') ->
     Q r {| world := w'; log := log s |}) ->
  ensures (call f) s Q.
Proof.
  unfold ensures, call. intros H. destruct (f (world s)) as [r w'] eqn:E.
  by apply H.
Qed.

Lemma ensures_os_query (f : W -> bool * W) s
    (Q : outcome bool -> state W -> Prop) :
  (forall b w', f (world s) = (b, w') ->
     Q (Ret b) {| world := w'; log := log s |}) ->
  ensures (query f) s Q.
Proof.
  unfold ensures, query. intros H. destruct (f (world s)) as [b w'] eqn:E.
  by apply H.
Qed.

Lemma ensures_allure_checked env cmd s
    (Q : outcome string -> state W -> Prop) :
  (forall c w', subprocess_run env cmd (world s) = (c, w') ->
     Q (checked c) {| world := w'; log := log s |}) ->
  ensures (run_checked env cmd) s Q.
Proof.
  unfold ensures, run_checked. intros H.
  destruct (subprocess_run env cmd (world s)) as [c w'] eqn:E. by apply H.
Qed.

Lemma ensures_allure_unchecked env cmd s
    (Q : outcome Z -> state W -> Prop) :
  (forall c w', subprocess_run env cmd (world s) = (c, w') ->
     Q (unchecked c) {| world := w'; log := log s |}) ->
  ensures (run_unchecked env cmd) s Q.
Proof.
  unfold ensures, run_unchecked. intros H.
  destruct (subprocess_run env cmd (world s)) as [c w'] eqn:E. by apply H.
Qed.

Ltac wp :=
  repeat first
    [ wp_step
    | lazymatch goal with
      | |- ensures (call _) _ _ => apply ensures_os_call; intros ? ? ?
      | |- ensures (query _) _ _ => apply ensures_os_query; intros ? ? ?
      | |- ensures (run_checked _ _) _ _ =>
          apply ensures_allure_checked; intros ? ? ?
      | |- ensures (run_unchecked _ _) _ _ =>
          apply ensures_allure_unchecked; intros ? ? ?
      | |- ensures (logger _ _ _) _ _ => unfold logger
      end; cbv beta ].

(** What [generate_allure_report] guarantees, as a postcondition. *)
Lemma generate_allure_report_post env ard hrd clean_first s :
  ensures (generate_allure_report env ard hrd clean_first) s (fun r s' =>
    (forall e, r = Raise e -> is_Exception e = false) /\
    (r = Ret true ->
     exists w w1 out1 out2,
       subprocess_run env version_command w = (Exited 0 out1, w1) /\
       subprocess_run env (generate_command ard hrd) w1
       = (Exited 0 out2, world s'))).
Proof.
  unfold generate_allure_report. wp.
  all: try (split; [intros ? [= <-]; done|done]).
  all: try (split; [done|done]).
  all: try (split; [by intros ? [= <-]|intros [=]]).
  all: cbn [world log] in *.
  all: destruct c as [rc out1|e1]; [|done];
    destruct c0 as [rc0 out2|e2]; [|done].
  all: simpl in *; destruct (Z.eqb_spec rc 0); [|done]; simplify_eq.
  all: match goal with
       | H : (_ =? 0) = true |- _ => apply Z.eqb_eq in H
       end; subst; eauto 10.
Qed.

(** X29: [generate_allure_report] lets no exception of class
    [Exception] out, and it reports success only when [allure --version]
    ended with status 0 and the [allure generate] command, run in the
    world the version check left, ended with status 0 as well. *)
Theorem generate_allure_report_success env ard hrd clean_first s :
  (forall e,
     fst (generate_allure_report env ard hrd clean_first s) = Raise e ->
     is_Exception e = false) /\
  (fst (generate_allure_report env ard hrd clean_first s) = Ret true ->
   exists w w1 out1 out2,
     subprocess_run env version_command w = (Exited 0 out1, w1) /\
     subprocess_run env (generate_command ard hrd) w1
     = (Exited 0 out2,
        world (snd (generate_allure_report env ard hrd clean_first s)))).
Proof. apply generate_allure_report_post. Qed.

Lemma generate_without_allure env ard hrd clean_first s :
  allure_unusable env ->
  fst (generate_allure_report env ard hrd clean_first s) <> Ret true.
Proof.
  intros Hun Hr.
  destruct (generate_allure_report_post env ard hrd clean_first s)
    as [_ Hok].
  destruct (Hok Hr) as (w & w1 & out1 & out2 & Hv & _).
  specialize (Hun w). rewrite Hv in Hun. by simpl in Hun.
Qed.

Lemma open_when_generation_fails env ard hrd s :
  no_report env hrd ->
  allure_unusable env ->
  let s1 :=
    {| world :=
         snd (path_exists env (path_join env hrd "index.html") (world s));
       log := log s ++ [LogEntry WARNING "Allure报告不存在，正在生成..."
                          None] |} in
  open_allure_report env ard hrd s
  = match generate_allure_report env ard hrd true s1 with
    | (Ret _, s2) => (Ret false, s2)
    | (Raise e, s2) =>
        if is_Exception e then
          (Ret false,
           {| world := world s2;
              log := log s2 ++ [LogEntry ERROR "打开Allure报告失败: {e}"
                                  (Some e)] |})
        else (Raise e, s2)
    end.
Proof.
  intros Hno Hun. cbv zeta.
  unfold open_allure_report, try_except, bind, query, logger, modify, ret.
  pose proof (Hno (world s)) as Hp.
  destruct (path_exists env _ (world s)) as [b w']. cbn [fst snd] in *.
  subst b. cbn [negb world log].
  match goal with
  | |- context [generate_allure_report env ard hrd true ?s1] =>
      pose proof (generate_without_allure env ard hrd true s1 Hun) as Hg;
      destruct (generate_allure_report env ard hrd true s1)
        as [[[]|e] s2]
  end; [done|done|].
  by destruct (is_Exception e).
Qed.

(** X30: with no report on disk and no working [allure] tool,
    [open_allure_report] does not report success and never reaches
    [subprocess.Popen]: result, state and log are the same whatever
    starting a process would do. *)
Theorem open_without_allure env ard hrd start s :
  no_report env hrd ->
  allure_unusable env ->
  open_allure_report (with_popen env start) ard hrd s
  = open_allure_report env ard hrd s /\
  fst (open_allure_report env ard hrd s) <> Ret true.
Proof.
  intros Hno Hun.
  rewrite (open_when_generation_fails (with_popen env start) ard hrd s)
    by done.
  rewrite (open_when_generation_fails env ard hrd s) by done.
  split; [reflexivity|].
  destruct (generate_allure_report env ard hrd true _) as [[b|e] s2];
    [done|].
  by destruct (is_Exception e).
Qed.

End proofs.

Lemma open_without_allure_witness :
  open_allure_report
    (with_popen bare (fun _ w => (Ret tt, w))) "reports/allure-results"
    "reports/html" {| world := tt; log := [] |}
  = open_allure_report bare "reports/allure-results" "reports/html"
      {| world := tt; log := [] |} /\
  fst (open_allure_report bare "reports/allure-results" "reports/html"
         {| world := tt; log := [] |}) <> Ret true.
Proof.
  apply (open_without_allure bare "reports/allure-results" "reports/html"
           (fun _ w => (Ret tt, w)) {| world := tt; log := [] |}).
  - by intros w.
  - by intros w.
Defined.

End ReportProps.

Module DriverTraceProps.
Import Py Eff Driver DriverSpec DriverTrace EffProps DriverProps.

Section proofs.
Context {W : Type}.
Implicit Types (env : appium W) (m : manager (W * list event)).

Lemma ensures_traced_call {A} (f : W -> outcome A * W)
    (ev : outcome A -> event) m
    (Q : outcome A -> manager (W * list event) -> Prop) :
  (forall r w', f (fst (world m)) = (r, w') ->
     Q r {| world := (w', (snd (world m) ++ [ev r])%list);
            driver := driver m;
            wait := wait m; log := log m |}) ->
  ensures (call (observe f ev)) m Q.
Proof.
  unfold ensures, call, observe. intros H.
  destruct (f (fst (world m))) as [r w'] eqn:E. by apply H.
Qed.

Ltac wp :=
  repeat first
    [ progress cbn [world driver wait log fst snd]
    | wp_step
    | lazymatch goal with
      | |- ensures (call (observe _ _)) _ _ =>
          apply ensures_traced_call; intros ? ? _
      | |- ensures (call (path_exists (traced _) _)) _ _ =>
          apply ensures_traced_call; intros ? ? _
      | |- ensures (call (Remote (traced _) _ _)) _ _ =>
          apply ensures_traced_call; intros ? ? _
      | |- ensures (call (implicitly_wait (traced _) _ _)) _ _ =>
          apply ensures_traced_call; intros ? ? _
      | |- ensures (call (new_wait (traced _) _ _)) _ _ =>
          apply ensures_traced_call; intros ? ? _
      | |- ensures (logger _ _ _) _ _ => unfold logger
      | |- ensures (set_driver _) _ _ => unfold set_driver
      | |- ensures (set_wait _) _ _ => unfold set_wait
      end; cbv beta ].

Lemma requested_app t1 t2 :
  requested (t1 ++ t2) = (requested t1 ++ requested t2)%list.
Proof.
  induction t1 as [|[url c r|n f] t1 IH]; simpl; [done| |done].
  by rewrite IH.
Qed.

(** Assembling the capabilities asks only whether the application file
    exists. *)
Lemma add_app_record env app_path c m :
  ensures (add_app (traced env) app_path c) m (fun r m' =>
    driver m' = driver m /\ wait m' = wait m /\ log m' = log m /\
    exists f,
      snd (world m') = (snd (world m) ++
        match f with
        | Some f => [Called "os.path.exists" f]
        | None => []
        end)%list /\
      match f with
      | Some (Some e) => r = Raise e
      | _ => exists c', r = Ret c'
      end).
Proof.
  unfold add_app. wp; simpl; split_and!; try done.
  all: first [ by exists None; rewrite ?app_nil_r; eauto
             | by eexists (Some _); split; [reflexivity|simpl; eauto] ].
Qed.

Lemma opened_app t1 t2 :
  opened (t1 ++ t2)
  = match opened t2 with
    | Some d => Some d
    | None => opened t1
    end.
Proof.
  induction t1 as [|[url c [d|e]|n f] t1 IH]; simpl;
    [by destruct (opened t2)|..]; rewrite ?IH; try done.
  by destruct (opened t2), (opened t1).
Qed.

Lemma calm_app t1 t2 : calm t1 -> calm t2 -> calm (t1 ++ t2).
Proof. unfold calm. intros. by apply Forall_app. Qed.

Lemma calm_not_raised t ev e : calm t -> ev ∈ t -> raised ev <> Some e.
Proof.
  unfold calm. rewrite Forall_forall. intros Hc Hin Hr.
  specialize (Hc ev Hin). congruence.
Qed.

Lemma step_ok_raised {A} (r : outcome A) evs ev e :
  step_ok r evs -> ev ∈ evs -> raised ev = Some e -> r = Raise e.
Proof.
  destruct r as [a|e']; simpl.
  - intros Hc Hin Hr. by destruct (calm_not_raised _ _ _ Hc Hin Hr).
  - intros [Hc|(evs0 & ev0 & -> & Hc & Hr0)] Hin Hr.
    + by destruct (calm_not_raised _ _ _ Hc Hin Hr).
    + apply elem_of_app in Hin as [Hin|Hin].
      * by destruct (calm_not_raised _ _ _ Hc Hin Hr).
      * apply list_elem_of_singleton in Hin. subst ev0. congruence.
Qed.

Lemma step_ok_app {A B} (r : outcome B) evs1 evs2 (a : A) :
  step_ok (Ret a) evs1 -> step_ok r evs2 -> step_ok r (evs1 ++ evs2).
Proof.
  simpl. intros H1. destruct r as [b|e]; simpl.
  - by apply calm_app.
  - intros [H2|(evs0 & ev & -> & H2 & Hr)].
    + left. by apply calm_app.
    + right. exists (evs1 ++ evs0)%list, ev.
      rewrite app_assoc. split_and!; [done| |done]. by apply calm_app.
Qed.

Ltac record_of evs :=
  exists evs; cbn [world driver wait log fst snd];
  rewrite <- ?app_assoc, ?app_nil_r.

Lemma add_app_part env app_path c m :
  ensures (add_app (traced env) app_path c) m (fun r m' =>
    part_post m r m' [] /\ log m' = log m /\ wait m' = wait m /\
    forall c', r = Ret c' ->
      forall k, k <> "app" -> c' !! k = c !! k).
Proof.
  unfold add_app, part_post. wp; (split; [|split; [done|split; [done|]]]).
  all: try (intros c' [= <-] k Hk; by rewrite ?lookup_insert_ne).
  all: try (intros c' [=]).
  - record_of [Called "os.path.exists" None]. split_and!; try done.
    by repeat constructor.
  - record_of [Called "os.path.exists" None]. split_and!; try done.
    by repeat constructor.
  - record_of [Called "os.path.exists" (Some e)]. split_and!; try done.
    right. exists [], (Called "os.path.exists" (Some e)).
    split_and!; [done|constructor|done].
  - record_of (@nil event). split_and!; try done. constructor.
Qed.

Lemma part_post_trans {A B} m m1 m2 (a : A) (r : outcome B) asked1 asked2 :
  part_post m (Ret a) m1 asked1 ->
  part_post m1 r m2 asked2 ->
  (forall e, r = Raise e -> wait m1 = wait m) ->
  part_post m r m2 (asked1 ++ asked2)%list.
Proof.
  intros (evs1 & Ht1 & Hok1 & Hq1 & Hd1 & _)
         (evs2 & Ht2 & Hok2 & Hq2 & Hd2 & Hw2) Hw1.
  exists (evs1 ++ evs2)%list. split_and!.
  - by rewrite Ht2, Ht1, app_assoc.
  - by eapply step_ok_app.
  - by rewrite requested_app, Hq1, Hq2.
  - rewrite opened_app, Hd2, Hd1. by destruct (opened evs2).
  - intros e He. rewrite (Hw2 e He). by apply (Hw1 e).
Qed.

Lemma part_post_refl {A} m (r : outcome A) :
  part_post m r m [].
Proof.
  exists []. rewrite app_nil_r. split_and!; try done.
  destruct r; simpl; [constructor|left; constructor].
Qed.

Lemma part_post_raise {A B} m e m' asked :
  part_post m (@Raise A e) m' asked -> part_post m (@Raise B e) m' asked.
Proof.
  intros (evs & Ht & Hok & Hq & Hd & Hw). exists evs.
  split_and!; try done. intros e' [= <-]. by apply (Hw e).
Qed.

Lemma android_capabilities_part env ac pc o m :
  ensures (android_capabilities (traced env) ac pc o) m (fun r m' =>
    part_post m r m' [] /\ log m' = log m /\ wait m' = wait m).
Proof.
  unfold android_capabilities. wp.
  all: try (split_and!; [apply part_post_refl|done|done]).
  all: eapply ensures_weaken; [apply add_app_part|];
    intros [c'|e] m1 (Hp & Hl & Hw & _); cbv beta; wp.
  all: destruct Hp as (evs & Ht & Hok & Hq & Hd & Hw').
  all: split_and!; [by exists evs|done|done].
Qed.

Lemma ios_capabilities_part env ac pc o m :
  ensures (ios_capabilities (traced env) ac pc o) m (fun r m' =>
    part_post m r m' [] /\ log m' = log m /\ wait m' = wait m).
Proof.
  unfold ios_capabilities. wp.
  all: try (split_and!; [apply part_post_refl|done|done]).
  all: eapply ensures_weaken; [apply add_app_part|];
    intros [c'|e] m1 (Hp & Hl & Hw & _); cbv beta; wp.
  all: destruct Hp as (evs & Ht & Hok & Hq & Hd & Hw').
  all: split_and!; [by exists evs|done|done].
Qed.

Ltac solve_calm := by repeat constructor.

Ltac solve_step_ok :=
  simpl;
  first
    [ solve_calm
    | left; solve_calm
    | right;
      first
        [ eexists [], _; split_and!; [reflexivity|solve_calm|reflexivity]
        | eexists [_], _; split_and!; [reflexivity|solve_calm|reflexivity]
        | eexists [_; _], _;
          split_and!; [reflexivity|solve_calm|reflexivity]
        | eexists [_; _; _], _;
          split_and!; [reflexivity|solve_calm|reflexivity] ] ].

Ltac solve_part :=
  unfold part_post; eexists; cbn [world driver wait log fst snd];
  rewrite <- ?app_assoc;
  split; [first [reflexivity | symmetry; apply app_nil_r]|];
  split_and!; [solve_step_ok|try reflexivity|try reflexivity|try done].

Lemma open_session_part env ac tc c t1 t2 m :
  ensures (open_session (traced env) ac tc c t1 t2) m (fun r m' =>
    part_post m r m' (if server_known ac then [c] else []) /\
    (forall d, r = Ret d ->
       driver m' = Some d /\ is_Some (wait m') /\
       server_known ac = true)).
Proof.
  unfold open_session, server_known. wp.
  all: repeat match goal with
              | H : get_method _ _ _ = _ |- _ => rewrite ?H; clear H
              end.
  all: split; [solve_part|try done].
  intros d [= <-]. by split_and!; [|eexists|].
Qed.

Lemma start_android_part env config o m :
  ensures (start_android_driver (traced env) config o) m
    (start_post_traced m (android_asked env config o m)).
Proof.
  unfold start_android_driver, android_asked, start_post_traced.
  apply ensures_try_except.
  eapply ensures_weaken with (Q := fun r m' =>
    part_post m r m'
      match get_appium_config config, get_android_config config,
            get_test_config config with
      | Ret appium_config, Ret android_config, Ret _ =>
          match fst (android_capabilities (traced env) appium_config
                       android_config o m) with
          | Ret c => if server_known appium_config then [c] else []
          | Raise _ => []
          end
      | _, _, _ => []
      end /\
    (forall d, r = Ret d -> driver m' = Some d /\
       exists c,
         match get_appium_config config, get_android_config config,
               get_test_config config with
         | Ret appium_config, Ret android_config, Ret _ =>
             match fst (android_capabilities (traced env) appium_config
                          android_config o m) with
             | Ret c => if server_known appium_config then [c] else []
             | Raise _ => []
             end
         | _, _, _ => []
         end = [c])).
  - wp. all: try (split; [apply part_post_refl|done]).
    match goal with
    | |- ensures (android_capabilities _ ?ac ?pc _) _ _ =>
        pose proof (android_capabilities_part env ac pc o m) as Hcap
    end.
    unfold ensures in Hcap. unfold ensures at 1.
    destruct (android_capabilities (traced env) _ _ o m) as [[c|e] m1];
      cbn [fst snd] in *; destruct Hcap as (Hp & Hl & Hw);
      [|split; [by eapply part_post_raise|intros d [=]]].
    eapply ensures_weaken; [apply open_session_part|].
    intros r m2 (Hp2 & Hd). split.
    + apply (part_post_trans m m1 m2 c r [] _ Hp Hp2). by intros.
    + intros d Hr. destruct (Hd d Hr) as (Hd1 & _ & Hk).
      split; [done|]. rewrite Hk. by eexists.
  - intros [d|e] m1 (Hp & Hd); cbv beta.
    + split_and!; [done|done|]. intros d' [= <-]. by apply Hd.
    + destruct (is_Exception e) eqn:He; wp.
      * split_and!; [|intros e' [= <-] _; eexists; by rewrite last_snoc
                    |done].
        destruct Hp as (evs & ? & ? & ? & ? & ?). by exists evs.
      * split_and!; [done|intros e' [= <-]; congruence|done].
Qed.

Lemma start_ios_part env config o m :
  ensures (start_ios_driver (traced env) config o) m
    (start_post_traced m (ios_asked env config o m)).
Proof.
  unfold start_ios_driver, ios_asked, start_post_traced.
  apply ensures_try_except.
  eapply ensures_weaken with (Q := fun r m' =>
    part_post m r m'
      match get_appium_config config, get_ios_config config,
            get_test_config config with
      | Ret appium_config, Ret ios_config, Ret _ =>
          match fst (ios_capabilities (traced env) appium_config
                       ios_config o m) with
          | Ret c => if server_known appium_config then [c] else []
          | Raise _ => []
          end
      | _, _, _ => []
      end /\
    (forall d, r = Ret d -> driver m' = Some d /\
       exists c,
         match get_appium_config config, get_ios_config config,
               get_test_config config with
         | Ret appium_config, Ret ios_config, Ret _ =>
             match fst (ios_capabilities (traced env) appium_config
                          ios_config o m) with
             | Ret c => if server_known appium_config then [c] else []
             | Raise _ => []
             end
         | _, _, _ => []
         end = [c])).
  - wp. all: try (split; [apply part_post_refl|done]).
    match goal with
    | |- ensures (ios_capabilities _ ?ac ?pc _) _ _ =>
        pose proof (ios_capabilities_part env ac pc o m) as Hcap
    end.
    unfold ensures in Hcap. unfold ensures at 1.
    destruct (ios_capabilities (traced env) _ _ o m) as [[c|e] m1];
      cbn [fst snd] in *; destruct Hcap as (Hp & Hl & Hw);
      [|split; [by eapply part_post_raise|intros d [=]]].
    eapply ensures_weaken; [apply open_session_part|].
    intros r m2 (Hp2 & Hd). split.
    + apply (part_post_trans m m1 m2 c r [] _ Hp Hp2). by intros.
    + intros d Hr. destruct (Hd d Hr) as (Hd1 & _ & Hk).
      split; [done|]. rewrite Hk. by eexists.
  - intros [d|e] m1 (Hp & Hd); cbv beta.
    + split_and!; [done|done|]. intros d' [= <-]. by apply Hd.
    + destruct (is_Exception e) eqn:He; wp.
      * split_and!; [|intros e' [= <-] _; eexists; by rewrite last_snoc
                    |done].
        destruct Hp as (evs & ? & ? & ? & ? & ?). by exists evs.
      * split_and!; [done|intros e' [= <-]; congruence|done].
Qed.

(** *** The record changes nothing *)

Lemma records_ret {A} (a : A) :
  records (W := W) (ret a) (ret a).
Proof. by intros m. Qed.

Lemma records_raise {A} e :
  records (W := W) (A := A) (raise e) (raise e).
Proof. by intros m. Qed.

Lemma records_lift {A} (o : outcome A) :
  records (W := W) (lift o) (lift o).
Proof. by intros m. Qed.

Lemma records_bind {A B} (c' : M (manager (W * list event)) A) c
    (k' : A -> M (manager (W * list event)) B) k :
  records c' c -> (forall a, records (k' a) (k a)) ->
  records (bind c' k') (bind c k).
Proof.
  intros Hc Hk m. unfold bind. destruct (Hc m) as [Hr Hs].
  destruct (c' m) as [[a|e] m1], (c (erase m)) as [[a'|e'] m2];
    simplify_eq/=; [apply Hk|done].
Qed.

Lemma records_try_except {A} (c' : M (manager (W * list event)) A) c
    catches (h' : exn -> M (manager (W * list event)) A) h :
  records c' c -> (forall e, records (h' e) (h e)) ->
  records (try_except c' catches h') (try_except c catches h).
Proof.
  intros Hc Hh m. unfold try_except. destruct (Hc m) as [Hr Hs].
  destruct (c' m) as [[a|e] m1], (c (erase m)) as [[a'|e'] m2];
    simplify_eq/=; [done|].
  destruct (catches e'); [apply Hh|done].
Qed.

Lemma records_call {A} (f : W -> outcome A * W) ev :
  records (call (observe f ev)) (call f).
Proof.
  intros m. unfold call, observe, erase. simpl.
  by destruct (f (fst (world m))).
Qed.

Lemma records_logger l text e :
  records (W := W) (logger l text e) (logger l text e).
Proof. by intros m. Qed.

Lemma records_set_driver d :
  records (W := W) (set_driver d) (set_driver d).
Proof. by intros m. Qed.

Lemma records_set_wait w :
  records (W := W) (set_wait w) (set_wait w).
Proof. by intros m. Qed.

Ltac records :=
  repeat lazymatch goal with
    | |- records (ret _) _ => apply records_ret
    | |- records (raise _) _ => apply records_raise
    | |- records (lift _) _ => apply records_lift
    | |- records (logger _ _ _) _ => apply records_logger
    | |- records (set_driver _) _ => apply records_set_driver
    | |- records (set_wait _) _ => apply records_set_wait
    | |- records (call _) _ => apply records_call
    | |- records (bind _ _) _ => apply records_bind; [|intros ?]
    | |- records (try_except _ _ _) _ =>
        apply records_try_except; [|intros ?]
    | |- records (if ?b then _ else _) _ => destruct b
    end.

Lemma records_add_app env app_path c :
  records (add_app (traced env) app_path c) (add_app env app_path c).
Proof. unfold add_app. records. Qed.

Lemma records_android_capabilities env ac pc o :
  records (android_capabilities (traced env) ac pc o)
    (android_capabilities env ac pc o).
Proof.
  unfold android_capabilities. records. apply records_add_app.
Qed.

Lemma records_ios_capabilities env ac pc o :
  records (ios_capabilities (traced env) ac pc o)
    (ios_capabilities env ac pc o).
Proof.
  unfold ios_capabilities. records. apply records_add_app.
Qed.

Lemma records_open_session env ac tc c t1 t2 :
  records (open_session (traced env) ac tc c t1 t2)
    (open_session env ac tc c t1 t2).
Proof. unfold open_session. records. Qed.

Lemma records_start_android env config o :
  records (start_android_driver (traced env) config o)
    (start_android_driver env config o).
Proof.
  unfold start_android_driver. records.
  - apply records_android_capabilities.
  - apply records_open_session.
Qed.

Lemma records_start_ios env config o :
  records (start_ios_driver (traced env) config o)
    (start_ios_driver env config o).
Proof.
  unfold start_ios_driver. records.
  - apply records_ios_capabilities.
  - apply records_open_session.
Qed.

Lemma erase_fresh (m0 : manager W) : erase (fresh m0) = m0.
Proof. by destruct m0. Qed.

(** *** Sections that are not mappings *)

Lemma get_total config key default :
  exists v, Config.get config key default = Ret v.
Proof.
  unfold Config.get, otry.
  destruct (ConfigProps.walk_total (Config.split "." key) config)
    as [[v ->]|[->| ->]]; eauto.
Qed.

Lemma dict_display_non_mapping entries :
  Exists (fun entry => is_dict (fst (fst (snd entry))) = false) entries ->
  dict_display entries = Raise AttributeError.
Proof.
  induction entries as [|[name [[obj key] default]] entries IH];
    intros Hex; [by apply Exists_nil in Hex|].
  simpl. destruct obj as [| | | | |d]; try done.
  apply Exists_cons in Hex as [Hex|Hex]; [done|].
  simpl. destruct (dict_get d key); by rewrite IH.
Qed.

Lemma start_android_non_mapping {V} (env : appium V) config o
    (m : manager V) v :
  get_appium_config config = Ret v \/ get_android_config config = Ret v ->
  is_dict v = false ->
  start_android_driver env config o m
  = (Raise AttributeError,
     {| world := world m; driver := driver m; wait := wait m;
        log := log m ++
          [LogEntry ERROR "启动Android驱动失败: {e}" (Some AttributeError)]
     |}).
Proof.
  intros Hv Hd.
  destruct (get_total config "appium" (VDict [])) as [ac Hac].
  destruct (get_total config "android" (VDict [])) as [pc Hpc].
  destruct (get_total config "test" (VDict [])) as [tc Htc].
  unfold start_android_driver, get_appium_config, get_android_config,
    get_test_config in *.
  rewrite Hac, Hpc, Htc in *.
  unfold try_except, bind at 1 2 3, lift. unfold android_capabilities.
  unfold bind at 1 2, lift. rewrite dict_display_non_mapping; [done|].
  destruct Hv as [[= ->]|[= ->]].
  - do 10 apply Exists_cons_tl. by apply Exists_cons_hd.
  - by apply Exists_cons_hd.
Qed.

Lemma start_ios_non_mapping {V} (env : appium V) config o
    (m : manager V) v :
  get_appium_config config = Ret v \/ get_ios_config config = Ret v ->
  is_dict v = false ->
  start_ios_driver env config o m
  = (Raise AttributeError,
     {| world := world m; driver := driver m; wait := wait m;
        log := log m ++
          [LogEntry ERROR "启动iOS驱动失败: {e}" (Some AttributeError)]
     |}).
Proof.
  intros Hv Hd.
  destruct (get_total config "appium" (VDict [])) as [ac Hac].
  destruct (get_total config "ios" (VDict [])) as [pc Hpc].
  destruct (get_total config "test" (VDict [])) as [tc Htc].
  unfold start_ios_driver, get_appium_config, get_ios_config,
    get_test_config in *.
  rewrite Hac, Hpc, Htc in *.
  unfold try_except, bind at 1 2 3, lift. unfold ios_capabilities.
  unfold bind at 1 2, lift. rewrite dict_display_non_mapping; [done|].
  destruct Hv as [[= ->]|[= ->]].
  - do 7 apply Exists_cons_tl. by apply Exists_cons_hd.
  - by apply Exists_cons_hd.
Qed.

Lemma start_policy (m0 : manager W) asked
    (run : outcome session * manager (W * list event)) :
  start_post_traced (fresh m0) asked (fst run) (snd run) ->
  failure_policy m0 run.
Proof.
  intros ((evs & Ht & Hok & Hq & Hd & Hw) & Hlog & _).
  unfold failure_policy, record. simpl in Ht. rewrite Ht.
  split_and!.
  - intros ev e Hin Hr. by eapply step_ok_raised.
  - intros e He. split; [by apply (Hw e)|]. intros Hx. by apply (Hlog e).
  - done.
Qed.

Lemma start_requested (m0 : manager W) asked
    (run : outcome session * manager (W * list event)) :
  start_post_traced (fresh m0) asked (fst run) (snd run) ->
  requested (record run) = asked.
Proof.
  intros ((evs & Ht & Hok & Hq & Hd & Hw) & _).
  unfold record. simpl in Ht. by rewrite Ht.
Qed.

Lemma android_capabilities_any {V} (env : appium V) ac pc o
    (m : manager V) :
  android_capabilities env ac pc o m =
  (let (r, m') := android_capabilities env ac pc None m in
   (match r with
    | Ret defaults => Ret (update_caps defaults o)
    | Raise e => Raise e
    end, m')).
Proof.
  destruct o as [overrides|]; [apply android_capabilities_update|].
  by destruct (android_capabilities env ac pc None m) as [[c|e] m'].
Qed.

Lemma ios_capabilities_any {V} (env : appium V) ac pc o
    (m : manager V) :
  ios_capabilities env ac pc o m =
  (let (r, m') := ios_capabilities env ac pc None m in
   (match r with
    | Ret defaults => Ret (update_caps defaults o)
    | Raise e => Raise e
    end, m')).
Proof.
  destruct o as [overrides|]; [apply ios_capabilities_update|].
  by destruct (ios_capabilities env ac pc None m) as [[c|e] m'].
Qed.

Lemma update_caps_wins overrides defaults :
  overrides_win overrides defaults (update_caps defaults (Some overrides)).
Proof.
  split; intros k; [intros v|]; intros Hk;
    by rewrite update_caps_lookup, Hk.
Qed.

(** The run that keeps the record is the run without it. *)
Lemma traced_start_android env config o (m : manager W) :
  fst (start_android_driver (traced env) config o (fresh m))
  = fst (start_android_driver env config o m) /\
  erase (snd (start_android_driver (traced env) config o (fresh m)))
  = snd (start_android_driver env config o m).
Proof.
  pose proof (records_start_android env config o (fresh m)) as H.
  by rewrite erase_fresh in H.
Qed.

Lemma traced_start_ios env config o (m : manager W) :
  fst (start_ios_driver (traced env) config o (fresh m))
  = fst (start_ios_driver env config o m) /\
  erase (snd (start_ios_driver (traced env) config o (fresh m)))
  = snd (start_ios_driver env config o m).
Proof.
  pose proof (records_start_ios env config o (fresh m)) as H.
  by rewrite erase_fresh in H.
Qed.

(** C2: the capability set a start method hands to [webdriver.Remote]
    when it is given overrides, compared with the set the same call
    hands over without them: every key of the overrides carries the
    override value, whatever the defaults or the configuration file say
    for it, and every other key carries what it carries without
    overrides; the update is made key by key, not recursively.  The
    session is asked for with overrides exactly when it is asked for
    without them, and a call that returns a session has asked for it
    once.  Keeping the record changes neither the result of the call nor
    the manager it leaves.  Android and iOS alike. *)
Theorem overrides_take_precedence env config (overrides : caps)
    (m : manager W) :
  Forall2 (overrides_win overrides)
    (requested (record (start_android_driver (traced env) config None
                          (fresh m))))
    (requested (record (start_android_driver (traced env) config
                          (Some overrides) (fresh m)))) /\
  Forall2 (overrides_win overrides)
    (requested (record (start_ios_driver (traced env) config None
                          (fresh m))))
    (requested (record (start_ios_driver (traced env) config
                          (Some overrides) (fresh m)))) /\
  (forall o d,
     fst (start_android_driver (traced env) config o (fresh m)) = Ret d ->
     exists c,
       requested (record (start_android_driver (traced env) config o
                            (fresh m))) = [c]) /\
  (forall o d,
     fst (start_ios_driver (traced env) config o (fresh m)) = Ret d ->
     exists c,
       requested (record (start_ios_driver (traced env) config o
                            (fresh m))) = [c]) /\
  (forall o,
     fst (start_android_driver (traced env) config o (fresh m))
     = fst (start_android_driver env config o m) /\
     erase (snd (start_android_driver (traced env) config o (fresh m)))
     = snd (start_android_driver env config o m)) /\
  (forall o,
     fst (start_ios_driver (traced env) config o (fresh m))
     = fst (start_ios_driver env config o m) /\
     erase (snd (start_ios_driver (traced env) config o (fresh m)))
     = snd (start_ios_driver env config o m)).
Proof.
  split_and!; [| | | |intros; apply traced_start_android
              |intros; apply traced_start_ios].
  - rewrite !(start_requested m _ _ (start_android_part env config _ _)).
    unfold android_asked.
    destruct (get_appium_config config) as [ac|?]; [|constructor].
    destruct (get_android_config config) as [pc|?]; [|constructor].
    destruct (get_test_config config) as [tc|?]; [|constructor].
    rewrite (android_capabilities_any _ _ _ (Some overrides)).
    destruct (android_capabilities (traced env) ac pc None (fresh m))
      as [[d|e] m1]; cbn [fst]; [|constructor].
    destruct (server_known ac); constructor; [|constructor].
    apply update_caps_wins.
  - rewrite !(start_requested m _ _ (start_ios_part env config _ _)).
    unfold ios_asked.
    destruct (get_appium_config config) as [ac|?]; [|constructor].
    destruct (get_ios_config config) as [pc|?]; [|constructor].
    destruct (get_test_config config) as [tc|?]; [|constructor].
    rewrite (ios_capabilities_any _ _ _ (Some overrides)).
    destruct (ios_capabilities (traced env) ac pc None (fresh m))
      as [[d|e] m1]; cbn [fst]; [|constructor].
    destruct (server_known ac); constructor; [|constructor].
    apply update_caps_wins.
  - intros o d Hr.
    rewrite (start_requested m _ _ (start_android_part env config o _)).
    pose proof (start_android_part env config o (fresh m)) as (_ & _ & H).
    by destruct (H d Hr).
  - intros o d Hr.
    rewrite (start_requested m _ _ (start_ios_part env config o _)).
    pose proof (start_ios_part env config o (fresh m)) as (_ & _ & H).
    by destruct (H d Hr).
Qed.

(** C4, as the code has it.  A request of a start method that ends in an
    exception makes the call end in that exception; a call that ends in an
    exception of class [Exception] has logged it at level ERROR as its
    last act, and leaves the wait object as it was.  The stored session is
    the one [webdriver.Remote] returned in this call, when it returned
    one, whatever failed afterwards; otherwise it is the one from before
    the call.  Keeping the record changes neither the result of the call
    nor the manager it leaves.  A failure need not come from a request:
    a section of the configuration that is not a mapping makes the call
    end in [AttributeError] before any session is asked for. *)
Theorem start_failure_logged_and_raised env config o (m : manager W) :
  failure_policy m (start_android_driver (traced env) config o (fresh m)) /\
  failure_policy m (start_ios_driver (traced env) config o (fresh m)) /\
  (fst (start_android_driver (traced env) config o (fresh m))
   = fst (start_android_driver env config o m) /\
   erase (snd (start_android_driver (traced env) config o (fresh m)))
   = snd (start_android_driver env config o m)) /\
  (fst (start_ios_driver (traced env) config o (fresh m))
   = fst (start_ios_driver env config o m) /\
   erase (snd (start_ios_driver (traced env) config o (fresh m)))
   = snd (start_ios_driver env config o m)) /\
  (forall v,
     get_appium_config config = Ret v \/ get_android_config config = Ret v ->
     is_dict v = false ->
     fst (start_android_driver env config o m) = Raise AttributeError /\
     driver (snd (start_android_driver env config o m)) = driver m) /\
  (forall v,
     get_appium_config config = Ret v \/ get_ios_config config = Ret v ->
     is_dict v = false ->
     fst (start_ios_driver env config o m) = Raise AttributeError /\
     driver (snd (start_ios_driver env config o m)) = driver m).
Proof.
  split; [|split; [|split; [|split; [|split]]]].
  - eapply start_policy. apply start_android_part.
  - eapply start_policy. apply start_ios_part.
  - apply traced_start_android.
  - apply traced_start_ios.
  - intros v Hv Hd.
    by rewrite (start_android_non_mapping env config o m v Hv Hd).
  - intros v Hv Hd.
    by rewrite (start_ios_non_mapping env config o m v Hv Hd).
Qed.

End proofs.

Lemma overrides_take_precedence_witness :
  let overrides : caps :=
    {[ "platformVersion" := VStr "14"; "udid" := VStr "emulator-5554" ]} in
  let config := VDict [ ("android", VDict [("device_name", VStr "Pixel 7");
                                           ("platform_version", VStr "12")])
                      ] in
  exists defaults assembled,
    requested (record (start_android_driver (traced steady) config None
                         (fresh (init tt)))) = [defaults] /\
    requested (record (start_android_driver (traced steady) config
                         (Some overrides) (fresh (init tt)))) = [assembled] /\
    defaults !! "platformVersion" = Some (VStr "12") /\
    assembled !! "platformVersion" = Some (VStr "14") /\
    assembled !! "udid" = Some (VStr "emulator-5554") /\
    assembled !! "deviceName" = Some (VStr "Pixel 7").
Proof.
  intros overrides config.
  pose proof (overrides_take_precedence steady config overrides (init tt))
    as (H & _).
  eexists _, _. split; [reflexivity|]. split; [reflexivity|].
  apply Forall2_cons_1 in H as [[Hin Hout] _].
  split; [reflexivity|]. split_and!.
  - apply Hin. reflexivity.
  - apply Hin. reflexivity.
  - rewrite Hout; reflexivity.
Defined.

Lemma start_failure_logged_and_raised_witness :
  let run := start_android_driver (traced failing_after_open) (VDict []) None
               (fresh (init tt)) in
  fst run = Raise WebDriverException /\
  (exists text,
     last (log (snd run))
     = Some (LogEntry ERROR text (Some WebDriverException))) /\
  wait (snd run) = None /\
  driver (snd run) = Some (Session 1).
Proof.
  intros run.
  pose proof (start_failure_logged_and_raised failing_after_open (VDict [])
                None (init tt)) as [(Hraise & Hlog & Hdriver) _].
  fold run in Hraise, Hlog, Hdriver.
  assert (fst run = Raise WebDriverException) as Hr.
  { apply (Hraise (Called "implicitly_wait" (Some WebDriverException)));
      [|reflexivity].
    vm_compute. apply list_elem_of_further, list_elem_of_here. }
  destruct (Hlog _ Hr) as [Hw Hl].
  split_and!; [done|by apply Hl|done|done].
Defined.

End DriverTraceProps.

Module ScriptProps.
Import Py Eff Subprocess Runner RunnerSpec Script EffProps RunnerProps.

Section proofs.
Context {W : Type}.
Implicit Types (env : tools W) (s : state W).

Ltac wp_returning :=
  repeat first
    [ wp_step
    | lazymatch goal with
      | |- ensures (call _) _ _ =>
          apply ensures_tool_returning; [assumption|intros ? ?]
      | |- ensures (logger _ _ _) _ _ => unfold logger
      | |- ensures (print _) _ _ => unfold print
      end; cbv beta ].

Lemma main_clean_reports env args s :
  clean_reports args = true ->
  returning (clean_allure_results env) ->
  returning (cleanup_old_reports env) ->
  fst (main env args s) = Ret 0.
Proof.
  intros Hcl Hc Ho.
  change (ensures (main env args) s (fun r _ => r = Ret 0)).
  unfold main. rewrite Hcl. wp_returning. done.
Qed.

Lemma main_serve_report env args s :
  clean_reports args = false ->
  serve_report args = true ->
  returning (serve_allure_report env) ->
  fst (main env args s) = Ret 0.
Proof.
  intros Hcl Hsv Hs.
  change (ensures (main env args) s (fun r _ => r = Ret 0)).
  unfold main. rewrite Hcl, Hsv. wp_returning. done.
Qed.

Lemma ensures_generation_fails env e s
    (Q : outcome bool -> state W -> Prop) :
  generation_fails env e ->
  (forall w', Q (Raise e) {| world := w'; log := log s;
                             printed := printed s |}) ->
  ensures (call (generate_allure_report env)) s Q.
Proof.
  intros Hg H. apply ensures_tool_call. intros r w' Hf.
  destruct (Hg (world s)) as [w1 Hw]. rewrite Hf in Hw.
  injection Hw as -> ->. apply H.
Qed.

Lemma run_tests_generation_fails env tp mk wk rt rr vb s status e :
  returning (clean_allure_results env) ->
  returning (generate_pytest_html_report env) ->
  one_of rt ["allure"; "both"] = true ->
  pytest_ends_with env status ->
  status = 0 \/ status = 1 ->
  generation_fails env e ->
  ensures (run_tests env tp mk wk rt rr vb false) s (fun r _ =>
    (e = KeyboardInterrupt -> r = Ret 130) /\
    (is_Exception e = true -> r = Ret 1)).
Proof.
  intros Hc Hh Hrt Hp Hst Hg. unfold run_tests. rewrite Hrt.
  cbn [negb andb]. wp_returning.
  all: match goal with
       | |- ensures (run_unchecked ?env ?cmd) ?s _ =>
           unfold ensures at 1;
           destruct (run_unchecked_ends env cmd s status Hp) as [w1 ->]
       end; cbn [fst snd].
  all: assert ((status =? 0) || (status =? 1) = true) as ->
    by (destruct Hst as [-> | ->]; reflexivity).
  all: wp_returning.
  all: apply (ensures_generation_fails env e); [done|intros ?; cbv beta].
  all: destruct e; simpl; wp_returning; done.
Qed.

Lemma entry_point_main env args s (P : Z -> Prop) :
  (exists code, fst (main env args s) = Ret code /\ P code) ->
  exists code,
    fst (entry_point env (Namespace args) s) = SysExit code /\ P code.
Proof.
  intros (code & Hm & HP). exists code. split; [|done].
  unfold entry_point. destruct (main env args s) as [[c|e] s'];
    simpl in *; congruence.
Qed.

Lemma entry_point_code env args s code :
  fst (main env args s) = Ret code ->
  fst (entry_point env (Namespace args) s) = SysExit code.
Proof.
  intros Hm. unfold entry_point.
  destruct (main env args s) as [[c|e] s']; simpl in *; congruence.
Qed.

(** C9, as the code has it.  The script ends in [SystemExit] with code 0
    for [-h] and code 2 for a command line [argparse] rejects.  With a
    namespace, [main] returns 0 for [--clean-reports] and
    [--serve-report]; for a test run it returns the status the pytest
    process ends with, unchanged (0 for success, 1 for failed tests, any
    other status as it is); 130 when the user interrupts pytest or the
    generation of the Allure report; 1 when starting pytest or generating
    the report raises another exception of class [Exception].
    [sys.exit] receives nothing but 0, 1, 2, 130 or a status of the
    pytest process, and on a POSIX system the parent process sees that
    code modulo 256: a code from 0 to 255 unchanged, the return code [-n]
    of a pytest killed by signal [n] as [256 - n]. *)
Theorem exit_codes env command_line s :
  (command_line = Help ->
   entry_point env command_line s = (SysExit 0, s)) /\
  (command_line = Rejected ->
   entry_point env command_line s = (SysExit 2, s)) /\
  (forall args,
     command_line = Namespace args ->
     (clean_reports args = true ->
      returning (clean_allure_results env) ->
      returning (cleanup_old_reports env) ->
      fst (entry_point env command_line s) = SysExit 0) /\
     (clean_reports args = false ->
      serve_report args = true ->
      returning (serve_allure_report env) ->
      fst (entry_point env command_line s) = SysExit 0) /\
     (clean_reports args = false ->
      serve_report args = false ->
      returning (clean_allure_results env) ->
      returning (generate_pytest_html_report env) ->
      returning (open_allure_report env) ->
      (forall status,
         pytest_ends_with env status ->
         returning (generate_allure_report env) ->
         fst (entry_point env command_line s) = SysExit status) /\
      (pytest_fails_with env KeyboardInterrupt ->
       fst (entry_point env command_line s) = SysExit 130) /\
      (forall e,
         is_Exception e = true ->
         pytest_fails_with env e ->
         fst (entry_point env command_line s) = SysExit 1) /\
      (forall status e,
         collect_only args = false ->
         one_of (report args) ["allure"; "both"] = true ->
         pytest_ends_with env status ->
         status = 0 \/ status = 1 ->
         generation_fails env e ->
         (e = KeyboardInterrupt ->
          fst (entry_point env command_line s) = SysExit 130) /\
         (is_Exception e = true ->
          fst (entry_point env command_line s) = SysExit 1)))) /\
  (forall code,
     fst (entry_point env command_line s) = SysExit code ->
     (code = 0 \/ code = 1 \/ code = 2 \/ code = 130 \/
      exists cmd w stdout w',
        subprocess_run env cmd w = (Exited code stdout, w')) /\
     0 <= exit_status code < 256 /\
     (0 <= code < 256 -> exit_status code = code) /\
     (-256 < code < 0 -> exit_status code = 256 + code)).
Proof.
  split_and!.
  - by intros ->.
  - by intros ->.
  - intros args ->. split_and!.
    + intros. apply entry_point_code. by apply main_clean_reports.
    + intros. apply entry_point_code. by apply main_serve_report.
    + intros Hcl Hsv Hc Hh Ho. split_and!.
      * intros status Hp Hg. apply entry_point_code.
        apply (main_after_run_tests env args s (fun r => r = Ret status));
          [done..|].
        intros s'. eapply ensures_weaken;
          [by apply run_tests_passes_status|].
        intros r _ ->. by exists status.
      * intros Hp. apply entry_point_code.
        apply (main_after_run_tests env args s (fun r => r = Ret 130));
          [done..|].
        intros s'. eapply ensures_weaken;
          [by apply (run_tests_pytest_fails env _ _ _ _ _ _ _ s'
                       KeyboardInterrupt)|].
        intros r _ [Hk _]. exists 130. by rewrite Hk.
      * intros e He Hp. apply entry_point_code.
        apply (main_after_run_tests env args s (fun r => r = Ret 1));
          [done..|].
        intros s'. eapply ensures_weaken;
          [by apply (run_tests_pytest_fails env _ _ _ _ _ _ _ s' e)|].
        intros r _ [_ Hk]. exists 1. by rewrite Hk.
      * intros status e Hco Hrt Hp Hst Hg. split.
        -- intros ->. apply entry_point_code.
           apply (main_after_run_tests env args s (fun r => r = Ret 130));
             [done..|].
           intros s'. rewrite Hco. eapply ensures_weaken;
             [by apply (run_tests_generation_fails env _ _ _ _ _ _ s'
                          status KeyboardInterrupt)|].
           intros r _ [Hk _]. exists 130. by rewrite Hk.
        -- intros He. apply entry_point_code.
           apply (main_after_run_tests env args s (fun r => r = Ret 1));
             [done..|].
           intros s'. rewrite Hco. eapply ensures_weaken;
             [by apply (run_tests_generation_fails env _ _ _ _ _ _ s'
                          status e)|].
           intros r _ [_ Hk]. exists 1. by rewrite Hk.
  - intros code Hc. split; [|split; [|split]].
    + destruct command_line as [args| |]; simpl in Hc.
      * pose proof (main_codes env args s) as H. unfold ensures in H.
        destruct (main env args s) as [[c|e] s']; simpl in *; [|done].
        injection Hc as ->.
        destruct (H code eq_refl) as [?|[?|[?|?]]]; auto 10.
      * injection Hc as <-. auto.
      * injection Hc as <-. auto.
    + unfold exit_status. apply Z.mod_pos_bound. lia.
    + intros ?. unfold exit_status. by apply Z.mod_small.
    + intros ?. unfold exit_status.
      rewrite <- (Z.mod_add code 1 256) by lia.
      replace (code + 1 * 256) with (256 + code) by lia.
      apply Z.mod_small. lia.
Qed.

End proofs.

Lemma exit_codes_witness :
  fst (entry_point (pytest_exits 0) Rejected start) = SysExit 2 /\
  fst (entry_point (pytest_exits 0) (Namespace clean_run) start)
    = SysExit 0 /\
  fst (entry_point (pytest_exits 0) (Namespace serve_run) start)
    = SysExit 0 /\
  fst (entry_point (pytest_exits 1) (Namespace smoke_run) start)
    = SysExit 1 /\
  fst (entry_point (pytest_exits (-9)) (Namespace smoke_run) start)
    = SysExit (-9) /\
  exit_status (-9) = 247 /\
  fst (entry_point (pytest_raises KeyboardInterrupt) (Namespace smoke_run)
         start) = SysExit 130 /\
  fst (entry_point (pytest_raises OSError) (Namespace smoke_run) start)
    = SysExit 1 /\
  fst (entry_point (generation_raises 0 KeyboardInterrupt)
         (Namespace smoke_run) start) = SysExit 130.
Proof.
  split_and!.
  - pose proof (exit_codes (pytest_exits 0) Rejected start)
      as (_ & H & _). by rewrite (H eq_refl).
  - pose proof (exit_codes (pytest_exits 0) (Namespace clean_run) start)
      as (_ & _ & H & _).
    destruct (H clean_run eq_refl) as (Hc & _).
    apply Hc; [reflexivity|intros ?; by eexists..].
  - pose proof (exit_codes (pytest_exits 0) (Namespace serve_run) start)
      as (_ & _ & H & _).
    destruct (H serve_run eq_refl) as (_ & Hs & _).
    apply Hs; [reflexivity|reflexivity|intros ?; by eexists].
  - pose proof (exit_codes (pytest_exits 1) (Namespace smoke_run) start)
      as (_ & _ & H & _).
    destruct (H smoke_run eq_refl) as (_ & _ & Ht).
    destruct Ht as (Hst & _);
      [reflexivity|reflexivity|intros ?; by eexists..|].
    apply Hst; intros ?; by repeat eexists.
  - pose proof (exit_codes (pytest_exits (-9)) (Namespace smoke_run) start)
      as (_ & _ & H & _).
    destruct (H smoke_run eq_refl) as (_ & _ & Ht).
    destruct Ht as (Hst & _);
      [reflexivity|reflexivity|intros ?; by eexists..|].
    apply Hst; intros ?; by repeat eexists.
  - pose proof (exit_codes (pytest_exits (-9)) (Namespace smoke_run) start)
      as (_ & _ & _ & H).
    destruct (H (-9)) as (_ & _ & _ & Hneg); [reflexivity|].
    apply Hneg. lia.
  - pose proof (exit_codes (pytest_raises KeyboardInterrupt)
                  (Namespace smoke_run) start) as (_ & _ & H & _).
    destruct (H smoke_run eq_refl) as (_ & _ & Ht).
    destruct Ht as (_ & Hk & _);
      [reflexivity|reflexivity|intros ?; by eexists..|].
    apply Hk. intros ? ?. by eexists.
  - pose proof (exit_codes (pytest_raises OSError) (Namespace smoke_run)
                  start) as (_ & _ & H & _).
    destruct (H smoke_run eq_refl) as (_ & _ & Ht).
    destruct Ht as (_ & _ & He & _);
      [reflexivity|reflexivity|intros ?; by eexists..|].
    apply (He OSError); [reflexivity|]. intros ? ?. by eexists.
  - pose proof (exit_codes (generation_raises 0 KeyboardInterrupt)
                  (Namespace smoke_run) start) as (_ & _ & H & _).
    destruct (H smoke_run eq_refl) as (_ & _ & Ht).
    destruct Ht as (_ & _ & _ & Hg);
      [reflexivity|reflexivity|intros ?; by eexists..|].
    destruct (Hg 0 KeyboardInterrupt) as [Hk _];
      [reflexivity|reflexivity|intros ? ?; by repeat eexists|by left
      |intros ?; by eexists|].
    by apply Hk.
Defined.

End ScriptProps.

Module HeapProps.
Import Py Heap.

(** *** Items *)

Lemma get_set_eq d k v : get (set d k v) k = Some v.
Proof.
  induction d as [|[k' v'] d IH]; simpl.
  - by rewrite String.eqb_refl.
  - destruct (String.eqb k' k) eqn:E; simpl; rewrite E; auto.
Qed.

Lemma get_set_ne d k k' v : k <> k' -> get (set d k v) k' = get d k'.
Proof.
  intros Hne. induction d as [|[k0 v0] d IH]; simpl.
  - destruct (String.eqb k k') eqn:E; [|done].
    apply String.eqb_eq in E. contradiction.
  - destruct (String.eqb k0 k) eqn:E; simpl.
    + apply String.eqb_eq in E. subst k0.
      destruct (String.eqb k k') eqn:E'; [|done].
      apply String.eqb_eq in E'. contradiction.
    + by rewrite IH.
Qed.

Lemma set_same d k v : get d k = Some v -> set d k v = d.
Proof.
  induction d as [|[k' v'] d IH]; simpl; [done|].
  destruct (String.eqb k' k) eqn:E.
  - by intros [= ->].
  - intros H. by rewrite IH.
Qed.

Lemma get_notin d k : k ∉ map fst d -> get d k = None.
Proof.
  induction d as [|[k' v'] d IH]; simpl; [done|].
  intros Hn. apply not_elem_of_cons in Hn as [Hne Hn].
  destruct (String.eqb k' k) eqn:E.
  - apply String.eqb_eq in E. congruence.
  - by apply IH.
Qed.

Lemma get_in d k v :
  NoDup (map fst d) -> (k, v) ∈ d -> get d k = Some v.
Proof.
  induction d as [|[k' v'] d IH]; simpl; intros Hnd Hin.
  - by apply elem_of_nil in Hin.
  - apply NoDup_cons in Hnd as [Hk Hnd].
    apply elem_of_cons in Hin as [[= <- <-]|Hin].
    + by rewrite String.eqb_refl.
    + destruct (String.eqb k' k) eqn:E; [|by apply IH].
      apply String.eqb_eq in E. subst k'. exfalso. apply Hk.
      apply list_elem_of_fmap. by exists (k, v).
Qed.

(** *** The nesting bound *)

Lemma body_mono (rec rec' : obj -> obj -> heap -> option (outcome unit * heap))
    base key value h x :
  (forall b e h x, rec b e h = Some x -> rec' b e h = Some x) ->
  body rec base key value h = Some x ->
  body rec' base key value h = Some x.
Proof.
  intros Hrec. unfold body. destruct (is_dict value); [|done].
  destruct (contains h base key) as [[[]|e]|]; try done.
  destruct (getitem h base key) as [[sub|e]|]; try done.
  apply Hrec.
Qed.

Lemma loop_mono (rec rec' : obj -> obj -> heap -> option (outcome unit * heap))
    base env n todo : forall i h x,
  (forall b e h x, rec b e h = Some x -> rec' b e h = Some x) ->
  loop rec base env n i todo h = Some x ->
  loop rec' base env n i todo h = Some x.
Proof.
  induction todo as [|todo IH]; intros i h x Hrec; simpl; [done|].
  destruct (h !! env) as [d|]; [|done].
  destruct (negb _); [done|].
  destruct (d !! i) as [[key value]|]; [|done].
  destruct (body rec base key value h) as [[[[]|e] h']|] eqn:Hb; [| |done].
  - rewrite (body_mono _ rec' _ _ _ _ _ Hrec Hb). by apply IH.
  - by rewrite (body_mono _ rec' _ _ _ _ _ Hrec Hb).
Qed.

Lemma merge_mono depth : forall depth' base env h x,
  (depth <= depth')%nat ->
  _merge_config depth base env h = Some x ->
  _merge_config depth' base env h = Some x.
Proof.
  induction depth as [|depth IH]; intros depth' base env h x Hle; [done|].
  destruct depth' as [|depth']; [lia|]. simpl.
  destruct env as [| | | | |env]; try done.
  destruct (h !! env) as [d|]; [|done].
  apply loop_mono. intros b e h' x'. apply IH. lia.
Qed.

(** *** A merge that changes nothing *)

Lemma stable_unchanged F h h' base env r :
  stable F h base env r -> unchanged F h h' -> stable F h' base env r.
Proof.
  intros Hs Hu. revert base env r Hs.
  apply (stable_items_ind' F h
    (fun base env r _ => stable F h' base env r)
    (fun base d r _ => stable_items F h' base d r)).
  - intros. by apply stable_not_mapping.
  - intros base env d r Hin Hl _ IH.
    eapply stable_mapping; [done| |done]. by rewrite (Hu env Hin).
  - intros. apply stable_done.
  - intros. by apply stable_not_indexable.
  - intros l d key value rest r Hv Hin Hl Hg _ IH.
    eapply stable_store; [done|done| |done|done]. by rewrite (Hu l Hin).
  - intros l d key value sub rest r Hv Hin Hl Hg _ IH1 _ IH2.
    eapply stable_descend; [done|done| |done|done|done].
    by rewrite (Hu l Hin).
  - intros l d key value sub rest e Hv Hin Hl Hg _ IH.
    eapply stable_fail; [done|done| |done|done]. by rewrite (Hu l Hin).
Qed.

Lemma stable_more F F' h base env r :
  stable F h base env r -> F ⊆ F' -> stable F' h base env r.
Proof.
  intros Hs Hsub. revert base env r Hs.
  apply (stable_items_ind' F h
    (fun base env r _ => stable F' h base env r)
    (fun base d r _ => stable_items F' h base d r)).
  - intros. by apply stable_not_mapping.
  - intros base env d r Hin Hl _ IH.
    eapply stable_mapping; [by apply Hsub|done|done].
  - intros. apply stable_done.
  - intros. by apply stable_not_indexable.
  - intros l d key value rest r Hv Hin Hl Hg _ IH.
    eapply stable_store; [done|by apply Hsub|done|done|done].
  - intros l d key value sub rest r Hv Hin Hl Hg _ IH1 _ IH2.
    eapply stable_descend; [done|by apply Hsub|done|done|done|done].
  - intros l d key value sub rest e Hv Hin Hl Hg _ IH.
    eapply stable_fail; [done|by apply Hsub|done|done|done].
Qed.

Lemma stable_items_more F F' h base d r :
  stable_items F h base d r -> F ⊆ F' -> stable_items F' h base d r.
Proof.
  intros Hs Hsub. revert base d r Hs.
  apply (stable_stable_ind F h
    (fun base env r _ => stable F' h base env r)
    (fun base d r _ => stable_items F' h base d r)).
  - intros. by apply stable_not_mapping.
  - intros base env d r Hin Hl _ IH.
    eapply stable_mapping; [by apply Hsub|done|done].
  - intros. apply stable_done.
  - intros. by apply stable_not_indexable.
  - intros l d key value rest r Hv Hin Hl Hg _ IH.
    eapply stable_store; [done|by apply Hsub|done|done|done].
  - intros l d key value sub rest r Hv Hin Hl Hg _ IH1 _ IH2.
    eapply stable_descend; [done|by apply Hsub|done|done|done|done].
  - intros l d key value sub rest e Hv Hin Hl Hg _ IH.
    eapply stable_fail; [done|by apply Hsub|done|done|done].
Qed.

Lemma stable_items_unchanged F h h' base d r :
  stable_items F h base d r -> unchanged F h h' ->
  stable_items F h' base d r.
Proof.
  intros Hs Hu. revert base d r Hs.
  apply (stable_stable_ind F h
    (fun base env r _ => stable F h' base env r)
    (fun base d r _ => stable_items F h' base d r)).
  - intros. by apply stable_not_mapping.
  - intros base env d r Hin Hl _ IH.
    eapply stable_mapping; [done| |done]. by rewrite (Hu env Hin).
  - intros. apply stable_done.
  - intros. by apply stable_not_indexable.
  - intros l d key value rest r Hv Hin Hl Hg _ IH.
    eapply stable_store; [done|done| |done|done]. by rewrite (Hu l Hin).
  - intros l d key value sub rest r Hv Hin Hl Hg _ IH1 _ IH2.
    eapply stable_descend; [done|done| |done|done|done].
    by rewrite (Hu l Hin).
  - intros l d key value sub rest e Hv Hin Hl Hg _ IH.
    eapply stable_fail; [done|done| |done|done]. by rewrite (Hu l Hin).
Qed.

Lemma drop_cons_inv {A} (d : list A) i x rest :
  drop i d = x :: rest ->
  d !! i = Some x /\ drop (S i) d = rest /\
  (length d - i = S (length d - S i))%nat.
Proof.
  intros Hd.
  assert (d !! i = Some x) as Hl.
  { rewrite <- (Nat.add_0_r i), <- lookup_drop, Hd. done. }
  split; [done|]. split.
  - rewrite (drop_S _ _ _ Hl) in Hd. by injection Hd.
  - apply lookup_lt_Some in Hl. lia.
Qed.

Lemma loop_eq rec base env n i todo h :
  loop rec base env n i todo h
  = match h !! env with
    | None => None
    | Some d =>
        if negb (length d =? n)%nat then Some (Raise RuntimeError, h)
        else
          match todo with
          | O => Some (Ret tt, h)
          | S todo' =>
              match d !! i with
              | Some (key, value) =>
                  match body rec base key value h with
                  | Some (Ret _, h') => loop rec base env n (S i) todo' h'
                  | stopped => stopped
                  end
              | None => None
              end
          end
    end.
Proof. by destruct todo. Qed.

Lemma loop_done rec base env d i h :
  h !! env = Some d ->
  loop rec base env (length d) i 0 h = Some (Ret tt, h).
Proof. intros Hl. by rewrite loop_eq, Hl, Nat.eqb_refl. Qed.

Lemma loop_step rec base env d i todo key value h :
  h !! env = Some d ->
  d !! i = Some (key, value) ->
  loop rec base env (length d) i (S todo) h
  = match body rec base key value h with
    | Some (Ret _, h') => loop rec base env (length d) (S i) todo h'
    | stopped => stopped
    end.
Proof. intros Hl Hi. by rewrite loop_eq, Hl, Nat.eqb_refl, Hi. Qed.

Lemma body_not_indexable rec base key value h :
  is_dict base = false ->
  body rec base key value h = Some (Raise TypeError, h).
Proof.
  intros Hb. unfold body.
  destruct base as [| | |s|elements|l]; try done; simpl.
  all: destruct (is_dict value); try done.
  - by destruct (is_substring key s).
  - by destruct (existsb _ elements).
Qed.

Lemma body_store rec l d key value h :
  is_dict value = false ->
  h !! l = Some d ->
  body rec (ODict l) key value h
  = Some (Ret tt, <[l := set d key value]> h).
Proof. intros Hv Hl. unfold body. rewrite Hv. simpl. by rewrite Hl. Qed.

Lemma body_new rec l d key value h :
  h !! l = Some d ->
  get d key = None ->
  body rec (ODict l) key value h
  = Some (Ret tt, <[l := set d key value]> h).
Proof.
  intros Hl Hg. unfold body. destruct (is_dict value); simpl; rewrite Hl.
  - rewrite Hg. rewrite bool_decide_eq_false_2; [done|].
    by intros [? ?].
  - done.
Qed.

Lemma body_descend rec l d key value sub h :
  is_dict value = true ->
  h !! l = Some d ->
  get d key = Some sub ->
  body rec (ODict l) key value h = rec sub value h.
Proof.
  intros Hv Hl Hg. unfold body. rewrite Hv. simpl. rewrite Hl, Hg.
  rewrite bool_decide_eq_true_2; [done|]. by eexists.
Qed.

(** A merge that is stable ends as it says and leaves the store as it
    is. *)
Lemma stable_merge F h base env r :
  stable F h base env r ->
  exists depth, _merge_config depth base env h = Some (r, h).
Proof.
  revert base env r.
  apply (stable_items_ind' F h
    (fun base env r _ =>
       exists depth, _merge_config depth base env h = Some (r, h))
    (fun base rest r _ =>
       forall env d i,
         h !! env = Some d -> drop i d = rest ->
         exists depth,
           loop (_merge_config depth) base env (length d) i
             (length d - i) h = Some (r, h))).
  - intros base env Hd. exists 1%nat. simpl. by destruct env.
  - intros base env d r Hin Hl _ IH.
    destruct (IH env d 0%nat Hl eq_refl) as [depth Hloop].
    exists (S depth). cbn [_merge_config]. rewrite Hl.
    by rewrite Nat.sub_0_r in Hloop.
  - intros base env d i Hl Hd. exists 0%nat.
    assert (length d - i = 0)%nat as ->.
    { apply (f_equal length) in Hd. rewrite length_drop in Hd.
      simpl in Hd. lia. }
    by apply loop_done.
  - intros base key value rest Hb env d i Hl Hd. exists 0%nat.
    apply drop_cons_inv in Hd as (Hi & _ & ->).
    rewrite (loop_step _ _ _ _ _ _ _ _ _ Hl Hi).
    by rewrite body_not_indexable.
  - intros l d0 key value rest r Hv Hin Hl0 Hg _ IH env d i Hl Hd.
    apply drop_cons_inv in Hd as (Hi & Hd & ->).
    destruct (IH env d (S i) Hl Hd) as [depth Hloop]. exists depth.
    rewrite (loop_step _ _ _ _ _ _ _ _ _ Hl Hi).
    rewrite (body_store _ _ _ _ _ _ Hv Hl0), (set_same _ _ _ Hg).
    by rewrite insert_id.
  - intros l d0 key value sub rest r Hv Hin Hl0 Hg _ [depth1 IH1] _ IH2
      env d i Hl Hd.
    apply drop_cons_inv in Hd as (Hi & Hd & ->).
    destruct (IH2 env d (S i) Hl Hd) as [depth2 Hloop].
    exists (depth1 `max` depth2)%nat.
    rewrite (loop_step _ _ _ _ _ _ _ _ _ Hl Hi).
    rewrite (body_descend _ _ _ _ _ _ _ Hv Hl0 Hg).
    rewrite (merge_mono depth1 _ _ _ _ _ (Nat.le_max_l _ _) IH1).
    eapply loop_mono; [|exact Hloop].
    intros b e h' x. apply merge_mono. lia.
  - intros l d0 key value sub rest e Hv Hin Hl0 Hg _ [depth1 IH1]
      env d i Hl Hd.
    apply drop_cons_inv in Hd as (Hi & Hd & ->).
    exists depth1.
    rewrite (loop_step _ _ _ _ _ _ _ _ _ Hl Hi).
    rewrite (body_descend _ _ _ _ _ _ _ Hv Hl0 Hg). by rewrite IH1.
Qed.

(** *** Trees *)

Lemma tree_unchanged h h' o F :
  tree h o F -> unchanged F h h' -> tree h' o F.
Proof.
  intros Ht. revert h'.
  apply (tree_forest_ind h
    (fun o F _ => forall h', unchanged F h h' -> tree h' o F)
    (fun d F _ => forall h', unchanged F h h' -> forest h' d F));
    [..|exact Ht].
  - intros. by apply tree_leaf.
  - intros l d F' Hl Hnd _ IH h' Hu. apply tree_node with d; [|done|].
    + rewrite (Hu l); [done|]. apply list_elem_of_here.
    + apply IH. intros l' Hin. apply Hu. by apply list_elem_of_further.
  - intros. apply forest_nil.
  - intros k v rest Fv Frest _ IHv _ IHrest h' Hu. apply forest_cons.
    + apply IHv. intros l Hin. apply Hu. apply elem_of_app. by left.
    + apply IHrest. intros l Hin. apply Hu. apply elem_of_app. by right.
Qed.

Lemma forest_unchanged h h' d F :
  forest h d F -> unchanged F h h' -> forest h' d F.
Proof.
  revert F. induction d as [|[k v] rest IH]; intros F Hf Hu.
  - inversion Hf. apply forest_nil.
  - inversion Hf as [|k' v' rest' Fv Frest Hv Hrest]; subst.
    apply forest_cons.
    + eapply tree_unchanged; [done|].
      intros l Hin. apply Hu. apply elem_of_app. by left.
    + apply IH; [done|].
      intros l Hin. apply Hu. apply elem_of_app. by right.
Qed.

Lemma without_absent k d : k ∉ map fst d -> without k d = d.
Proof.
  induction d as [|[k' v'] d IH]; simpl; [done|].
  intros Hn. apply not_elem_of_cons in Hn as [Hne Hn].
  destruct (String.eqb k' k) eqn:E.
  - apply String.eqb_eq in E. congruence.
  - by rewrite IH.
Qed.

Lemma get_without_ne k k' d : k <> k' -> get (without k d) k' = get d k'.
Proof.
  intros Hne. induction d as [|[k0 v0] d IH]; simpl; [done|].
  destruct (String.eqb k0 k) eqn:E; simpl.
  - apply String.eqb_eq in E. subst k0.
    destruct (String.eqb k k') eqn:E'; [|done].
    apply String.eqb_eq in E'. contradiction.
  - by rewrite IH.
Qed.

Lemma keys_without k d : map fst (without k d) `sublist_of` map fst d.
Proof.
  induction d as [|[k' v'] d IH]; simpl; [done|].
  destruct (String.eqb k' k); simpl.
  - by apply sublist_cons.
  - by apply sublist_skip.
Qed.

Lemma get_Some_in d k v : get d k = Some v -> k ∈ map fst d.
Proof.
  induction d as [|[k' v'] d IH]; simpl; [done|].
  destruct (String.eqb k' k) eqn:E.
  - apply String.eqb_eq in E. subst k'. intros _. apply list_elem_of_here.
  - intros H. apply list_elem_of_further. by apply IH.
Qed.

(** The subtree under one key, and the forest of the others. *)
Lemma forest_take h d k sub : forall F,
  forest h d F ->
  NoDup (map fst d) ->
  get d k = Some sub ->
  exists Fk F',
    tree h sub Fk /\ forest h (without k d) F' /\ Fk ++ F' ≡ₚ F.
Proof.
  induction d as [|[k' v'] d IH]; intros F Hf Hnd Hg; [done|].
  inversion Hf as [|k0 v0 rest Fv Frest Hv Hrest]; subst.
  simpl in Hnd. apply NoDup_cons in Hnd as [Hk Hnd].
  simpl in Hg |- *. destruct (String.eqb k' k) eqn:E.
  - apply String.eqb_eq in E. subst k'. injection Hg as <-.
    exists Fv, Frest. rewrite without_absent by done. done.
  - destruct (IH Frest Hrest Hnd Hg) as (Fk & F' & Hsub & Hfor & Hp).
    exists Fk, (Fv ++ F')%list. split_and!; [done|by apply forest_cons|].
    rewrite <- Hp. by rewrite Permutation_app_swap_app.
Qed.

Lemma forest_without h d k : forall F,
  forest h d F ->
  exists F', forest h (without k d) F' /\ F' `sublist_of` F.
Proof.
  induction d as [|[k' v'] d IH]; intros F Hf.
  - inversion Hf. exists []. split; [apply forest_nil|done].
  - inversion Hf as [|k0 v0 rest Fv Frest Hv Hrest]; subst.
    destruct (IH Frest Hrest) as (F' & Hfor & Hs).
    simpl. destruct (String.eqb k' k).
    + exists F'. split; [done|]. by apply sublist_inserts_l.
    + exists (Fv ++ F')%list. split; [by apply forest_cons|].
      by apply sublist_app.
Qed.

(** Merging a tree of mappings into itself changes nothing. *)
Lemma tree_self_stable h o F :
  tree h o F ->
  forall l, o = ODict l -> stable F h o o (Ret tt).
Proof.
  apply (tree_forest_ind h
    (fun o F _ => forall l, o = ODict l -> stable F h o o (Ret tt))
    (fun rest Fi _ =>
       forall l d F,
         h !! l = Some d -> l ∈ F -> Fi ⊆ F ->
         (forall k x, (k, x) ∈ rest -> get d k = Some x) ->
         stable_items F h (ODict l) rest (Ret tt))).
  - intros o' Hd l ->. done.
  - intros l d F' Hl Hnd _ IH l' [= <-].
    apply stable_mapping with d; [apply list_elem_of_here|done|].
    apply (IH l d (l :: F')); [done|apply list_elem_of_here|set_solver|].
    intros k x Hin. by apply get_in.
  - intros. apply stable_done.
  - intros k v rest Fv Frest Hv IHv _ IHrest l d F' Hl Hin Hsub Hget.
    assert (get d k = Some v) as Hk by (apply Hget; apply list_elem_of_here).
    assert (stable_items F' h (ODict l) rest (Ret tt)) as Hrest.
    { apply (IHrest l d F'); [done|done|set_solver|].
      intros k' x Hx. apply Hget. by apply list_elem_of_further. }
    destruct (is_dict v) eqn:Hd.
    + destruct v as [| | | | |lv]; try done.
      eapply stable_descend; [done|done|done|done| |done].
      eapply stable_more; [by apply (IHv lv)|set_solver].
    + by eapply stable_store.
Qed.

(** *** The first merge *)

Lemma perm_parts {A} (l1 l2 l : list A) :
  l1 ++ l2 ≡ₚ l ->
  (forall x, x ∈ l <-> x ∈ l1 \/ x ∈ l2) /\
  (NoDup l -> NoDup l1 /\ NoDup l2 /\ forall x, x ∈ l1 -> x ∉ l2).
Proof.
  intros Hp. split.
  - intros x. by rewrite <- Hp, elem_of_app.
  - rewrite <- Hp, NoDup_app. naive_solver.
Qed.

Lemma sublist_parts {A} (l1 l : list A) :
  l1 `sublist_of` l -> l1 ⊆ l /\ (NoDup l -> NoDup l1).
Proof.
  intros Hs. split.
  - by apply sublist_subseteq.
  - intros N. by eapply sublist_NoDup.
Qed.

Ltac places_step :=
  match goal with
  | H : NoDup (_ :: _) |- _ => apply NoDup_cons in H as [? ?]
  | H : NoDup (_ ++ _) |- _ => apply NoDup_app in H as (? & ? & ?)
  | H : _ `sublist_of` _ |- _ => apply sublist_parts in H as [? ?]
  | H : _ ++ _ ≡ₚ _ |- _ => apply perm_parts in H as [? ?]
  | H : NoDup ?l -> _, N : NoDup ?l |- _ => specialize (H N)
  | H : _ /\ _ |- _ => destruct H
  end.

Ltac places :=
  repeat places_step;
  rewrite ?NoDup_cons, ?NoDup_app;
  set_solver.

(** On a store without shared mappings the merge ends, writes to places
    of the base only, and leaves a store on which merging again changes
    nothing. *)
Lemma merge_separate h0 e Fe :
  tree h0 e Fe ->
  forall h b Fb,
    unchanged Fe h0 h -> tree h b Fb -> NoDup (Fb ++ Fe) ->
    exists depth r h1,
      _merge_config depth b e h = Some (r, h1) /\
      stable (Fb ++ Fe) h1 b e r /\
      (forall l, l ∉ Fb -> h1 !! l = h !! l).
Proof.
  apply (tree_forest_ind h0
    (fun e Fe _ =>
       forall h b Fb,
         unchanged Fe h0 h -> tree h b Fb -> NoDup (Fb ++ Fe) ->
         exists depth r h1,
           _merge_config depth b e h = Some (r, h1) /\
           stable (Fb ++ Fe) h1 b e r /\
           (forall l, l ∉ Fb -> h1 !! l = h !! l))
    (fun rest Fi _ =>
       forall h lb db dbr Fr env d i,
         unchanged Fi h0 h ->
         h !! env = Some d -> drop i d = rest -> NoDup (map fst rest) ->
         h !! lb = Some db ->
         (forall k, k ∈ map fst rest -> get db k = get dbr k) ->
         NoDup (map fst dbr) -> forest h dbr Fr ->
         NoDup (lb :: env :: Fr ++ Fi) ->
         exists depth r h1 db1,
           loop (_merge_config depth) (ODict lb) env (length d) i
             (length d - i) h = Some (r, h1) /\
           stable_items (lb :: env :: Fr ++ Fi) h1 (ODict lb) rest r /\
           (forall l, l ∉ lb :: Fr -> h1 !! l = h !! l) /\
           h1 !! lb = Some db1 /\
           (forall k, k ∉ map fst rest -> get db1 k = get db k))).
  - (* the overlay is no mapping *)
    intros o Hd h b Fb _ _ _. exists 1%nat, (Raise AttributeError), h.
    split_and!; [by destruct o|by apply stable_not_mapping|done].
  - (* the overlay is a mapping *)
    intros env d Fi Hl0 Hnd _ IH h b Fb Hun Hb HND.
    assert (h !! env = Some d) as Hl.
    { rewrite (Hun env); [done|]. apply list_elem_of_here. }
    inversion Hb as [o Hd|lb db Fdb Hlb Hnddb Hfor]; subst.
    + (* the base is no mapping *)
      exists 1%nat. cbn [_merge_config]. rewrite Hl.
      destruct d as [|[k v] rest].
      * exists (Ret tt), h. split_and!; [by apply loop_done| |done].
        eapply stable_mapping; [|done|apply stable_done].
        apply list_elem_of_here.
      * exists (Raise TypeError), h. split_and!; [| |done].
        -- change (length ((k, v) :: rest)) with (S (length rest)) at 2.
           rewrite (loop_step _ _ _ _ 0%nat _ k v _ Hl eq_refl).
           by rewrite body_not_indexable.
        -- eapply stable_mapping; [|done|by apply stable_not_indexable].
           apply list_elem_of_here.
    + (* the base is a mapping *)
      destruct (IH h lb db db Fdb env d 0%nat) as
        (depth & r & h1 & db1 & Hloop & Hst & Hframe & Hlb1 & _);
        [|done|done|done|done|done|done|done| |].
      { intros l Hin. apply Hun. by apply list_elem_of_further. }
      { clear -HND. places. }
      exists (S depth), r, h1. split_and!.
      * cbn [_merge_config]. rewrite Hl.
        by rewrite Nat.sub_0_r in Hloop.
      * apply stable_mapping with d; [set_solver| |].
        -- rewrite Hframe; [done|]. clear -HND. places.
        -- eapply stable_items_more; [done|]. set_solver.
      * done.
  - (* no item is left *)
    intros h lb db dbr Fr env d i _ Hl Hd _ Hlb _ _ _ _.
    exists 0%nat, (Ret tt), h, db.
    assert (length d - i = 0)%nat as ->.
    { apply (f_equal length) in Hd. rewrite length_drop in Hd.
      simpl in Hd. lia. }
    split_and!; [by apply loop_done|apply stable_done|done|done|done].
  - (* the next item *)
    intros k v rest Fv Frest Hv IHv _ IHrest
      h lb db dbr Fr env d i Hun Hl Hd Hnd Hlb Hagree Hnddbr Hfor HND.
    apply drop_cons_inv in Hd as (Hi & Hd & ->).
    simpl in Hnd. apply NoDup_cons in Hnd as [Hk Hnd].
    assert (get db k = get dbr k) as Hgk
      by (apply Hagree; apply list_elem_of_here).
    assert ((is_dict v = false \/ get db k = None) \/
            exists sub, is_dict v = true /\ get db k = Some sub)
      as [Hstore|(sub & Hdv & Hsub)].
    { destruct (is_dict v); [|by left; left].
      destruct (get db k) as [sub|]; [right; by exists sub|by left; right]. }
    { (* the item is stored under the key *)
      assert (forall rec, body rec (ODict lb) k v h
                = Some (Ret tt, <[lb := set db k v]> h)) as Hbody.
      { intros rec. destruct Hstore as [Hdv|Hnone].
        - by apply body_store.
        - by apply body_new. }
      destruct (forest_without h dbr k Fr Hfor) as (Fr' & Hfor' & Hsl).
      destruct (IHrest (<[lb := set db k v]> h) lb (set db k v)
        (without k dbr) Fr' env d (S i)) as
        (depth & r & h1 & db1 & Hloop & Hst & Hframe & Hlb1 & Hkeep).
      - intros l Hin. rewrite lookup_insert_ne.
        + apply Hun. set_solver.
        + clear -HND Hin. places.
      - rewrite lookup_insert_ne; [done|]. clear -HND. places.
      - done.
      - done.
      - by rewrite lookup_insert_eq.
      - intros k' Hin.
        rewrite get_set_ne, get_without_ne by (intros ->; done).
        apply Hagree. by apply list_elem_of_further.
      - eapply sublist_NoDup; [exact Hnddbr|apply keys_without].
      - eapply forest_unchanged; [done|].
        intros l Hin. rewrite lookup_insert_ne; [done|].
        clear -HND Hin Hsl. places.
      - clear -HND Hsl. places.
      - exists depth, r, h1, db1.
        assert (get db1 k = Some v) as Hk1.
        { rewrite Hkeep by done. apply get_set_eq. }
        assert (unchanged Fv h0 h1) as Hu1.
        { intros l Hin. rewrite Hframe by (clear -HND Hin Hsl; places).
          rewrite lookup_insert_ne by (clear -HND Hin; places).
          apply Hun. set_solver. }
        split_and!.
        + rewrite (loop_step _ _ _ _ _ _ _ _ _ Hl Hi). by rewrite Hbody.
        + destruct (is_dict v) eqn:Hdv'.
          * destruct v as [| | | | |lv]; try done.
            eapply stable_descend;
              [done|apply list_elem_of_here|done|done| |].
            -- eapply stable_more.
               ++ eapply tree_self_stable; [|done].
                  eapply tree_unchanged; [exact Hv|exact Hu1].
               ++ set_solver.
            -- eapply stable_items_more; [done|]. clear -Hsl. places.
          * eapply stable_store;
              [done|apply list_elem_of_here|done|done|].
            eapply stable_items_more; [done|]. clear -Hsl. places.
        + intros l Hn. rewrite Hframe by (clear -Hn Hsl; places).
          rewrite lookup_insert_ne by (clear -Hn; places). done.
        + done.
        + intros k' Hn. rewrite Hkeep by set_solver.
          apply get_set_ne. set_solver. }
    (* the base holds a mapping under the key *)
    destruct (forest_take h dbr k sub Fr Hfor Hnddbr) as
      (Fk & F' & Hsubt & Hfor' & Hp); [congruence|].
    destruct (IHv h sub Fk) as (depth1 & r1 & h1 & Hm & Hst1 & Hframe1);
      [intros l Hin; apply Hun; set_solver|done|clear -HND Hp; places|].
    assert (h1 !! lb = Some db) as Hlb1.
    { rewrite Hframe1; [done|]. clear -HND Hp. places. }
    destruct r1 as [[]|e1].
    + destruct (IHrest h1 lb db (without k dbr) F' env d (S i)) as
        (depth2 & r & h2 & db2 & Hloop & Hst & Hframe & Hlb2 & Hkeep).
      * intros l Hin. rewrite Hframe1 by (clear -HND Hp Hin; places).
        apply Hun. set_solver.
      * rewrite Hframe1; [done|]. clear -HND Hp. places.
      * done.
      * done.
      * done.
      * intros k' Hin. rewrite get_without_ne by (intros ->; done).
        apply Hagree. by apply list_elem_of_further.
      * eapply sublist_NoDup; [exact Hnddbr|apply keys_without].
      * eapply forest_unchanged; [done|].
        intros l Hin. apply Hframe1. clear -HND Hp Hin. places.
      * clear -HND Hp. places.
      * exists (depth1 `max` depth2)%nat, r, h2, db2. split_and!.
        -- rewrite (loop_step _ _ _ _ _ _ _ _ _ Hl Hi).
           rewrite (body_descend _ _ _ _ _ _ _ Hdv Hlb Hsub).
           rewrite (merge_mono depth1 _ _ _ _ _ (Nat.le_max_l _ _) Hm).
           eapply loop_mono; [|exact Hloop].
           intros ? ? ? ?. apply merge_mono. lia.
        -- eapply stable_descend;
             [done|apply list_elem_of_here|done| | |].
           ++ rewrite Hkeep by done. done.
           ++ eapply stable_more; [eapply stable_unchanged; [done|]|].
              ** intros l Hin. apply Hframe. clear -HND Hp Hin. places.
              ** clear -Hp. places.
           ++ eapply stable_items_more; [done|]. clear -Hp. places.
        -- intros l Hn. rewrite Hframe by (clear -Hn Hp; places).
           apply Hframe1. clear -Hn Hp. places.
        -- done.
        -- intros k' Hn. apply Hkeep. set_solver.
    + exists depth1, (Raise e1), h1, db. split_and!.
      * rewrite (loop_step _ _ _ _ _ _ _ _ _ Hl Hi).
        rewrite (body_descend _ _ _ _ _ _ _ Hdv Hlb Hsub). by rewrite Hm.
      * eapply stable_fail; [done|apply list_elem_of_here|done|done|].
        eapply stable_more; [done|]. clear -Hp. places.
      * intros l Hn. apply Hframe1. clear -Hn Hp. places.
      * done.
      * done.
Qed.

(** C5 (as amended): where no mapping object is stored in two places,
    the merge of an overlay into a base ends, and merging the same
    overlay again ends in the same way and leaves the store exactly as
    the first merge left it. *)
Theorem merge_twice_without_sharing h base_config env_config :
  separate h base_config env_config ->
  exists depth r h1,
    forall depth', (depth <= depth')%nat ->
      _merge_config depth' base_config env_config h = Some (r, h1) /\
      _merge_config depth' base_config env_config h1 = Some (r, h1).
Proof.
  intros (Fb & Fe & Hb & He & HND).
  destruct (merge_separate h env_config Fe He h base_config Fb)
    as (depth1 & r & h1 & Hm & Hst & _); [done|done|done|].
  destruct (stable_merge _ _ _ _ _ Hst) as [depth2 Hm2].
  exists (depth1 `max` depth2)%nat, r, h1. intros depth' Hle. split.
  - eapply merge_mono; [|exact Hm]. lia.
  - eapply merge_mono; [|exact Hm2]. lia.
Qed.

Ltac distinct :=
  simpl; repeat (apply NoDup_cons_2; [set_solver|]); apply NoDup_nil_2.

Lemma unaliased_separate : separate unaliased (ODict 0) (ODict 2).
Proof.
  exists [0; 1; 6]%nat, [2; 3; 4; 5]%nat. split_and!.
  - eapply tree_node; [reflexivity|distinct|].
    apply (forest_cons _ _ _ _ [1%nat] [6%nat]).
    + eapply tree_node;
        [reflexivity|distinct|apply forest_nil].
    + apply (forest_cons _ _ _ _ [6%nat] []); [|apply forest_nil].
      eapply tree_node;
        [reflexivity|distinct|apply forest_nil].
  - eapply tree_node; [reflexivity|distinct|].
    apply (forest_cons _ _ _ _ [3; 4]%nat [5%nat]).
    + eapply tree_node; [reflexivity|distinct|].
      apply (forest_cons _ _ _ _ [4%nat] []); [|apply forest_nil].
      eapply tree_node; [reflexivity|distinct|].
      apply (forest_cons _ _ _ _ [] []); [by apply tree_leaf|].
      apply forest_nil.
    + apply (forest_cons _ _ _ _ [5%nat] []); [|apply forest_nil].
      eapply tree_node; [reflexivity|distinct|].
      apply (forest_cons _ _ _ _ [] []); [by apply tree_leaf|].
      apply forest_nil.
  - distinct.
Defined.

Lemma merge_twice_without_sharing_witness :
  exists depth r h1,
    forall depth', (depth <= depth')%nat ->
      _merge_config depth' (ODict 0) (ODict 2) unaliased = Some (r, h1) /\
      _merge_config depth' (ODict 0) (ODict 2) h1 = Some (r, h1).
Proof.
  apply (merge_twice_without_sharing unaliased (ODict 0) (ODict 2)).
  exact unaliased_separate.
Defined.

(** C5, counterexample: one empty mapping stored under the keys [p] and
    [q] of the base, as the YAML document [p: &P {} / q: *P] loads, and
    the overlay [{p: {k: {m: 1}}, q: {k: 5}}].  The first merge returns;
    the second one raises [TypeError], for the first has left the number
    5 under [k] where the overlay holds a mapping. *)
Lemma merge_twice_with_alias :
  exists h1 h2,
    forall depth, (3 <= depth)%nat ->
      _merge_config depth (ODict 0) (ODict 2) aliased
      = Some (Ret tt, h1) /\
      _merge_config depth (ODict 0) (ODict 2) h1
      = Some (Raise TypeError, h2).
Proof.
  eexists _, _. intros depth Hle. split.
  - apply (merge_mono 3); [done|]. vm_compute. reflexivity.
  - apply (merge_mono 3); [done|]. vm_compute. reflexivity.
Qed.

End HeapProps.
